(** * Marvin chess engine: the alpha-beta search of [src/search.c]

    A shallow embedding of the search subsystem (history, killer and PV
    tables, checkup, quiescence, the main search, the root search and the
    iterative-deepening driver) together with the properties the
    specification states about it.  The last part goes beyond the
    specification: invariants of the whole search and, from the XBoard
    driver and the tuner that the source files hold as well, the time
    control, the repetition test, the command dispatch and the partition
    of the training set.

    Conventions.
    - C [int] values are modelled as [Z].  Signed overflow is undefined in
      C, so the model describes the runs in which it does not happen.
    - A fixed-size C array is a total function from its index; reading or
      writing outside the declared bounds is undefined in C, and the
      statements that depend on the bounds say so.  The one index the code
      increments without a guard, that of the aspiration schedule, is read
      through [aspiration_window_at], and a read outside the array ends
      the run of the model ([undefined]).
    - Everything [search.c] reaches only through other translation units
      (board, move selector, evaluation, hash table, SEE, SMP, time
      control, engine I/O) and every constant or macro of the absent
      headers is a field of the interface [Externals].
    - [longjmp] out of the search is the [Jump] outcome.
    - Recursion and [while] loops whose termination depends on the absent
      code run on fuel: [d] bounds the nesting of recursive calls, [lf] the
      number of iterations of one loop.
    - The worker carries a ghost log of the calls into the board, the
      evaluation, the hash table and the move selector.  No code reads
      it; it is what the statements about the order of those calls are
      about. *)

From Stdlib Require Import Ascii String.
From Stdlib Require Import ZArith List Bool Lia.
Import ListNotations.
Open Scope Z_scope.

Set Implicit Arguments.

(** ** Data *)

(** [uint32_t] move encoding. *)
Definition move := Z.

(** [struct pv]: an array of moves and the number of valid entries. *)
Record pv := mk_pv { pv_moves : Z -> move; pv_length : Z }.

(** The moves a [struct pv] holds: the first [pv_length] array slots. *)
Definition pv_line (p : pv) : list move :=
  map (fun i => pv_moves p (Z.of_nat i)) (seq 0 (Z.to_nat (pv_length p))).

(** Ghost events: the calls into the board, evaluation and hash modules, in
    the order the search makes them.  The log is never read by the code. *)
Inductive event :=
| EvMake (m : move)
| EvUnmake
| EvMakeNull
| EvUnmakeNull
| EvEval
| EvTTLookup
| EvTTStore
| EvTBProbe
| EvSelect.

(** [struct search_worker], restricted to the fields [search.c] reads or
    writes itself.  [pos] stands for [worker->pos] and everything else that
    is reachable from the worker but owned by other modules (move-picker
    state, [worker->state], the hash table, the clock). *)
Record search_worker (position : Type) := mk_worker {
  pos : position;
  history_table : Z -> Z -> Z -> Z;
  killer_table : Z -> Z -> move;
  pv_table : Z -> pv;
  nodes : Z;
  qnodes : Z;
  w_depth : Z;   (* worker->depth *)
  seldepth : Z;
  currmovenumber : Z;
  currmove : move;
  best_move : move;
  ponder_move : move;
  resolving_root_fail : bool;
  id : Z;
  trace : list event
}.

Section Setters.
Variable position : Type.
Local Abbreviation worker := (search_worker position).

Definition set_pos (w : worker) (p : position) : worker :=
  mk_worker p (history_table w) (killer_table w) (pv_table w) (nodes w)
    (qnodes w) (w_depth w) (seldepth w) (currmovenumber w) (currmove w)
    (best_move w) (ponder_move w) (resolving_root_fail w) (id w) (trace w).
Definition set_history_table (w : worker) (h : Z -> Z -> Z -> Z) : worker :=
  mk_worker (pos w) h (killer_table w) (pv_table w) (nodes w)
    (qnodes w) (w_depth w) (seldepth w) (currmovenumber w) (currmove w)
    (best_move w) (ponder_move w) (resolving_root_fail w) (id w) (trace w).
Definition set_killer_table (w : worker) (k : Z -> Z -> move) : worker :=
  mk_worker (pos w) (history_table w) k (pv_table w) (nodes w)
    (qnodes w) (w_depth w) (seldepth w) (currmovenumber w) (currmove w)
    (best_move w) (ponder_move w) (resolving_root_fail w) (id w) (trace w).
Definition set_pv_table (w : worker) (t : Z -> pv) : worker :=
  mk_worker (pos w) (history_table w) (killer_table w) t (nodes w)
    (qnodes w) (w_depth w) (seldepth w) (currmovenumber w) (currmove w)
    (best_move w) (ponder_move w) (resolving_root_fail w) (id w) (trace w).
Definition set_nodes (w : worker) (n : Z) : worker :=
  mk_worker (pos w) (history_table w) (killer_table w) (pv_table w) n
    (qnodes w) (w_depth w) (seldepth w) (currmovenumber w) (currmove w)
    (best_move w) (ponder_move w) (resolving_root_fail w) (id w) (trace w).
Definition set_qnodes (w : worker) (n : Z) : worker :=
  mk_worker (pos w) (history_table w) (killer_table w) (pv_table w) (nodes w)
    n (w_depth w) (seldepth w) (currmovenumber w) (currmove w)
    (best_move w) (ponder_move w) (resolving_root_fail w) (id w) (trace w).
Definition set_w_depth (w : worker) (n : Z) : worker :=
  mk_worker (pos w) (history_table w) (killer_table w) (pv_table w) (nodes w)
    (qnodes w) n (seldepth w) (currmovenumber w) (currmove w)
    (best_move w) (ponder_move w) (resolving_root_fail w) (id w) (trace w).
Definition set_seldepth (w : worker) (n : Z) : worker :=
  mk_worker (pos w) (history_table w) (killer_table w) (pv_table w) (nodes w)
    (qnodes w) (w_depth w) n (currmovenumber w) (currmove w)
    (best_move w) (ponder_move w) (resolving_root_fail w) (id w) (trace w).
Definition set_currmovenumber (w : worker) (n : Z) : worker :=
  mk_worker (pos w) (history_table w) (killer_table w) (pv_table w) (nodes w)
    (qnodes w) (w_depth w) (seldepth w) n (currmove w)
    (best_move w) (ponder_move w) (resolving_root_fail w) (id w) (trace w).
Definition set_currmove (w : worker) (m : move) : worker :=
  mk_worker (pos w) (history_table w) (killer_table w) (pv_table w) (nodes w)
    (qnodes w) (w_depth w) (seldepth w) (currmovenumber w) m
    (best_move w) (ponder_move w) (resolving_root_fail w) (id w) (trace w).
Definition set_best_move (w : worker) (m : move) : worker :=
  mk_worker (pos w) (history_table w) (killer_table w) (pv_table w) (nodes w)
    (qnodes w) (w_depth w) (seldepth w) (currmovenumber w) (currmove w)
    m (ponder_move w) (resolving_root_fail w) (id w) (trace w).
Definition set_ponder_move (w : worker) (m : move) : worker :=
  mk_worker (pos w) (history_table w) (killer_table w) (pv_table w) (nodes w)
    (qnodes w) (w_depth w) (seldepth w) (currmovenumber w) (currmove w)
    (best_move w) m (resolving_root_fail w) (id w) (trace w).
Definition set_resolving_root_fail (w : worker) (b : bool) : worker :=
  mk_worker (pos w) (history_table w) (killer_table w) (pv_table w) (nodes w)
    (qnodes w) (w_depth w) (seldepth w) (currmovenumber w) (currmove w)
    (best_move w) (ponder_move w) b (id w) (trace w).
Definition set_trace (w : worker) (t : list event) : worker :=
  mk_worker (pos w) (history_table w) (killer_table w) (pv_table w) (nodes w)
    (qnodes w) (w_depth w) (seldepth w) (currmovenumber w) (currmove w)
    (best_move w) (ponder_move w) (resolving_root_fail w) (id w) t.

End Setters.

(** ** The interface to the rest of the engine

    One field per constant, macro, struct field or function that
    [search.c] uses and that is declared in a header outside the modelled
    file.  A C function that takes [pos] or [worker] by pointer returns the
    new [position]; an out-parameter is part of the result. *)
Class Externals (position : Type) := {
  (* chess.h: limits and score constants *)
  MAX_PLY : Z;
  MAX_HISTORY_SCORE : Z;
  NSIDES : Z;
  NSQUARES : Z;
  INFINITE_SCORE : Z;
  CHECKMATE : Z;
  FORCED_MATE : Z;
  KNOWN_WIN : Z;
  TABLEBASE_WIN : Z;
  (* chess.h: move and piece macros *)
  NOMOVE : move;
  ISCAPTURE : move -> bool;
  ISENPASSANT : move -> bool;
  ISPROMOTION : move -> bool;
  FROM : move -> Z;
  TO : move -> Z;
  COLOR : Z -> Z;
  VALUE : Z -> Z;
  RANKNR : Z -> Z;
  PAWN : Z;
  WHITE : Z;
  BLACK : Z;
  RANK_3 : Z;
  RANK_6 : Z;
  BITCOUNT : Z -> Z;
  (* hash.h, moveselect.h, tbprobe.h constants *)
  TT_EXACT : Z;
  TT_BETA : Z;
  TT_ALPHA : Z;
  PHASE_BAD_CAPS : Z;
  TB_LARGEST : Z;
  TB_RESULT_FAILED : Z;
  TB_WIN : Z;
  TB_LOSS : Z;
  (* struct position *)
  sply : position -> Z;
  stm : position -> Z;
  fifty : position -> Z;
  pieces : position -> Z -> Z;
  bb_all : position -> Z;
  (* struct gamestate, through worker->state *)
  probe_wdl : position -> bool;
  completed_depth : position -> Z;
  exit_on_mate : position -> bool;
  pondering : position -> bool;
  sd : position -> Z;
  (* board.h *)
  board_is_repetition : position -> bool;
  board_in_check : position -> Z -> bool;
  board_has_non_pawn : position -> Z -> bool;
  board_make_move : position -> move -> bool * position;
  board_unmake_move : position -> position;
  board_make_null_move : position -> position;
  board_unmake_null_move : position -> position;
  (* eval.h *)
  eval_evaluate : search_worker position -> Z * position;
  (* hash.h: [hash_tt_lookup] is always called with [*move == NOMOVE];
     the result is (return value, final [*move], final [*score]) *)
  hash_tt_lookup : position -> Z -> Z -> Z -> (bool * move * Z) * position;
  hash_tt_store : position -> move -> Z -> Z -> Z -> position;
  (* see.h *)
  see_ge : position -> move -> Z -> bool;
  see_post_ge : position -> move -> Z -> bool;
  (* tbprobe.h: every argument of the call is a field of the position *)
  tb_probe_wdl : position -> Z;
  (* moveselect.h: a [bool] result with a move out-parameter is an option *)
  select_init_node : search_worker position -> bool -> bool -> bool -> position;
  select_set_tt_move : search_worker position -> move -> position;
  select_get_move : search_worker position -> option move * position;
  select_get_quiscence_move : search_worker position -> option move * position;
  select_get_root_move : search_worker position -> option move * position;
  select_get_phase : search_worker position -> Z;
  select_update_root_move_scores : search_worker position -> position;
  (* smp.h: [smp_should_stop] returns (result, [*abort]) *)
  smp_should_stop : search_worker position -> (bool * bool) * position;
  smp_stop_all : search_worker position -> bool -> position;
  smp_update : search_worker position -> Z -> position;
  smp_complete_iteration : search_worker position -> Z * position;
  (* timectl.h *)
  tc_check_time : search_worker position -> bool * position;
  tc_new_iteration : search_worker position -> bool * position;
  (* engine.h *)
  engine_check_input : search_worker position -> bool * position;
  engine_send_move_info : search_worker position -> position;
  engine_wait_for_input : search_worker position -> bool * position
}.

(** ** Tables and small helpers of [search.c] *)

(** A C [for (i=0;i<n;i++)] loop over a state. *)
Fixpoint for_loop {S : Type} (n : nat) (body : Z -> S -> S) (s : S) : S :=
  match n with
  | O => s
  | Datatypes.S k => body (Z.of_nat k) (for_loop k body s)
  end.

(** Writes to one, two and three dimensional arrays. *)
Definition upd1 {A} (f : Z -> A) (i : Z) (v : A) : Z -> A :=
  fun i' => if i' =? i then v else f i'.
Definition upd2 {A} (f : Z -> Z -> A) (i j : Z) (v : A) : Z -> Z -> A :=
  upd1 f i (upd1 (f i) j v).
Definition upd3 {A} (f : Z -> Z -> Z -> A) (i j k : Z) (v : A)
  : Z -> Z -> Z -> A :=
  upd1 f i (upd2 (f i) j k v).

Definition lookup_table (t : list Z) (i : Z) : Z := nth (Z.to_nat i) t 0.

Definition NULLMOVE_DEPTH := 3.
Definition NULLMOVE_BASE_REDUCTION := 2.
Definition NULLMOVE_DIVISOR := 6.
Definition FUTILITY_DEPTH := 3.
Definition futility_margin := [0; 300; 500; 900].
Definition RAZORING_DEPTH := 3.
Definition razoring_margin := [0; 100; 200; 400].
Definition LMP_DEPTH := 6.
Definition lmp_counts := [0; 5; 10; 20; 35; 55].
Definition PROBCUT_DEPTH := 5.
Definition PROBCUT_MARGIN := 210.
Definition SEE_PRUNE_DEPTH := 5.
Definition see_prune_margin := [0; -100; -200; -300; -400].

(** [CHECKUP(n)] looks at the low ten bits only, so the width at which
    the node counter wraps does not matter. *)
Definition CHECKUP (n : Z) : bool := Z.land n 1023 =? 0.

Inductive exception := EXCEPTION_COMMAND | EXCEPTION_STOP | EXCEPTION_TIMEOUT.

(** ** The search monad: worker state, [longjmp], fuel *)

Section Monad.
Variable position : Type.
Local Abbreviation worker := (search_worker position).

Inductive outcome (A : Type) :=
| Ret (a : A) (w : worker)
| Jump (e : exception) (w : worker)
| OutOfFuel.
Arguments Ret {A} a w.
Arguments Jump {A} e w.
Arguments OutOfFuel {A}.

Definition search_M (A : Type) := worker -> outcome A.
Local Abbreviation M := search_M.

Definition ret {A} (a : A) : M A := fun w => Ret a w.
Definition bind {A B} (m : M A) (f : A -> M B) : M B :=
  fun w => match m w with
           | Ret a w' => f a w'
           | Jump e w' => Jump e w'
           | OutOfFuel => OutOfFuel
           end.
Definition longjmp {A} (e : exception) : M A := fun w => Jump e w.
Definition out_of_fuel {A} : M A := fun _ => OutOfFuel.
Definition gets {A} (f : worker -> A) : M A := fun w => Ret (f w) w.
Definition modify (f : worker -> worker) : M unit := fun w => Ret tt (f w).
(** A call into another module that returns a value. *)
Definition call {A} (f : worker -> A * position) : M A :=
  fun w => let (a, p) := f w in Ret a (set_pos w p).
(** A call into another module that returns nothing. *)
Definition call_ (f : worker -> position) : M unit :=
  fun w => Ret tt (set_pos w (f w)).
Definition emit (ev : event) : M unit :=
  modify (fun w => set_trace w (ev :: trace w)).
(** A step that C leaves undefined (a read outside an array).  The model
    gives such a run no result and no final state: it ends in the outcome
    about which no statement says more than that there is none. *)
Definition undefined {A} : M A := fun _ => OutOfFuel.

End Monad.

Arguments Ret {position A} a w.
Arguments Jump {position A} e w.
Arguments OutOfFuel {position A}.
Arguments ret {position A} a w.
Arguments bind {position A B} m f w.
Arguments longjmp {position A} e w.
Arguments out_of_fuel {position A} w.
Arguments gets {position A} f w.
Arguments modify {position} f w.
Arguments call {position A} f w.
Arguments call_ {position} f w.
Arguments emit {position} ev w.
Arguments undefined {position A} w.

Notation "x <- m ;; k" := (bind m (fun x => k))
  (at level 61, m at next level, right associativity).
Notation "m ;;; k" := (bind m (fun _ => k))
  (at level 61, right associativity).
Notation "' pat <- m ;; k" := (bind m (fun x => match x with pat => k end))
  (at level 61, pat pattern, m at next level, right associativity).


Section Search.
Context {position : Type} {X : Externals position}.
Local Abbreviation worker := (search_worker position).
Local Abbreviation M := (search_M position).

(** *** History table *)

(** The rescaling loops of [update_history_table]. *)
Definition halve_history (h : Z -> Z -> Z -> Z) : Z -> Z -> Z -> Z :=
  for_loop (Z.to_nat NSIDES) (fun side h =>
    for_loop (Z.to_nat NSQUARES) (fun from h =>
      for_loop (Z.to_nat NSQUARES) (fun to h =>
        upd3 h side from to (Z.quot (h side from to) 2)) h) h) h.

Definition update_history_table (w : worker) (move : move) (depth : Z)
  : worker :=
  if ISCAPTURE move || ISENPASSANT move then w
  else
    let from := FROM move in
    let to := TO move in
    let side := stm (pos w) in
    let h := history_table w in
    let h1 := upd3 h side from to (h side from to + depth) in
    if h1 side from to >? MAX_HISTORY_SCORE
    then set_history_table w (halve_history h1)
    else set_history_table w h1.

(** *** Killer table *)

Definition add_killer_move (w : worker) (move : move) : worker :=
  let p := pos w in
  if (ISCAPTURE move || ISENPASSANT move) && see_ge p move 0 then w
  else if move =? killer_table w (sply p) 0 then w
  else
    let k := killer_table w in
    let k1 := upd2 k (sply p) 1 (k (sply p) 0) in
    let k2 := upd2 k1 (sply p) 0 move in
    set_killer_table w k2.

Definition is_killer_move (w : worker) (move : move) : bool :=
  let p := pos w in
  (killer_table w (sply p) 0 =? move) || (killer_table w (sply p) 1 =? move).

Definition is_pawn_push (p : position) (move : move) : bool :=
  let from := FROM move in
  let to := TO move in
  let piece := pieces p from in
  let color := COLOR piece in
  if negb (VALUE (pieces p from) =? PAWN) then false
  else if (color =? WHITE) && (RANKNR to >=? RANK_6) then true
  else if (color =? BLACK) && (RANKNR to <=? RANK_3) then true
  else false.

Definition is_tactical_move (move : move) : bool :=
  ISCAPTURE move || ISENPASSANT move || ISPROMOTION move.

(** [probe_wdl_tables]: the result is (return value, final [*score]). *)
Definition probe_wdl_tables (w : worker) : bool * Z :=
  let p := pos w in
  let res := tb_probe_wdl p in
  if res =? TB_RESULT_FAILED then (false, 0)
  else (true,
        if res =? TB_WIN then TABLEBASE_WIN - sply p
        else if res =? TB_LOSS then - TABLEBASE_WIN + sply p
        else 0).

(** *** Principal variation *)

(** [memcpy(&dst[doff], &src[soff], n*sizeof(uint32_t))] on move arrays
    that do not overlap. *)
Definition memcpy_moves (dst : Z -> move) (doff : Z) (src : Z -> move)
  (soff n : Z) : Z -> move :=
  fun i => if (doff <=? i) && (i <? doff + n) then src (i - doff + soff)
           else dst i.

Definition update_pv (w : worker) (move : move) : worker :=
  let s := sply (pos w) in
  let t := pv_table w in
  let t1 := upd1 t s (mk_pv (upd1 (pv_moves (t s)) 0 move) (pv_length (t s))) in
  let t2 := upd1 t1 s
              (mk_pv (memcpy_moves (pv_moves (t1 s)) 1
                        (pv_moves (t1 (s + 1))) 0 (pv_length (t1 (s + 1))))
                     (pv_length (t1 s))) in
  let t3 := upd1 t2 s (mk_pv (pv_moves (t2 s)) (pv_length (t2 (s + 1)) + 1)) in
  set_pv_table w t3.

(** [worker->pv_table[pos->sply].length = 0] *)
Definition reset_pv (w : worker) : worker :=
  let s := sply (pos w) in
  let t := pv_table w in
  set_pv_table w (upd1 t s (mk_pv (pv_moves (t s)) 0)).

(** The calls the ghost log records.  A move is logged when
    [board_make_move] returns true: a move it refuses is not on the board
    and is not unmade. *)
Definition make_move (m : move) : M bool :=
  ok <- call (fun w => board_make_move (pos w) m) ;;
  (if ok : bool then emit (EvMake m) else ret tt) ;;;
  ret ok.
Definition unmake_move : M unit :=
  call_ (fun w => board_unmake_move (pos w)) ;;; emit EvUnmake.
Definition make_null_move : M unit :=
  call_ (fun w => board_make_null_move (pos w)) ;;; emit EvMakeNull.
Definition unmake_null_move : M unit :=
  call_ (fun w => board_unmake_null_move (pos w)) ;;; emit EvUnmakeNull.
Definition evaluate : M Z :=
  emit EvEval ;;; call eval_evaluate.
Definition tt_lookup (depth alpha beta : Z) : M (bool * move * Z) :=
  emit EvTTLookup ;;;
  call (fun w => hash_tt_lookup (pos w) depth alpha beta).
Definition tt_store (m : move) (depth score flag : Z) : M unit :=
  emit EvTTStore ;;;
  call_ (fun w => hash_tt_store (pos w) m depth score flag).
Definition init_node (qnode root in_check : bool) : M unit :=
  emit EvSelect ;;; call_ (fun w => select_init_node w qnode root in_check).
Definition set_tt_move (m : move) : M unit :=
  call_ (fun w => select_set_tt_move w m).

(** [board_is_repetition(pos) || (pos->fifty >= 100)] *)
Definition is_draw (p : position) : bool :=
  board_is_repetition p || (fifty p >=? 100).

(** *** checkup *)

Definition checkup : M unit :=
  '(stop, abort) <- call smp_should_stop ;;
  rrf <- gets (@resolving_root_fail _) ;;
  (if (stop : bool) && ((abort : bool) || negb rrf)
   then longjmp EXCEPTION_STOP else ret tt) ;;;
  n <- gets (@nodes _) ;;
  if negb (CHECKUP n) then ret tt
  else
    ok <- call tc_check_time ;;
    (if negb ok
     then call_ (fun w => smp_stop_all w false) ;;;
          longjmp EXCEPTION_TIMEOUT
     else ret tt) ;;;
    i <- gets (@id _) ;;
    if i =? 0
    then
      inp <- call engine_check_input ;;
      if inp : bool
      then call_ (fun w => smp_stop_all w true) ;;;
           longjmp EXCEPTION_COMMAND
      else ret tt
    else ret tt.

(** [setjmp]: a [longjmp] inside [m] comes back as a value. *)
Definition setjmp {A} (m : M A) : M (exception + A) :=
  fun w => match m w with
           | Ret a w' => Ret (inr a) w'
           | Jump e w' => Ret (inl e) w'
           | OutOfFuel => OutOfFuel
           end.

(** A block that may execute [return v] ([Some v]) or fall through. *)
Definition or_else (stage : M (option Z)) (rest : M Z) : M Z :=
  r <- stage ;;
  match r with
  | Some v => ret v
  | None => rest
  end.

Definition cur_sply : M Z := gets (fun w => sply (pos w)).
Definition cur_in_check : M bool :=
  gets (fun w => board_in_check (pos w) (stm (pos w))).
Definition cur_has_non_pawn : M bool :=
  gets (fun w => board_has_non_pawn (pos w) (stm (pos w))).

(** ** quiescence *)

(** Locals of [quiescence] that live across the move loop. *)
Record qloop_state := mk_qloop {
  q_alpha : Z;
  q_best_score : Z;
  q_found_move : bool
}.

(** [quiescence] up to the move loop: [inl v] is [return v], [inr] carries
    [in_check], [alpha] and [best_score] into the loop. *)
Definition quiescence_prelude (depth alpha beta : Z)
  : M (Z + (bool * Z * Z)) :=
  (if depth <? 0
   then modify (fun w => set_qnodes (set_nodes w (nodes w + 1)) (qnodes w + 1))
   else ret tt) ;;;
  checkup ;;;
  modify (@reset_pv) ;;;
  draw <- gets (fun w => is_draw (pos w)) ;;
  if draw : bool then ret (inl 0)
  else
    static_score <- evaluate ;;
    s <- cur_sply ;;
    if s >=? MAX_PLY then ret (inl static_score)
    else
      in_check <- cur_in_check ;;
      if negb in_check && (static_score >=? beta) then ret (inl static_score)
      else
        let best_score :=
          if in_check : bool then - INFINITE_SCORE else static_score in
        let alpha :=
          if negb in_check && (static_score >? alpha) then static_score
          else alpha in
        init_node true false in_check ;;;
        ' (hit, tt_move, score) <- tt_lookup 0 alpha beta ;;
        if hit : bool then ret (inl score)
        else
          set_tt_move tt_move ;;;
          ret (inr (in_check, alpha, best_score)).

(** The [while] loop of [quiescence]; [rec] is the recursive call. *)
Fixpoint quiescence_loop (rec : Z -> Z -> Z -> M Z) (in_check : bool)
  (depth beta : Z) (lf : nat) (st : qloop_state) : M qloop_state :=
  match lf with
  | O => out_of_fuel
  | S lf' =>
    om <- call select_get_quiscence_move ;;
    match om with
    | None => ret st
    | Some move =>
      phase <- gets select_get_phase ;;
      if negb in_check && ISCAPTURE move && (phase =? PHASE_BAD_CAPS)
      then quiescence_loop rec in_check depth beta lf' st
      else
        ok <- make_move move ;;
        if negb ok then quiescence_loop rec in_check depth beta lf' st
        else
          s <- rec (depth - 1) (- beta) (- q_alpha st) ;;
          unmake_move ;;;
          let score := - s in
          if score >? q_best_score st then
            if score >? q_alpha st then
              if score >=? beta then ret (mk_qloop (q_alpha st) score true)
              else
                modify (fun w => update_pv w move) ;;;
                quiescence_loop rec in_check depth beta lf'
                  (mk_qloop score score true)
            else
              quiescence_loop rec in_check depth beta lf'
                (mk_qloop (q_alpha st) score true)
          else
            quiescence_loop rec in_check depth beta lf'
              (mk_qloop (q_alpha st) (q_best_score st) true)
    end
  end.

(** The final [return] of [quiescence]. *)
Definition quiescence_result (in_check : bool) (st : qloop_state) : M Z :=
  s <- cur_sply ;;
  ret (if in_check && negb (q_found_move st) then - CHECKMATE + s
       else q_best_score st).

Definition quiescence_body (rec : Z -> Z -> Z -> M Z) (lf : nat)
  (depth alpha beta : Z) : M Z :=
  r <- quiescence_prelude depth alpha beta ;;
  match r with
  | inl v => ret v
  | inr (in_check, alpha', best_score) =>
    st <- quiescence_loop rec in_check depth beta lf
            (mk_qloop alpha' best_score false) ;;
    quiescence_result in_check st
  end.

Fixpoint quiescence (lf d : nat) : Z -> Z -> Z -> M Z :=
  match d with
  | O => fun _ _ _ => out_of_fuel
  | S d' => quiescence_body (quiescence lf d') lf
  end.

(** ** search *)

(** [search] from [checkup] to reverse futility pruning: [inl v] is
    [return v], [inr] carries [tt_move] and [static_score] on. *)
Definition search_prelude (depth alpha beta : Z) (in_check pv_node : bool)
  : M (Z + (move * Z)) :=
  checkup ;;;
  modify (fun w => if sply (pos w) >? seldepth w
                   then set_seldepth w (sply (pos w)) else w) ;;;
  modify (@reset_pv) ;;;
  draw <- gets (fun w => is_draw (pos w)) ;;
  if draw : bool then ret (inl 0)
  else
    init_node false false in_check ;;;
    ' (hit, tt_move, score) <- tt_lookup depth alpha beta ;;
    if hit : bool then ret (inl score)
    else
      set_tt_move tt_move ;;;
      probe <- gets (fun w => probe_wdl (pos w) &&
                              (BITCOUNT (bb_all (pos w)) <=? TB_LARGEST)) ;;
      tb <- (if probe : bool
             then emit EvTBProbe ;;; gets probe_wdl_tables
             else ret (false, 0)) ;;
      if fst tb then ret (inl (snd tb))
      else
        static_score <- evaluate ;;
        nonpawn <- cur_has_non_pawn ;;
        if (depth <=? FUTILITY_DEPTH) && negb in_check && negb pv_node &&
           nonpawn &&
           (static_score - lookup_table futility_margin depth >=? beta)
        then ret (inl static_score)
        else ret (inr (tt_move, static_score)).

(** Razoring; [quiesce] is the call of [quiescence]. *)
Definition razoring (quiesce : Z -> Z -> Z -> M Z) (depth alpha beta : Z)
  (in_check pv_node : bool) (tt_move : move) (static_score : Z)
  : M (option Z) :=
  if negb in_check && negb pv_node && (tt_move =? NOMOVE) &&
     (depth <=? RAZORING_DEPTH) &&
     (static_score + lookup_table razoring_margin depth <=? alpha)
  then
    if depth =? 1 then
      v <- quiesce 0 alpha beta ;;
      ret (Some v)
    else
      let threshold := alpha - lookup_table razoring_margin depth in
      score <- quiesce 0 threshold (threshold + 1) ;;
      if score <=? threshold then ret (Some score) else ret None
  else ret None.

(** Null move pruning; [rec] is the recursive call of [search]. *)
Definition null_move_pruning (rec : Z -> Z -> Z -> bool -> M Z)
  (depth beta : Z) (try_null in_check : bool) : M (option Z) :=
  nonpawn <- cur_has_non_pawn ;;
  if try_null && negb in_check && (depth >? NULLMOVE_DEPTH) && nonpawn
  then
    let reduction := NULLMOVE_BASE_REDUCTION + Z.quot depth NULLMOVE_DIVISOR in
    make_null_move ;;;
    s <- rec (depth - reduction - 1) (- beta) (- beta + 1) false ;;
    unmake_null_move ;;;
    let score := - s in
    if score >=? beta
    then ret (Some (if score <? FORCED_MATE then score else beta))
    else ret None
  else ret None.

(** The [while] loop of probcut. *)
Fixpoint probcut_loop (rec : Z -> Z -> Z -> bool -> M Z)
  (depth threshold static_score : Z) (lf : nat) : M (option Z) :=
  match lf with
  | O => out_of_fuel
  | S lf' =>
    om <- call select_get_quiscence_move ;;
    match om with
    | None => ret None
    | Some move =>
      if negb (ISCAPTURE move) && negb (ISENPASSANT move)
      then probcut_loop rec depth threshold static_score lf'
      else
        good <- gets (fun w => see_ge (pos w) move (threshold - static_score)) ;;
        if negb good then probcut_loop rec depth threshold static_score lf'
        else
          ok <- make_move move ;;
          if negb ok then probcut_loop rec depth threshold static_score lf'
          else
            s <- rec (depth - PROBCUT_DEPTH + 1) (- threshold)
                   (- threshold + 1) true ;;
            unmake_move ;;;
            let score := - s in
            if score >=? threshold then ret (Some score)
            else probcut_loop rec depth threshold static_score lf'
    end
  end.

Definition probcut (rec : Z -> Z -> Z -> bool -> M Z) (lf : nat)
  (depth beta : Z) (in_check pv_node : bool) (tt_move : move)
  (static_score : Z) : M (option Z) :=
  nonpawn <- cur_has_non_pawn ;;
  if negb pv_node && negb in_check && (depth >=? PROBCUT_DEPTH) && nonpawn
  then
    init_node true false in_check ;;;
    set_tt_move tt_move ;;;
    probcut_loop rec depth (beta + PROBCUT_MARGIN) static_score lf
  else ret None.

(** Locals of [search] that live across the move loop. *)
Record loop_state := mk_loop {
  s_alpha : Z;
  s_best_score : Z;
  s_best_move : move;
  s_tt_flag : Z;
  s_movenumber : Z;
  s_found_move : bool
}.

(** The recursive calls for one move (principal variation search). *)
Definition search_move (rec : Z -> Z -> Z -> bool -> M Z)
  (new_depth reduction alpha beta best_score : Z) (pv_node : bool) : M Z :=
  if best_score =? - INFINITE_SCORE then
    s <- rec (new_depth - 1) (- beta) (- alpha) true ;;
    ret (- s)
  else
    s <- rec (new_depth - reduction - 1) (- alpha - 1) (- alpha) true ;;
    score <- (if (- s >? alpha) && (reduction >? 0)
              then s' <- rec (new_depth - 1) (- alpha - 1) (- alpha) true ;;
                   ret (- s')
              else ret (- s)) ;;
    if pv_node && (score >? alpha)
    then s'' <- rec (new_depth - 1) (- beta) (- alpha) true ;;
         ret (- s'')
    else ret score.

(** The [while] loop of [search]. *)
Fixpoint search_loop (rec : Z -> Z -> Z -> bool -> M Z) (depth beta : Z)
  (in_check pv_node futility_pruning : bool) (tt_move : move) (lf : nat)
  (st : loop_state) : M loop_state :=
  match lf with
  | O => out_of_fuel
  | S lf' =>
    let continue :=
      search_loop rec depth beta in_check pv_node futility_pruning tt_move
        lf' in
    om <- call select_get_move ;;
    match om with
    | None => ret st
    | Some move =>
      pawn_push <- gets (fun w => is_pawn_push (pos w) move) ;;
      killer <- gets (fun w => is_killer_move w move) ;;
      hist <- gets (fun w => history_table w (stm (pos w)) (FROM move)
                               (TO move)) ;;
      ok <- make_move move ;;
      if negb ok then continue st
      else
        gives_check <- cur_in_check ;;
        let tactical := is_tactical_move move || in_check || gives_check in
        let movenumber := s_movenumber st + 1 in
        let alpha := s_alpha st in
        let st1 := mk_loop alpha (s_best_score st) (s_best_move st)
                     (s_tt_flag st) movenumber true in
        if futility_pruning && (movenumber >? 1) && negb tactical
        then unmake_move ;;; continue st1
        else if negb pv_node && (depth <? LMP_DEPTH) &&
                (movenumber >? lookup_table lmp_counts depth) &&
                (movenumber >? 1) && negb tactical && negb pawn_push &&
                negb killer && (Z.abs alpha <? KNOWN_WIN) && (hist =? 0)
        then unmake_move ;;; continue st1
        else
          post <- gets (fun w => see_post_ge (pos w) move
                                   (lookup_table see_prune_margin depth)) ;;
          if negb pv_node && negb (move =? tt_move) && negb in_check &&
             negb gives_check && (depth <? SEE_PRUNE_DEPTH) && negb post
          then unmake_move ;;; continue st1
          else
            let new_depth := if gives_check : bool then depth + 1 else depth in
            let reduction0 :=
              if (movenumber >? 3) && (depth >? 3) && negb tactical
              then 1 else 0 in
            let reduction :=
              if (reduction0 >? 0) && (movenumber >? 6)
              then reduction0 + 1 else reduction0 in
            score <- search_move rec new_depth reduction alpha beta
                       (s_best_score st) pv_node ;;
            unmake_move ;;;
            if score >? s_best_score st then
              if score >? alpha then
                if score >=? beta then
                  modify (fun w => add_killer_move w move) ;;;
                  ret (mk_loop alpha score move TT_BETA movenumber true)
                else
                  modify (fun w => update_pv w move) ;;;
                  modify (fun w => update_history_table w move depth) ;;;
                  continue (mk_loop score score move TT_EXACT movenumber true)
              else
                continue (mk_loop alpha score move (s_tt_flag st) movenumber
                            true)
            else continue st1
    end
  end.

(** [search] after the move loop: mate or stalemate, the hash store and
    the [return]. *)
Definition search_finish (depth : Z) (in_check : bool) (st : loop_state)
  : M Z :=
  s <- cur_sply ;;
  let tt_flag := if s_found_move st then s_tt_flag st else TT_EXACT in
  let best_score :=
    if s_found_move st then s_best_score st
    else if in_check then - CHECKMATE + s else 0 in
  tt_store (s_best_move st) depth best_score tt_flag ;;;
  ret best_score.

(** The move loop of [search] with its initialisation. *)
Definition search_moves (rec : Z -> Z -> Z -> bool -> M Z) (lf : nat)
  (depth alpha beta : Z) (in_check pv_node : bool) (tt_move : move)
  (static_score : Z) : M loop_state :=
  init_node false false in_check ;;;
  set_tt_move tt_move ;;;
  let futility_pruning :=
    (depth <=? FUTILITY_DEPTH) &&
    (static_score + lookup_table futility_margin depth <=? alpha) in
  search_loop rec depth beta in_check pv_node futility_pruning tt_move lf
    (mk_loop alpha (- INFINITE_SCORE) NOMOVE TT_ALPHA 0 false).

(** [search] from null move pruning on. *)
Definition search_from_null_move (rec : Z -> Z -> Z -> bool -> M Z) (lf : nat)
  (depth alpha beta : Z) (try_null in_check pv_node : bool) (tt_move : move)
  (static_score : Z) : M Z :=
  or_else (null_move_pruning rec depth beta try_null in_check)
    (or_else (probcut rec lf depth beta in_check pv_node tt_move static_score)
       (st <- search_moves rec lf depth alpha beta in_check pv_node tt_move
                static_score ;;
        search_finish depth in_check st)).

Definition search_body (rec : Z -> Z -> Z -> bool -> M Z)
  (quiesce : Z -> Z -> Z -> M Z) (lf : nat) (depth alpha beta : Z)
  (try_null : bool) : M Z :=
  let pv_node := beta - alpha >? 1 in
  modify (fun w => set_nodes w (nodes w + 1)) ;;;
  in_check <- cur_in_check ;;
  if depth <=? 0 then quiesce 0 alpha beta
  else
    r <- search_prelude depth alpha beta in_check pv_node ;;
    match r with
    | inl v => ret v
    | inr (tt_move, static_score) =>
      or_else (razoring quiesce depth alpha beta in_check pv_node tt_move
                 static_score)
        (search_from_null_move rec lf depth alpha beta try_null in_check
           pv_node tt_move static_score)
    end.

Fixpoint search (lf d : nat) : Z -> Z -> Z -> bool -> M Z :=
  match d with
  | O => fun _ _ _ _ => out_of_fuel
  | S d' => search_body (search lf d') (quiescence lf d') lf
  end.

(** ** search_root *)

Record root_state := mk_root {
  r_alpha : Z;
  r_best_score : Z;
  r_best_move : move;
  r_tt_flag : Z
}.

(** The [while] loop of [search_root]; [rec] is the call of [search]. *)
Fixpoint search_root_loop (rec : Z -> Z -> Z -> bool -> M Z) (depth beta : Z)
  (lf : nat) (st : root_state) : M root_state :=
  match lf with
  | O => out_of_fuel
  | S lf' =>
    om <- call select_get_root_move ;;
    match om with
    | None => ret st
    | Some move =>
      modify (fun w => set_currmove
                         (set_currmovenumber w (currmovenumber w + 1)) move) ;;;
      info <- gets (fun w => (id w =? 0) &&
                             (w_depth w >? completed_depth (pos w))) ;;
      (if info : bool then call_ engine_send_move_info else ret tt) ;;;
      make_move move ;;;
      gives_check <- cur_in_check ;;
      let new_depth := if gives_check : bool then depth + 1 else depth in
      s <- rec (new_depth - 1) (- beta) (- r_alpha st) true ;;
      unmake_move ;;;
      let score := - s in
      if score >? r_best_score st then
        if score >? r_alpha st then
          if score >=? beta then
            modify (fun w => add_killer_move w move) ;;;
            ret (mk_root (r_alpha st) score move TT_BETA)
          else
            modify (fun w => update_pv w move) ;;;
            modify (fun w => update_history_table w move depth) ;;;
            modify (fun w =>
              set_ponder_move (set_best_move w move)
                (if pv_length (pv_table w 0) >? 1
                 then pv_moves (pv_table w 0) 1 else NOMOVE)) ;;;
            call_ (fun w => smp_update w score) ;;;
            search_root_loop rec depth beta lf'
              (mk_root score score move TT_EXACT)
        else
          search_root_loop rec depth beta lf'
            (mk_root (r_alpha st) score move (r_tt_flag st))
      else search_root_loop rec depth beta lf' st
    end
  end.

Definition search_root (lf d : nat) (depth alpha beta : Z) : M Z :=
  checkup ;;;
  modify (fun w => set_pv_table w
            (upd1 (pv_table w) 0 (mk_pv (pv_moves (pv_table w 0)) 0))) ;;;
  in_check <- cur_in_check ;;
  init_node false true in_check ;;;
  ' (_, tt_move, _) <- tt_lookup depth alpha beta ;;
  set_tt_move tt_move ;;;
  call_ select_update_root_move_scores ;;;
  modify (fun w => set_currmovenumber w 0) ;;;
  st <- search_root_loop (search lf d) depth beta lf
          (mk_root alpha (- INFINITE_SCORE) tt_move TT_ALPHA) ;;
  tt_store (r_best_move st) depth (r_best_score st) (r_tt_flag st) ;;;
  ret (r_best_score st).

(** ** search_find_best_move *)

Definition aspiration_window := [25; 50; 100; 200; 400; INFINITE_SCORE].

(** [aspiration_window[i]]: the array has six entries and the code does
    not guard the index it increments. *)
Definition aspiration_window_at (i : Z) : option Z :=
  if (0 <=? i) && (i <? 6) then Some (lookup_table aspiration_window i)
  else None.

(** Locals of [search_find_best_move] that live across iterations. *)
Record id_state := mk_id {
  i_alpha : Z;
  i_beta : Z;
  i_awindex : Z;
  i_bwindex : Z;
  i_depth : Z
}.

(** What the code does with the score of a finished root search:
    [Some st] is the state of the next iteration, [None] is [break]. *)
Definition after_root_search (st : id_state) (alpha beta score : Z)
  : M (option id_state) :=
  if score <=? alpha then
    let awindex := i_awindex st + 1 in
    match aspiration_window_at awindex with
    | None => undefined
    | Some window =>
      modify (fun w => set_resolving_root_fail w true) ;;;
      ret (Some (mk_id (score - window) beta awindex (i_bwindex st)
                   (i_depth st)))
    end
  else if score >=? beta then
    let bwindex := i_bwindex st + 1 in
    match aspiration_window_at bwindex with
    | None => undefined
    | Some window =>
      ret (Some (mk_id alpha (score + window) (i_awindex st) bwindex
                   (i_depth st)))
    end
  else
    modify (fun w => set_resolving_root_fail w false) ;;;
    depth <- call smp_complete_iteration ;;
    known <- gets (fun w => exit_on_mate (pos w) && negb (pondering (pos w)) &&
                            ((score >? KNOWN_WIN) || (score <? - KNOWN_WIN))) ;;
    if known : bool then
      call_ (fun w => smp_stop_all w true) ;;;
      ret None
    else
      let awindex := 0 in
      let bwindex := 0 in
      let alpha' := if depth >? 5
                    then score - lookup_table aspiration_window awindex
                    else - INFINITE_SCORE in
      let beta' := if depth >? 5
                   then score + lookup_table aspiration_window bwindex
                   else INFINITE_SCORE in
      more <- call tc_new_iteration ;;
      if negb more then
        call_ (fun w => smp_stop_all w false) ;;;
        ret None
      else
        limit <- gets (fun w => sd (pos w)) ;;
        if depth >? limit then
          call_ (fun w => smp_stop_all w true) ;;;
          ret None
        else ret (Some (mk_id alpha' beta' awindex bwindex depth)).

(** One turn of the iterative deepening loop. *)
Definition iteration (lf d : nat) (st : id_state) : M (option id_state) :=
  let alpha := Z.max (i_alpha st) (- INFINITE_SCORE) in
  let beta := Z.min (i_beta st) INFINITE_SCORE in
  r <- setjmp (modify (fun w => set_seldepth (set_w_depth w (i_depth st)) 0) ;;;
               search_root lf d (i_depth st) alpha beta) ;;
  match r with
  | inl _ => ret None
  | inr score => after_root_search st alpha beta score
  end.

Fixpoint deepening_loop (lf d n : nat) (st : id_state) : M unit :=
  match n with
  | O => out_of_fuel
  | S n' =>
    r <- iteration lf d st ;;
    match r with
    | None => ret tt
    | Some st' => deepening_loop lf d n' st'
    end
  end.

(** The wait for [ponderhit] after the loop. *)
Fixpoint ponder_wait (lf : nat) : M unit :=
  match lf with
  | O => out_of_fuel
  | S lf' =>
    go <- gets (fun w => (id w =? 0) && pondering (pos w)) ;;
    if go : bool then
      inp <- call engine_wait_for_input ;;
      if inp : bool then call_ (fun w => smp_stop_all w true)
      else
        p <- gets (fun w => pondering (pos w)) ;;
        (if negb p then call_ (fun w => smp_stop_all w true) else ret tt) ;;;
        ponder_wait lf'
    else ret tt
  end.

(** The [assert] on entry is compiled out ([-DNDEBUG]) and not modelled. *)
Definition search_find_best_move (lf d n : nat) : M unit :=
  i <- gets (@id _) ;;
  deepening_loop lf d n
    (mk_id (- INFINITE_SCORE) INFINITE_SCORE 0 0 (1 + Z.rem i 2)) ;;;
  ponder_wait lf.

End Search.

(** * Specification vocabulary *)

(** ** Weakest preconditions for the search monad

    [wp F J m Q w]: running [m] from [w] ends in a state that satisfies [Q]
    on return and [J] on [longjmp]; [F] is what running out of fuel
    means ([False] for total correctness, [True] for safety). *)
Section WP.
Context {position : Type}.
Local Abbreviation worker := (search_worker position).
Local Abbreviation M := (search_M position).

Definition wp (F : Prop) (J : exception -> worker -> Prop) {A} (m : M A)
  (Q : A -> worker -> Prop) (w : worker) : Prop :=
  match m w with
  | Ret a w' => Q a w'
  | Jump e w' => J e w'
  | OutOfFuel => F
  end.

End WP.

Section Specification.
Context {position : Type} {X : Externals position}.
Local Abbreviation worker := (search_worker position).
Local Abbreviation M := (search_M position).

(** *** Tables *)

(** The cells of [history_table[NSIDES][NSQUARES][NSQUARES]]. *)
Definition in_history (side from to : Z) : bool :=
  (0 <=? side) && (side <? NSIDES) && (0 <=? from) && (from <? NSQUARES) &&
  (0 <=? to) && (to <? NSQUARES).

(** No cell of the table is above [MAX_HISTORY_SCORE]. *)
Definition history_capped (h : Z -> Z -> Z -> Z) : Prop :=
  forall side from to,
    in_history side from to = true -> h side from to <= MAX_HISTORY_SCORE.

(** Captures in the sense of the guards of [search.c]. *)
Definition is_capture (m : move) : bool := ISCAPTURE m || ISENPASSANT m.

(** Every killer slot holds a non-capture. *)
Definition killers_quiet (k : Z -> Z -> move) : Prop :=
  forall ply i, is_capture (k ply i) = false.

(** *** Stages of a node *)

(** The worker after the node counters of [search] and of [quiescence]. *)
Definition entered (w : worker) : worker := set_nodes w (nodes w + 1).
Definition qentered (depth : Z) (w : worker) : worker :=
  if depth <? 0 then set_qnodes (set_nodes w (nodes w + 1)) (qnodes w + 1)
  else w.

(** [search] gets past the draw test, the hash probe, the tablebase probe
    and reverse futility pruning, with [tt_move] and [static_score], in
    state [w1]. *)
Definition reaches_razoring (depth alpha beta : Z) (w : worker)
  (tt_move : move) (static_score : Z) (w1 : worker) : Prop :=
  search_prelude depth alpha beta
    (board_in_check (pos w) (stm (pos w))) (beta - alpha >? 1) (entered w)
  = Ret (inr (tt_move, static_score)) w1.

(** ... and razoring does not return either. *)
Definition reaches_null_move (lf d : nat) (depth alpha beta : Z) (w : worker)
  (tt_move : move) (static_score : Z) (w2 : worker) : Prop :=
  exists w1,
    reaches_razoring depth alpha beta w tt_move static_score w1 /\
    razoring (quiescence lf d) depth alpha beta
      (board_in_check (pos w) (stm (pos w))) (beta - alpha >? 1)
      tt_move static_score w1 = Ret None w2.

(** ... nor do null move pruning and probcut: the move loop starts in
    state [w4]. *)
Definition reaches_move_loop (lf d : nat) (depth alpha beta : Z)
  (try_null : bool) (w : worker) (tt_move : move) (static_score : Z)
  (w4 : worker) : Prop :=
  exists w2 w3,
    reaches_null_move lf d depth alpha beta w tt_move static_score w2 /\
    null_move_pruning (search lf d) depth beta try_null
      (board_in_check (pos w) (stm (pos w))) w2 = Ret None w3 /\
    probcut (search lf d) lf depth beta
      (board_in_check (pos w) (stm (pos w))) (beta - alpha >? 1)
      tt_move static_score w3 = Ret None w4.

(** The worker when the move loop of [search] starts: [select_init_node]
    and [select_set_tt_move] have been called. *)
Definition loop_entry (in_check : bool) (tt_move : move) (w : worker)
  : worker :=
  let w1 := set_trace w (EvSelect :: trace w) in
  let w2 := set_pos w1 (select_init_node w1 false false in_check) in
  set_pos w2 (select_set_tt_move w2 tt_move).

(** The node has no legal move: from [w] the move selector [select]
    yields at most [n] moves, [board_make_move] refuses every one of them
    in the position the selector leaves, and then the selector has no
    more; [w'] is the worker at that moment. *)
Fixpoint no_legal_move (select : worker -> option move * position) (n : nat)
  (w w' : worker) : Prop :=
  match select w with
  | (None, p) => w' = set_pos w p
  | (Some m, p) =>
    match n with
    | O => False
    | S n' =>
      fst (board_make_move p m) = false /\
      no_legal_move select n'
        (set_pos (set_pos w p) (snd (board_make_move p m))) w'
    end
  end.

(** The worker after [board_make_null_move] and after
    [board_unmake_null_move], with the ghost log of the call. *)
Definition null_move_made (w : worker) : worker :=
  set_trace (set_pos w (board_make_null_move (pos w)))
    (EvMakeNull :: trace w).
Definition null_move_unmade (w : worker) : worker :=
  set_trace (set_pos w (board_unmake_null_move (pos w)))
    (EvUnmakeNull :: trace w).

(** *** The line of play in the ghost log *)

Inductive ply := PlyMove | PlyNull.

Definition line_step (ev : event) (l : list ply) : list ply :=
  match ev with
  | EvMake _ => PlyMove :: l
  | EvMakeNull => PlyNull :: l
  | EvUnmake | EvUnmakeNull => tl l
  | _ => l
  end.

(** The moves made and not yet unmade after a log (newest event first),
    innermost ply first. *)
Fixpoint line_of (log : list event) : list ply :=
  match log with
  | [] => []
  | ev :: older => line_step ev (line_of older)
  end.

(** Two null moves in a row somewhere in a line. *)
Fixpoint double_null (l : list ply) : bool :=
  match l with
  | [] => false
  | PlyMove :: r => double_null r
  | PlyNull :: r =>
    match r with
    | PlyNull :: _ => true
    | _ => double_null r
    end
  end.

Definition top_is_null (l : list ply) : bool :=
  match l with
  | PlyNull :: _ => true
  | _ => false
  end.

(** At no moment of the log did the line hold two null moves in a row. *)
Fixpoint log_ok (log : list event) : Prop :=
  match log with
  | [] => True
  | ev :: older => double_null (line_of (ev :: older)) = false /\ log_ok older
  end.

(** From a sound log whose line is [L], [m] keeps the log sound, also when
    it ends in a [longjmp], and on return with [a] the line is [L' a]. *)
Definition tri {A} (L : list ply) (m : M A) (L' : A -> list ply) : Prop :=
  forall w, log_ok (trace w) -> line_of (trace w) = L ->
    wp True (fun _ w' => log_ok (trace w')) m
      (fun a w' => log_ok (trace w') /\ line_of (trace w') = L' a) w.

(** *** What quiescence needs from the board and the move selector *)

Section Laws.
Variable pending : position -> Z -> nat.
Variable max_moves : nat.

(** [p'] is at the same ply as [p] and the move pickers of the plies up to
    [sply p - k] have as much left as before. *)
Definition frame (k : Z) (p p' : position) : Prop :=
  sply p' = sply p /\
  forall s, s <= sply p - k -> pending p' s = pending p s.

(** Modelled from the spec: the contract of the board ([board.c]) and of
    the move selector ([moveselect.c]), neither of which is in the
    sources.  The position carries a search ply that [board_make_move]
    increments when it succeeds and [board_unmake_move] decrements; the
    move picker is per ply, [pending p s] bounds the moves the picker of
    ply [s] can still yield (every move is yielded at most once), a fresh
    node has at most [max_moves] of them, and evaluation, hash probe, stop
    and clock polls leave plies and pickers alone. *)
Record quiescence_laws : Prop := {
  law_should_stop : forall w r p',
    smp_should_stop w = (r, p') -> frame 0 (pos w) p';
  law_check_time : forall w r p',
    tc_check_time w = (r, p') -> frame 0 (pos w) p';
  law_check_input : forall w r p',
    engine_check_input w = (r, p') -> frame 0 (pos w) p';
  law_evaluate : forall w v p',
    eval_evaluate w = (v, p') -> frame 0 (pos w) p';
  law_tt_lookup : forall p d a b r p',
    hash_tt_lookup p d a b = (r, p') -> frame 0 p p';
  law_set_tt_move : forall w m, frame 0 (pos w) (select_set_tt_move w m);
  law_init_node : forall w q r c,
    frame 1 (pos w) (select_init_node w q r c) /\
    (pending (select_init_node w q r c) (sply (pos w)) <= max_moves)%nat;
  law_get_move : forall w om p',
    select_get_quiscence_move w = (om, p') ->
    frame 1 (pos w) p' /\
    (om <> None ->
     (pending p' (sply (pos w)) < pending (pos w) (sply (pos w)))%nat);
  law_make_move : forall p m ok p',
    board_make_move p m = (ok, p') ->
    if ok : bool
    then sply p' = sply p + 1 /\
         forall s, s <= sply p -> pending p' s = pending p s
    else frame 0 p p';
  law_unmake_move : forall p,
    sply (board_unmake_move p) = sply p - 1 /\
    forall s, s <= sply p - 1 -> pending (board_unmake_move p) s = pending p s
}.

End Laws.

End Specification.

(** ** A small concrete engine

    A finite instance of the interface on which the model runs: the
    position is a ply counter with per-ply move queues, every node at ply
    [s] has the first three moves of [t_moves s], and the knobs of [toy_position] fix
    what the evaluation, the hash table and the stop flags answer. *)

Record toy_position := mk_toy {
  t_sply : Z;
  t_fifty : Z;
  t_rep : bool;
  t_check : Z -> bool;          (* in check at ply s *)
  t_nonpawn : bool;
  t_eval : Z -> Z;              (* static evaluation at ply s *)
  t_tt : Z -> option Z;         (* hash hit with this score at ply s *)
  t_see : bool;
  t_moves : Z -> list move;     (* moves generated at ply s *)
  t_pick : Z -> list move;      (* move-picker queue of ply s *)
  t_stop : bool;
  t_abort : bool;
  t_next : Z -> Z               (* depth after an iteration at this depth *)
}.

Definition toy_with (p : toy_position) (s : Z) (pick : Z -> list move)
  : toy_position :=
  mk_toy s (t_fifty p) (t_rep p) (t_check p) (t_nonpawn p) (t_eval p)
    (t_tt p) (t_see p) (t_moves p) pick (t_stop p) (t_abort p) (t_next p).

(** Moves from 90 on are illegal, moves from 100 on are captures. *)
Definition toy_legal (m : move) : bool := (m <? 90) || (100 <=? m).

Definition toy_next (w : search_worker toy_position)
  : option move * toy_position :=
  let p := pos w in
  match t_pick p (t_sply p) with
  | [] => (None, p)
  | m :: rest => (Some m, toy_with p (t_sply p) (upd1 (t_pick p) (t_sply p) rest))
  end.

#[global] Instance toy : Externals toy_position := {|
  MAX_PLY := 3;
  MAX_HISTORY_SCORE := 10;
  NSIDES := 2;
  NSQUARES := 4;
  INFINITE_SCORE := 30000;
  CHECKMATE := 29000;
  FORCED_MATE := 28997;
  KNOWN_WIN := 20000;
  TABLEBASE_WIN := 25000;
  NOMOVE := 0;
  ISCAPTURE := fun m => 100 <=? m;
  ISENPASSANT := fun _ => false;
  ISPROMOTION := fun _ => false;
  FROM := fun m => Z.land m 3;
  TO := fun m => Z.land (Z.shiftr m 2) 3;
  COLOR := fun pc => Z.land pc 1;
  VALUE := fun pc => Z.shiftr pc 1;
  RANKNR := fun sq => Z.shiftr sq 3;
  PAWN := 0;
  WHITE := 0;
  BLACK := 1;
  RANK_3 := 2;
  RANK_6 := 5;
  BITCOUNT := fun _ => 32;
  TT_EXACT := 0;
  TT_BETA := 1;
  TT_ALPHA := 2;
  PHASE_BAD_CAPS := 5;
  TB_LARGEST := 6;
  TB_RESULT_FAILED := 15;
  TB_WIN := 4;
  TB_LOSS := 0;
  sply := t_sply;
  stm := fun p => Z.land (t_sply p) 1;
  fifty := t_fifty;
  pieces := fun _ _ => 2;
  bb_all := fun _ => 0;
  probe_wdl := fun _ => false;
  completed_depth := fun _ => 0;
  exit_on_mate := fun _ => true;
  pondering := fun _ => false;
  sd := fun _ => 100;
  board_is_repetition := t_rep;
  board_in_check := fun p _ => t_check p (t_sply p);
  board_has_non_pawn := fun p _ => t_nonpawn p;
  board_make_move := fun p m =>
    if toy_legal m then (true, toy_with p (t_sply p + 1) (t_pick p))
    else (false, p);
  board_unmake_move := fun p => toy_with p (t_sply p - 1) (t_pick p);
  board_make_null_move := fun p => toy_with p (t_sply p + 1) (t_pick p);
  board_unmake_null_move := fun p => toy_with p (t_sply p - 1) (t_pick p);
  eval_evaluate := fun w => (t_eval (pos w) (t_sply (pos w)), pos w);
  hash_tt_lookup := fun p _ _ _ =>
    match t_tt p (t_sply p) with
    | Some sc => ((true, 0, sc), p)
    | None => ((false, 0, 0), p)
    end;
  hash_tt_store := fun p _ _ _ _ => p;
  see_ge := fun p _ _ => t_see p;
  see_post_ge := fun _ _ _ => true;
  tb_probe_wdl := fun _ => 15;
  select_init_node := fun w _ _ _ =>
    let p := pos w in
    toy_with p (t_sply p)
      (upd1 (t_pick p) (t_sply p) (firstn 3 (t_moves p (t_sply p))));
  select_set_tt_move := fun w _ => pos w;
  select_get_move := toy_next;
  select_get_quiscence_move := toy_next;
  select_get_root_move := toy_next;
  select_get_phase := fun _ => 0;
  select_update_root_move_scores := fun w => pos w;
  smp_should_stop := fun w => ((t_stop (pos w), t_abort (pos w)), pos w);
  smp_stop_all := fun w _ => pos w;
  smp_update := fun w _ => pos w;
  smp_complete_iteration := fun w => (t_next (pos w) (w_depth w), pos w);
  tc_check_time := fun w => (true, pos w);
  tc_new_iteration := fun w => (true, pos w);
  engine_check_input := fun w => (false, pos w);
  engine_send_move_info := fun w => pos w;
  engine_wait_for_input := fun w => (true, pos w)
|}.

(** A quiet toy position at ply 0: nobody in check, evaluation 0, no hash
    hits, two legal quiet moves per node. *)
Definition toy_start : toy_position :=
  mk_toy 0 0 false (fun _ => false) true (fun _ => 0) (fun _ => None) false
    (fun _ => [1; 2]) (fun _ => []) false false (fun d => d + 1).

Definition toy_worker (p : toy_position) : search_worker toy_position :=
  mk_worker p (fun _ _ _ => 0) (fun _ _ => 0)
    (fun _ => mk_pv (fun _ => 0) 0) 0 0 0 0 0 0 0 0 false 0 [].

(** The side to move is in check at ply 0 and its only move is illegal. *)
Definition toy_mate : toy_position :=
  mk_toy 0 0 false (fun s => s =? 0) true (fun _ => 0) (fun _ => None) false
    (fun _ => [90]) (fun _ => []) false false (fun d => d + 1).

(** The fifty-move counter has reached 100. *)
Definition toy_draw : toy_position :=
  mk_toy 0 100 false (fun _ => false) true (fun _ => 0) (fun _ => None) false
    (fun _ => [1; 2]) (fun _ => []) false false (fun d => d + 1).

(** Every position evaluates to -500 for the side to move. *)
Definition toy_losing : toy_position :=
  mk_toy 0 0 false (fun _ => false) true (fun _ => -500) (fun _ => None)
    false (fun _ => [1; 2]) (fun _ => []) false false (fun d => d + 1).

(** The side to move stands at -500 and has no move to try. *)
Definition toy_lost : toy_position :=
  mk_toy 0 0 false (fun _ => false) true (fun _ => -500) (fun _ => None)
    false (fun _ => []) (fun _ => []) false false (fun d => d + 1).

(** One root move, after which the opponent stands at -50 with no move. *)
Definition toy_fail_high : toy_position :=
  mk_toy 0 0 false (fun _ => false) true
    (fun s => if s =? 1 then -50 else 0) (fun _ => None) false
    (fun s => if s =? 0 then [1] else []) (fun _ => []) false false
    (fun d => d + 1).

(** One root move into a position without moves and without non-pawn
    material that evaluates to +50 for the opponent; the next iteration
    after depth 1 is depth 6. *)
Definition toy_deeper : toy_position :=
  mk_toy 0 0 false (fun _ => false) false
    (fun s => if s =? 1 then 50 else 0) (fun _ => None) false
    (fun s => if s =? 0 then [1] else []) (fun _ => []) false false
    (fun _ => 6).

(** The side to move is not in check and its only move is illegal. *)
Definition toy_stalemate : toy_position :=
  mk_toy 0 0 false (fun _ => false) true (fun _ => 0) (fun _ => None) false
    (fun _ => [90]) (fun _ => []) false false (fun d => d + 1).

(** Ply 1 of a line: the side to move is in check and both its moves are
    illegal. *)
Definition toy_mate_deep : toy_position :=
  mk_toy 1 0 false (fun _ => true) true (fun _ => 0) (fun _ => None) false
    (fun _ => [90; 91]) (fun _ => []) false false (fun d => d + 1).

(** [toy_mate] with a fifty-move counter of 100, and at the maximum ply
    with an evaluation of 17. *)
Definition toy_mate_fifty : toy_position :=
  mk_toy 0 100 false (fun s => s =? 0) true (fun _ => 0) (fun _ => None) false
    (fun _ => [90]) (fun _ => []) false false (fun d => d + 1).
Definition toy_mate_max_ply : toy_position :=
  mk_toy 3 0 false (fun _ => true) true (fun _ => 17) (fun _ => None) false
    (fun _ => [90]) (fun _ => []) false false (fun d => d + 1).

(** What the toy move picker of a ply can still yield. *)
Definition toy_pending (p : toy_position) (s : Z) : nat :=
  Datatypes.length (t_pick p s).

(** The state an outcome ends in, [w0] if it ran out of fuel. *)
Definition final {A} (o : outcome toy_position A)
  (w0 : search_worker toy_position) : search_worker toy_position :=
  match o with
  | Ret _ w | Jump _ w => w
  | OutOfFuel => w0
  end.

(** * Vocabulary of the invariants

    The relations between the worker at the entry and at the exit of a
    node that the search keeps. *)

Section KeptDefs.
Context {position : Type} {X : Externals position}.
Local Abbreviation worker := (search_worker position).
Local Abbreviation M := (search_M position).

(** [m] ends, by return or by [longjmp], in a state that [R] relates to
    the state it started from, and a [longjmp] it ends in satisfies [J]. *)
Definition kept (R : worker -> worker -> Prop)
  (J : exception -> worker -> Prop) {A} (m : M A) : Prop :=
  forall w, wp True (fun e w' => R w w' /\ J e w') m (fun _ w' => R w w') w.

(** What a relation between worker states has to satisfy to hold between
    the entry and the exit of [quiescence]: it is a preorder, the other
    modules (which see the worker only through [pos]) and the ghost log do
    not matter to it, and the writes of [quiescence] respect it.  [J] is
    what is known at each of the three [longjmp]s of [checkup]. *)
Record quiescence_stable (R : worker -> worker -> Prop)
  (J : exception -> worker -> Prop) : Prop := {
  stable_refl : forall w, R w w;
  stable_trans : forall w1 w2 w3, R w1 w2 -> R w2 w3 -> R w1 w3;
  stable_pos : forall w p, R w (set_pos w p);
  stable_trace : forall w t, R w (set_trace w t);
  stable_qnodes : forall w,
    R w (set_qnodes (set_nodes w (nodes w + 1)) (qnodes w + 1));
  stable_reset_pv : forall w, R w (reset_pv w);
  stable_update_pv : forall w m, R w (update_pv w m);
  stable_stop : forall w, J EXCEPTION_STOP w;
  stable_timeout : forall w,
    CHECKUP (nodes w) = true -> J EXCEPTION_TIMEOUT w;
  stable_command : forall w,
    CHECKUP (nodes w) = true -> id w = 0 -> J EXCEPTION_COMMAND w
}.

(** ... of [search]: the writes of [search] respect it as well, the
    history update for the depths in [D]. *)
Record search_stable (R : worker -> worker -> Prop) (D : Z -> Prop)
  : Prop := {
  stable_nodes : forall w, R w (set_nodes w (nodes w + 1));
  stable_seldepth : forall w n, seldepth w < n -> R w (set_seldepth w n);
  stable_killer : forall w m, R w (add_killer_move w m);
  stable_history : forall w m depth,
    0 < depth -> D depth -> R w (update_history_table w m depth);
  stable_down : forall depth depth', D depth -> depth' <= depth -> D depth'
}.

(** ... of [search_root]. *)
Record root_stable (R : worker -> worker -> Prop) : Prop := {
  stable_root_pv : forall w,
    R w (set_pv_table w
           (upd1 (pv_table w) 0 (mk_pv (pv_moves (pv_table w 0)) 0)));
  stable_currmove : forall w n m,
    R w (set_currmove (set_currmovenumber w n) m);
  stable_currmovenumber : forall w n, R w (set_currmovenumber w n);
  stable_best_move : forall w m m',
    R w (set_ponder_move (set_best_move w m) m')
}.

End KeptDefs.

Section InvDefs.
Context {position : Type} {X : Externals position}.
Local Abbreviation worker := (search_worker position).

(** Every cell of the history table is between 0 and the cap. *)
Definition history_bounded (h : Z -> Z -> Z -> Z) : Prop :=
  forall side from to,
    in_history side from to = true ->
    0 <= h side from to <= MAX_HISTORY_SCORE.

(** No stored PV has a negative length. *)
Definition pv_lengths_ok (t : Z -> pv) : Prop :=
  forall ply, 0 <= pv_length (t ply).

(** The fields of the worker that only [search_root] and the iterative
    deepening loop write. *)
Definition same_root_fields (w w' : worker) : Prop :=
  w_depth w' = w_depth w /\
  currmovenumber w' = currmovenumber w /\
  currmove w' = currmove w /\
  best_move w' = best_move w /\
  ponder_move w' = ponder_move w /\
  resolving_root_fail w' = resolving_root_fail w /\
  id w' = id w.

(** ... and the tables and the selective depth, which [search] writes and
    [quiescence] does not. *)
Definition same_search_fields (w w' : worker) : Prop :=
  history_table w' = history_table w /\
  killer_table w' = killer_table w /\
  seldepth w' = seldepth w.

(** The counters of the worker have not gone down, and the nodes counted
    outside [quiescence] have not either. *)
Definition counters_grow (w w' : worker) : Prop :=
  nodes w <= nodes w' /\
  qnodes w <= qnodes w' /\
  nodes w - qnodes w <= nodes w' - qnodes w' /\
  seldepth w <= seldepth w'.

(** What [checkup] knows when it leaves by [longjmp]: the clock and the
    input are looked at on every 1024th node only, the input by worker 0
    only. *)
Definition polled (e : exception) (w : worker) : Prop :=
  match e with
  | EXCEPTION_STOP => True
  | EXCEPTION_TIMEOUT => CHECKUP (nodes w) = true
  | EXCEPTION_COMMAND => CHECKUP (nodes w) = true /\ id w = 0
  end.

(** The hash flag agrees with the place of the best score in the window
    [alpha0, beta]. *)
Definition flag_agrees (alpha0 beta : Z) (st : loop_state) : Prop :=
  (s_tt_flag st = TT_ALPHA /\ s_best_score st <= alpha0 /\
   s_alpha st = alpha0) \/
  (s_tt_flag st = TT_EXACT /\ alpha0 < s_best_score st < beta /\
   s_alpha st = s_best_score st) \/
  (s_tt_flag st = TT_BETA /\ beta <= s_best_score st /\
   s_found_move st = true).

(** ... while the loop is still running. *)
Definition loop_open (alpha0 beta : Z) (st : loop_state) : Prop :=
  (s_tt_flag st = TT_ALPHA /\ s_best_score st <= alpha0 /\
   s_alpha st = alpha0) \/
  (s_tt_flag st = TT_EXACT /\ alpha0 < s_best_score st < beta /\
   s_alpha st = s_best_score st).

End InvDefs.

(** * The XBoard driver of [xboard.c] *)

(** [enum timectl_type] of [timectl.h], the values [xboard.c] uses. *)
Inductive timectl_type :=
| TC_SUDDEN_DEATH | TC_FISCHER | TC_TOURNAMENT | TC_FIXED_TIME | TC_INFINITE.

Definition timectl_type_eqb (a b : timectl_type) : bool :=
  match a, b with
  | TC_SUDDEN_DEATH, TC_SUDDEN_DEATH | TC_FISCHER, TC_FISCHER
  | TC_TOURNAMENT, TC_TOURNAMENT | TC_FIXED_TIME, TC_FIXED_TIME
  | TC_INFINITE, TC_INFINITE => true
  | _, _ => false
  end.

(** The time control variables of the file: [moves_per_time_control],
    [moves_to_time_control], [engine_time_left], [engine_time_increment]
    and [time_control_type]. *)
Record time_control := mk_tc {
  moves_per_time_control : Z;
  moves_to_time_control : Z;
  engine_time_left : Z;
  engine_time_increment : Z;
  time_control_type : timectl_type
}.

(** [update_moves_to_time_control]; [fullmove] is
    [state->worker.pos.fullmove].  The remainder is C's [%], which is
    undefined for a zero divisor. *)
Definition update_moves_to_time_control (fullmove : Z) (tc : time_control)
  : time_control :=
  if negb (timectl_type_eqb (time_control_type tc) TC_TOURNAMENT) then tc
  else
    let moves_in_tc := Z.rem fullmove (moves_per_time_control tc) in
    let set n := mk_tc (moves_per_time_control tc) n (engine_time_left tc)
                   (engine_time_increment tc) (time_control_type tc) in
    if fullmove =? 1 then tc
    else if moves_in_tc =? 1 then set (moves_per_time_control tc)
    else if moves_in_tc =? 0 then set 1
    else set (moves_per_time_control tc - moves_in_tc + 1).

(** [xboard_cmd_level] once the three fields of the command are parsed:
    the clock style and the assignment of the time control variables. *)
Definition level_time_control (movestogo time_left increment : Z)
  : time_control :=
  let tc_type :=
    if negb (movestogo =? 0) then TC_TOURNAMENT
    else if negb (increment =? 0) then TC_FISCHER
    else TC_SUDDEN_DEATH in
  let movestogo' := if negb (movestogo =? 0) then movestogo else 0 in
  mk_tc movestogo' movestogo' time_left increment tc_type.

(** [struct position], the fields [is_three_fold_repetition] reads:
    [history_key i] is [pos->history[i].key]. *)
Record game_position := mk_game {
  g_ply : Z;
  g_fifty : Z;
  g_key : Z;
  g_history_key : Z -> Z
}.

(** The [while] loop of [is_three_fold_repetition] from [idx] and [nreps];
    [None] when the fuel does not reach the end of the loop. *)
Fixpoint repetition_loop (p : game_position) (fuel : nat) (idx nreps : Z)
  : option Z :=
  if (idx >=? 0) && (idx >=? g_ply p - g_fifty p) && (nreps <? 3) then
    match fuel with
    | O => None
    | S fuel' =>
      repetition_loop p fuel' (idx - 2)
        (if g_history_key p idx =? g_key p then nreps + 1 else nreps)
    end
  else Some nreps.

Definition is_three_fold_repetition (fuel : nat) (p : game_position)
  : option bool :=
  match repetition_loop p fuel (g_ply p - 2) 1 with
  | Some nreps => Some (nreps >=? 3)
  | None => None
  end.

(** The plies [ply - 2], [ply - 4], ... that are neither negative nor
    older than the last irreversible move, and how many of them had the
    key of the position. *)
Definition same_side_plies (p : game_position) : list Z :=
  filter (fun i => (0 <=? i) && (g_ply p - g_fifty p <=? i))
    (map (fun k => g_ply p - 2 - 2 * Z.of_nat k)
       (seq 0 (Z.to_nat (g_ply p)))).

Definition earlier_occurrences (p : game_position) : nat :=
  Datatypes.length
    (filter (fun i => g_history_key p i =? g_key p) (same_side_plies p)).

(** ** Commands *)

(** [!strncmp(cmd, kw, n)] on strings without embedded NUL: the first [n]
    characters of both agree, a shorter string being taken whole. *)
Definition strncmp_eq (cmd kw : string) (n : nat) : bool :=
  String.eqb (substring 0 n cmd) (substring 0 n kw).

(** The functions [xboard_cmd_*] that [xboard_handle_command] and
    [xboard_check_input] call. *)
Inductive handler :=
| cmd_analyze | cmd_bk | cmd_easy | cmd_exit | cmd_egtpath | cmd_force
| cmd_go | cmd_hard | cmd_hint | cmd_level | cmd_memory | cmd_new
| cmd_nopost | cmd_ping | cmd_playother | cmd_post | cmd_protover
| cmd_remove | cmd_sd | cmd_setboard | cmd_st | cmd_time | cmd_undo
| cmd_usermove | cmd_xboard.

(** What a call of [xboard_handle_command] does: the value it returns, the
    value it leaves in [*stop], and the handler it runs, if any. *)
Record handled := mk_handled {
  h_result : bool;
  h_stop : bool;
  h_handler : option handler
}.

Definition xb_run (h : handler) : handled := mk_handled true false (Some h).
Definition xb_ignore : handled := mk_handled true false None.

(** The chain of prefix tests of [xboard_handle_command].  In the last
    branch the only effect is an error line on the output. *)
Definition xboard_handle_command (cmd : string) : handled :=
  if strncmp_eq cmd "?" 1 then xb_ignore
  else if strncmp_eq cmd "accepted" 8 then xb_ignore
  else if strncmp_eq cmd "analyze" 7 then xb_run cmd_analyze
  else if strncmp_eq cmd "bk" 2 then xb_run cmd_bk
  else if strncmp_eq cmd "computer" 8 then xb_ignore
  else if strncmp_eq cmd "easy" 4 then xb_run cmd_easy
  else if strncmp_eq cmd "exit" 4 then xb_run cmd_exit
  else if strncmp_eq cmd "egtpath" 7 then xb_run cmd_egtpath
  else if strncmp_eq cmd "force" 5 then xb_run cmd_force
  else if strncmp_eq cmd "go" 2 then xb_run cmd_go
  else if strncmp_eq cmd "hard" 4 then xb_run cmd_hard
  else if strncmp_eq cmd "hint" 4 then xb_run cmd_hint
  else if strncmp_eq cmd "level" 5 then xb_run cmd_level
  else if strncmp_eq cmd "memory" 6 then xb_run cmd_memory
  else if strncmp_eq cmd "new" 3 then xb_run cmd_new
  else if strncmp_eq cmd "nopost" 6 then xb_run cmd_nopost
  else if strncmp_eq cmd "otim" 4 then xb_ignore
  else if strncmp_eq cmd "ping" 4 then xb_run cmd_ping
  else if strncmp_eq cmd "playother" 9 then xb_run cmd_playother
  else if strncmp_eq cmd "post" 4 then xb_run cmd_post
  else if strncmp_eq cmd "protover" 8 then xb_run cmd_protover
  else if strncmp_eq cmd "quit" 4 then mk_handled true true None
  else if strncmp_eq cmd "random" 6 then xb_ignore
  else if strncmp_eq cmd "rejected" 8 then xb_ignore
  else if strncmp_eq cmd "remove" 6 then xb_run cmd_remove
  else if strncmp_eq cmd "result" 5 then xb_ignore
  else if strncmp_eq cmd "sd" 2 then xb_run cmd_sd
  else if strncmp_eq cmd "setboard" 8 then xb_run cmd_setboard
  else if strncmp_eq cmd "st" 2 then xb_run cmd_st
  else if strncmp_eq cmd "time" 4 then xb_run cmd_time
  else if strncmp_eq cmd "undo" 4 then xb_run cmd_undo
  else if strncmp_eq cmd "usermove" 8 then xb_run cmd_usermove
  else if strncmp_eq cmd "xboard" 5 then xb_run cmd_xboard
  else mk_handled false false None.

(** The keywords of the protocol with what each is to do, in the order of
    the tests. *)
Definition xboard_keywords : list (string * handled) :=
  [ ("?", xb_ignore); ("accepted", xb_ignore); ("analyze", xb_run cmd_analyze);
    ("bk", xb_run cmd_bk); ("computer", xb_ignore); ("easy", xb_run cmd_easy);
    ("exit", xb_run cmd_exit); ("egtpath", xb_run cmd_egtpath);
    ("force", xb_run cmd_force); ("go", xb_run cmd_go); ("hard", xb_run cmd_hard);
    ("hint", xb_run cmd_hint); ("level", xb_run cmd_level);
    ("memory", xb_run cmd_memory); ("new", xb_run cmd_new);
    ("nopost", xb_run cmd_nopost); ("otim", xb_ignore); ("ping", xb_run cmd_ping);
    ("playother", xb_run cmd_playother); ("post", xb_run cmd_post);
    ("protover", xb_run cmd_protover); ("quit", mk_handled true true None);
    ("random", xb_ignore); ("rejected", xb_ignore); ("remove", xb_run cmd_remove);
    ("result", xb_ignore); ("sd", xb_run cmd_sd); ("setboard", xb_run cmd_setboard);
    ("st", xb_run cmd_st); ("time", xb_run cmd_time); ("undo", xb_run cmd_undo);
    ("usermove", xb_run cmd_usermove); ("xboard", xb_run cmd_xboard) ]%string.

(** [strchr(cmd, ' ') + 1]: the text after the first space. *)
Fixpoint after_space (cmd : string) : option string :=
  match cmd with
  | EmptyString => None
  | String c rest => if Ascii.eqb c " " then Some rest else after_space rest
  end.

(** What a call of [xboard_check_input] on the command [cmd] does: the
    value it returns, [*ponderhit], the command it leaves with
    [engine_set_pending_command], [state->pondering] afterwards, whether
    [pondering_on] is reset to [NOMOVE], the handler it runs, and whether
    it calls [tc_update_time]. *)
Record checked := mk_checked {
  c_result : bool;
  c_ponderhit : bool;
  c_pending : option string;
  c_pondering : bool;
  c_reset_pondering_on : bool;
  c_handler : option handler;
  c_update_time : bool
}.

(** [xboard_check_input] after a command has been read; [pondering] is
    [state->pondering] and [movestr] the text of [pondering_on].  Lines
    that only write to the output ([.], [hint]) have no effect here. *)
Definition xboard_check_input (cmd : string) (pondering : bool)
  (movestr : string) : checked :=
  let quiet h := mk_checked false false None pondering false h false in
  let stop := mk_checked true false None pondering false None false in
  let defer := mk_checked true false (Some cmd) pondering false None false in
  if strncmp_eq cmd "." 1 then quiet None
  else if strncmp_eq cmd "?" 1 || strncmp_eq cmd "exit" 4 then stop
  else if strncmp_eq cmd "hint" 4 then quiet None
  else if strncmp_eq cmd "easy" 4 then quiet (Some cmd_easy)
  else if strncmp_eq cmd "hard" 4 then quiet (Some cmd_hard)
  else if strncmp_eq cmd "nopost" 6 then quiet (Some cmd_nopost)
  else if strncmp_eq cmd "otim" 4 then quiet None
  else if strncmp_eq cmd "ping" 4 then quiet (Some cmd_ping)
  else if strncmp_eq cmd "post" 4 then quiet (Some cmd_post)
  else if strncmp_eq cmd "time" 4
  then mk_checked false false None pondering false (Some cmd_time) pondering
  else if strncmp_eq cmd "usermove" 8 then
    if negb pondering then defer
    else
      match after_space cmd with
      | None => quiet None
      | Some iter =>
        if String.eqb movestr iter
        then mk_checked false true None pondering true None false
        else mk_checked true false (Some cmd) false false None false
      end
  else if strncmp_eq cmd "bk" 2 || strncmp_eq cmd "force" 5 ||
          strncmp_eq cmd "new" 3 || strncmp_eq cmd "quit" 4 ||
          strncmp_eq cmd "setboard" 8 || strncmp_eq cmd "undo" 4
  then defer
  else quiet None.

(** * The tuner of [tuner.c] *)

(** [struct worker] of the tuner, the range of positions it is given. *)
Record tuner_worker := mk_tuner_worker {
  first_pos : Z;
  last_pos : Z
}.

(** [init_workers]: the loop over [workers] with [nextpos]; [size] is
    [trainingset->size].  Threads and events are created besides. *)
Definition init_workers (size nworkerthreads : Z) (workers : Z -> tuner_worker)
  : Z -> tuner_worker :=
  let pos_per_thread := Z.quot size nworkerthreads in
  fst (for_loop (Z.to_nat nworkerthreads)
         (fun iter (st : (Z -> tuner_worker) * Z) =>
            let (ws, nextpos) := st in
            let first := nextpos in
            let last := first + pos_per_thread - 1 in
            (upd1 ws iter (mk_tuner_worker first last), last + 1))
         (workers, 0)).

(** The same position with a stop request that is an abort. *)
Definition toy_with_stop (p : toy_position) : toy_position :=
  mk_toy (t_sply p) (t_fifty p) (t_rep p) (t_check p) (t_nonpawn p) (t_eval p)
    (t_tt p) (t_see p) (t_moves p) (t_pick p) true true (t_next p).

(** A tournament clock of 40 moves in 5 minutes. *)
Definition toy_clock : time_control := mk_tc 40 40 300000 0 TC_TOURNAMENT.

(** A game at ply 8 whose position had the same key at plies 6 and 4,
    with the last irreversible move at ply 2. *)
Definition toy_game : game_position :=
  mk_game 8 6 7 (fun i => if (i =? 6) || (i =? 4) then 7 else i).

(** * Properties *)

Ltac bool_cases :=
  repeat match goal with
  | |- context [?a =? ?b] => destruct (Z.eqb_spec a b); subst
  | |- context [?a <=? ?b] => destruct (Z.leb_spec a b)
  | |- context [?a <? ?b] => destruct (Z.ltb_spec a b)
  | |- context [?a >? ?b] => rewrite (Z.gtb_ltb a b)
  | |- context [?a >=? ?b] => rewrite (Z.geb_leb a b)
  end; cbn [andb orb negb]; try reflexivity; try lia.

Lemma upd1_get {A} (f : Z -> A) (i : Z) (v : A) (i' : Z) :
  upd1 f i v i' = if i' =? i then v else f i'.
Proof. reflexivity. Qed.

Lemma upd2_get {A} (f : Z -> Z -> A) (i j : Z) (v : A) (i' j' : Z) :
  upd2 f i j v i' j' = if (i' =? i) && (j' =? j) then v else f i' j'.
Proof. unfold upd2, upd1. bool_cases. Qed.

Lemma upd3_get {A} (f : Z -> Z -> Z -> A) (i j k : Z) (v : A) (i' j' k' : Z) :
  upd3 f i j k v i' j' k'
  = if (i' =? i) && (j' =? j) && (k' =? k) then v else f i' j' k'.
Proof. unfold upd3, upd2, upd1. bool_cases. Qed.

Section Tables.
Context {position : Type} {X : Externals position}.
Local Abbreviation worker := (search_worker position).

Lemma halve_inner (h : Z -> Z -> Z -> Z) (side from : Z) (n : nat) :
  forall s f t,
    for_loop n (fun to h => upd3 h side from to (Z.quot (h side from to) 2)) h
      s f t
    = if (s =? side) && (f =? from) && (0 <=? t) && (t <? Z.of_nat n)
      then Z.quot (h s f t) 2 else h s f t.
Proof.
  induction n as [|k IH]; intros s f t.
  - cbn [for_loop]. bool_cases.
  - cbn [for_loop]. rewrite upd3_get, !IH.
    rewrite Nat2Z.inj_succ. bool_cases.
Qed.

Lemma halve_middle (h : Z -> Z -> Z -> Z) (side : Z) (m n : nat) :
  forall s f t,
    for_loop n (fun from h =>
      for_loop m (fun to h =>
        upd3 h side from to (Z.quot (h side from to) 2)) h) h s f t
    = if (s =? side) && (0 <=? f) && (f <? Z.of_nat n) &&
         (0 <=? t) && (t <? Z.of_nat m)
      then Z.quot (h s f t) 2 else h s f t.
Proof.
  induction n as [|k IH]; intros s f t.
  - cbn [for_loop]. bool_cases.
  - cbn [for_loop]. rewrite halve_inner, !IH.
    rewrite Nat2Z.inj_succ. bool_cases.
Qed.

Lemma halve_outer (h : Z -> Z -> Z -> Z) (l m n : nat) :
  forall s f t,
    for_loop n (fun side h =>
      for_loop l (fun from h =>
        for_loop m (fun to h =>
          upd3 h side from to (Z.quot (h side from to) 2)) h) h) h s f t
    = if (0 <=? s) && (s <? Z.of_nat n) && (0 <=? f) && (f <? Z.of_nat l) &&
         (0 <=? t) && (t <? Z.of_nat m)
      then Z.quot (h s f t) 2 else h s f t.
Proof.
  induction n as [|k IH]; intros s f t.
  - cbn [for_loop]. bool_cases.
  - cbn [for_loop]. rewrite halve_middle, !IH.
    rewrite Nat2Z.inj_succ. bool_cases.
Qed.

(** The three loops halve exactly the cells of the table. *)
Lemma halve_history_spec (h : Z -> Z -> Z -> Z) (s f t : Z) :
  halve_history h s f t
  = if in_history s f t then Z.quot (h s f t) 2 else h s f t.
Proof.
  unfold halve_history, in_history. rewrite halve_outer.
  destruct (Z.leb_spec 0 s), (Z.leb_spec 0 f), (Z.leb_spec 0 t);
    cbn [andb]; rewrite ?andb_false_r; try reflexivity;
    bool_cases.
Qed.


(** C6. [update_history_table] on a move that is neither a capture nor an
    en-passant capture adds [depth] to the cell of (side to move, from
    square, to square); when that cell is then above [MAX_HISTORY_SCORE]
    every cell of the table is halved (C division), otherwise nothing else
    changes; a capture leaves the table alone.  Hence a table with no cell
    above the cap still has none after an update by a depth that is not
    itself above the cap. *)
Theorem update_history_table_capped (w : worker) (m : move) (depth : Z) :
  let side := stm (pos w) in
  let bumped :=
    upd3 (history_table w) side (FROM m) (TO m)
      (history_table w side (FROM m) (TO m) + depth) in
  let h' := history_table (update_history_table w m depth) in
  (ISCAPTURE m || ISENPASSANT m = false ->
   (bumped side (FROM m) (TO m) = history_table w side (FROM m) (TO m) + depth)
   /\ (bumped side (FROM m) (TO m) <= MAX_HISTORY_SCORE -> h' = bumped)
   /\ (bumped side (FROM m) (TO m) > MAX_HISTORY_SCORE ->
       forall s f t, in_history s f t = true ->
                     h' s f t = Z.quot (bumped s f t) 2))
  /\ (ISCAPTURE m || ISENPASSANT m = true -> h' = history_table w)
  /\ (0 <= MAX_HISTORY_SCORE -> depth <= MAX_HISTORY_SCORE ->
      history_capped (history_table w) -> history_capped h').
Proof.
  cbn zeta. unfold update_history_table.
  destruct (ISCAPTURE m || ISENPASSANT m) eqn:Hcap.
  - split; [discriminate|]. split; [reflexivity|]. auto.
  - split.
    + intros _. split.
      * rewrite upd3_get, !Z.eqb_refl. reflexivity.
      * split; intros Hc.
        -- rewrite Z.gtb_ltb. destruct (Z.ltb_spec MAX_HISTORY_SCORE
             (upd3 (history_table w) (stm (pos w)) (FROM m) (TO m)
                (history_table w (stm (pos w)) (FROM m) (TO m) + depth)
                (stm (pos w)) (FROM m) (TO m))); [lia|reflexivity].
        -- rewrite Z.gtb_ltb. destruct (Z.ltb_spec MAX_HISTORY_SCORE
             (upd3 (history_table w) (stm (pos w)) (FROM m) (TO m)
                (history_table w (stm (pos w)) (FROM m) (TO m) + depth)
                (stm (pos w)) (FROM m) (TO m))); [|lia].
           intros s f t Hin. cbn. rewrite halve_history_spec, Hin.
           reflexivity.
    + split; [discriminate|]. intros Hmax Hd Hinv s f t Hin.
      pose proof (Hinv s f t Hin) as Hold.
      assert (Hb : upd3 (history_table w) (stm (pos w)) (FROM m) (TO m)
                     (history_table w (stm (pos w)) (FROM m) (TO m) + depth)
                     s f t <= 2 * MAX_HISTORY_SCORE).
      { rewrite upd3_get.
        destruct ((s =? stm (pos w)) && (f =? FROM m) && (t =? TO m)) eqn:E.
        - apply andb_prop in E as [E E3]. apply andb_prop in E as [E1 E2].
          apply Z.eqb_eq in E1, E2, E3. subst. lia.
        - lia. }
      rewrite Z.gtb_ltb.
      destruct (Z.ltb_spec MAX_HISTORY_SCORE
             (upd3 (history_table w) (stm (pos w)) (FROM m) (TO m)
                (history_table w (stm (pos w)) (FROM m) (TO m) + depth)
                (stm (pos w)) (FROM m) (TO m))) as [Hgt|Hle].
      * cbn. rewrite halve_history_spec, Hin.
        apply Z.quot_le_upper_bound; lia.
      * cbn. rewrite upd3_get in *.
        destruct ((s =? stm (pos w)) && (f =? FROM m) && (t =? TO m)) eqn:E.
        -- apply andb_prop in E as [E E3]. apply andb_prop in E as [E1 E2].
           apply Z.eqb_eq in E1, E2, E3. subst.
           rewrite !Z.eqb_refl in Hle. cbn in Hle. lia.
        -- lia.
Qed.

(** C7 (as the code has it). [add_killer_move] rejects a capture or
    en-passant capture only when [see_ge(pos, move, 0)] holds, and it
    ignores a move equal to the index-0 killer of the ply; both leave the
    worker unchanged.  Every other move, a capture that fails the exchange
    test included, goes to index 0 of the current ply, the former index-0
    killer moves to index 1, and no other slot changes.  Inserting
    non-captures keeps a table of non-captures one. *)
Theorem add_killer_move_spec (w : worker) (m : move) :
  let s := sply (pos w) in
  let k := killer_table w in
  let w' := add_killer_move w m in
  (is_capture m && see_ge (pos w) m 0 = true -> w' = w)
  /\ (m = k s 0 -> w' = w)
  /\ (is_capture m && see_ge (pos w) m 0 = false -> m <> k s 0 ->
      killer_table w' s 0 = m
      /\ killer_table w' s 1 = k s 0
      /\ (forall ply i, ply <> s \/ (i <> 0 /\ i <> 1) ->
                        killer_table w' ply i = k ply i))
  /\ (is_capture m = false -> killers_quiet k -> killers_quiet (killer_table w')).
Proof.
  cbn zeta. unfold add_killer_move, is_capture.
  destruct ((ISCAPTURE m || ISENPASSANT m) && see_ge (pos w) m 0) eqn:Hrej.
  - repeat split; try reflexivity; try discriminate; auto.
  - destruct (Z.eqb_spec m (killer_table w (sply (pos w)) 0)) as [E|NE].
    + repeat split; try reflexivity; try discriminate; auto; contradiction.
    + split; [discriminate|]. split; [contradiction|]. split.
      * intros _ _. cbn. repeat split.
        -- rewrite upd2_get, !Z.eqb_refl. reflexivity.
        -- rewrite !upd2_get, !Z.eqb_refl. reflexivity.
        -- intros ply i Hi. rewrite !upd2_get. bool_cases.
      * intros Hq Hk ply i. cbn. rewrite !upd2_get.
        destruct ((ply =? sply (pos w)) && (i =? 0)); [exact Hq|].
        destruct ((ply =? sply (pos w)) && (i =? 1)); apply Hk.
Qed.

(** C10. [update_pv] at search ply [s], when the length stored at ply [s+1]
    is not negative: the PV of ply [s] becomes the move followed by the PV
    of ply [s+1], its length is that length plus one, and the PV of every
    other ply is untouched. *)
Theorem update_pv_spec (w : worker) (m : move) :
  let s := sply (pos w) in
  let w' := update_pv w m in
  0 <= pv_length (pv_table w (s + 1)) ->
  pv_line (pv_table w' s) = m :: pv_line (pv_table w (s + 1))
  /\ pv_length (pv_table w' s) = pv_length (pv_table w (s + 1)) + 1
  /\ (forall ply, ply <> s -> pv_table w' ply = pv_table w ply).
Proof.
  cbn zeta. intros Hlen. unfold update_pv. cbn [pv_table set_pv_table].
  set (s := sply (pos w)) in *. set (t := pv_table w) in *.
  assert (Hs : (s + 1 =? s) = false) by (apply Z.eqb_neq; lia).
  rewrite !upd1_get, Z.eqb_refl, !Hs. cbn [pv_moves pv_length].
  repeat split.
  - unfold pv_line. cbn [pv_length pv_moves].
    replace (Z.to_nat (pv_length (t (s + 1)) + 1))
      with (S (Z.to_nat (pv_length (t (s + 1))))) by lia.
    cbn [seq map]. f_equal.
    rewrite <- seq_shift, map_map. apply map_ext_in.
    intros i Hi. apply in_seq in Hi.
    unfold memcpy_moves.
    replace (1 <=? Z.of_nat (S i)) with true by (symmetry; apply Z.leb_le; lia).
    replace (Z.of_nat (S i) <? 1 + pv_length (t (s + 1))) with true
      by (symmetry; apply Z.ltb_lt; lia).
    cbn [andb]. f_equal. lia.
  - intros ply Hp. rewrite !upd1_get.
    destruct (Z.eqb_spec ply s); [contradiction|reflexivity].
Qed.

End Tables.

(** ** Equations of the monad *)

Section MonadFacts.
Context {position : Type}.
Local Abbreviation worker := (search_worker position).
Local Abbreviation M := (search_M position).

Lemma bind_Ret {A B} {m : M A} {w a w'} (H : m w = Ret a w') (f : A -> M B) :
  bind m f w = f a w'.
Proof. unfold bind. rewrite H. reflexivity. Qed.

Lemma bind_Jump {A B} {m : M A} {w e w'} (H : m w = Jump e w')
  (f : A -> M B) : bind m f w = Jump e w'.
Proof. unfold bind. rewrite H. reflexivity. Qed.

Lemma bind_modify {B} (g : worker -> worker) (f : unit -> M B) w :
  bind (modify g) f w = f tt (g w).
Proof. reflexivity. Qed.

Lemma bind_gets {A B} (g : worker -> A) (f : A -> M B) w :
  bind (gets g) f w = f (g w) w.
Proof. reflexivity. Qed.

Lemma bind_ret {A B} (a : A) (f : A -> M B) w : bind (ret a) f w = f a w.
Proof. reflexivity. Qed.

Lemma bind_assoc {A B C} (m : M A) (f : A -> M B) (g : B -> M C) w :
  bind (bind m f) g w = bind m (fun a => bind (f a) g) w.
Proof. unfold bind. destruct (m w); reflexivity. Qed.

Lemma bind_ret_r {A} (m : M A) w : bind m (fun a => ret a) w = m w.
Proof. unfold bind. destruct (m w); reflexivity. Qed.

Variable F : Prop.
Variable J : exception -> worker -> Prop.

Lemma wp_bind {A B} (m : M A) (f : A -> M B) Q w :
  wp F J m (fun a w' => wp F J (f a) Q w') w -> wp F J (bind m f) Q w.
Proof. unfold wp, bind. destruct (m w); auto. Qed.

Lemma wp_mono {A} (m : M A) (Q Q' : A -> worker -> Prop) w :
  wp F J m Q w -> (forall a w', Q a w' -> Q' a w') -> wp F J m Q' w.
Proof. unfold wp. destruct (m w); auto. Qed.

Lemma wp_ret {A} (a : A) (Q : A -> worker -> Prop) w :
  Q a w -> wp F J (ret a) Q w.
Proof. exact (fun H => H). Qed.

Lemma wp_gets {A} (f : worker -> A) (Q : A -> worker -> Prop) w :
  Q (f w) w -> wp F J (gets f) Q w.
Proof. exact (fun H => H). Qed.

Lemma wp_modify (f : worker -> worker) (Q : unit -> worker -> Prop) w :
  Q tt (f w) -> wp F J (modify f) Q w.
Proof. exact (fun H => H). Qed.

Lemma wp_emit ev (Q : unit -> worker -> Prop) w :
  Q tt (set_trace w (ev :: trace w)) -> wp F J (emit ev) Q w.
Proof. exact (fun H => H). Qed.

Lemma wp_call {A} (f : worker -> A * position) (Q : A -> worker -> Prop) w :
  (forall a p, f w = (a, p) -> Q a (set_pos w p)) -> wp F J (call f) Q w.
Proof. unfold wp, call. destruct (f w); auto. Qed.

Lemma wp_call_ (f : worker -> position) (Q : unit -> worker -> Prop) w :
  Q tt (set_pos w (f w)) -> wp F J (call_ f) Q w.
Proof. exact (fun H => H). Qed.

Lemma wp_longjmp {A} e (Q : A -> worker -> Prop) w :
  J e w -> wp F J (longjmp e) Q w.
Proof. exact (fun H => H). Qed.

Lemma wp_out_of_fuel {A} (Q : A -> worker -> Prop) w :
  F -> wp F J out_of_fuel Q w.
Proof. exact (fun H => H). Qed.

Lemma wp_undefined {A} (Q : A -> worker -> Prop) w :
  F -> wp F J undefined Q w.
Proof. exact (fun H => H). Qed.

(** Whatever [m] does. *)
Lemma wp_any {A} (m : M A) (w : worker) :
  wp True (fun _ _ => True) m (fun _ _ => True) w.
Proof. unfold wp. destruct (m w); exact I. Qed.

End MonadFacts.

(** One step of symbolic execution of a [wp] goal. *)
Ltac wp_step :=
  lazymatch goal with
  | |- wp _ _ (bind _ _) _ _ => apply wp_bind
  | |- wp _ _ (ret _) _ _ => apply wp_ret
  | |- wp _ _ (gets _) _ _ => apply wp_gets
  | |- wp _ _ (modify _) _ _ => apply wp_modify
  | |- wp _ _ (emit _) _ _ => apply wp_emit
  | |- wp _ _ (call _) _ _ => apply wp_call; intros ? ? ?
  | |- wp _ _ (call_ _) _ _ => apply wp_call_
  | |- wp _ _ (longjmp _) _ _ => apply wp_longjmp
  | |- wp _ _ out_of_fuel _ _ => apply wp_out_of_fuel
  | |- wp _ _ undefined _ _ => apply wp_undefined
  | |- wp _ _ (if ?b then _ else _) _ _ => destruct b eqn:?
  | |- wp _ _ (match ?x with (_, _) => _ end) _ _ => destruct x
  | |- wp _ _ (match ?x with Some _ => _ | None => _ end) _ _ =>
      destruct x eqn:?
  | |- wp _ _ (match ?x with inl _ => _ | inr _ => _ end) _ _ =>
      destruct x eqn:?
  end; cbn beta zeta.

(** ** Nodes of the search *)

Section Nodes.
Context {position : Type} {X : Externals position}.
Local Abbreviation worker := (search_worker position).
Local Abbreviation M := (search_M position).

Lemma search_unfold lf d depth alpha beta try_null :
  search lf (S d) depth alpha beta try_null =
  search_body (search lf d) (quiescence lf d) lf depth alpha beta try_null.
Proof. reflexivity. Qed.

Lemma quiescence_unfold lf d depth alpha beta :
  quiescence lf (S d) depth alpha beta =
  quiescence_body (quiescence lf d) lf depth alpha beta.
Proof. reflexivity. Qed.

(** [checkup] touches nothing of the worker but what other modules own,
    and it never runs out of fuel. *)
Lemma checkup_fields (w : worker) :
  wp False (fun _ w' => w' = set_pos w (pos w')) checkup
     (fun _ w' => w' = set_pos w (pos w')) w.
Proof. unfold checkup. repeat wp_step; reflexivity. Qed.

Lemma checkup_trace {w w1 : worker} (H : checkup w = Ret tt w1) :
  trace w1 = trace w.
Proof.
  pose proof (checkup_fields w) as Hf. unfold wp in Hf.
  rewrite H in Hf. rewrite Hf. reflexivity.
Qed.

(** [search] with [depth >= 1] up to the stage after the prelude. *)
Lemma search_after_prelude lf d depth alpha beta try_null (w : worker) :
  1 <= depth ->
  search lf (S d) depth alpha beta try_null w =
  bind (search_prelude depth alpha beta
          (board_in_check (pos w) (stm (pos w))) (beta - alpha >? 1))
    (fun r => match r with
              | inl v => ret v
              | inr (tt_move, static_score) =>
                or_else (razoring (quiescence lf d) depth alpha beta
                           (board_in_check (pos w) (stm (pos w)))
                           (beta - alpha >? 1) tt_move static_score)
                  (search_from_null_move (search lf d) lf depth alpha beta
                     try_null (board_in_check (pos w) (stm (pos w)))
                     (beta - alpha >? 1) tt_move static_score)
              end) (entered w).
Proof.
  intros Hd. rewrite search_unfold. unfold search_body.
  rewrite bind_modify. unfold cur_in_check. rewrite bind_gets. cbn beta.
  replace (depth <=? 0) with false by (symmetry; apply Z.leb_gt; lia).
  reflexivity.
Qed.

(** C2. A node whose position is a repetition or has a fifty-move counter
    of 100 or more when [checkup] is through: [search] with [depth >= 1]
    and [quiescence] return exactly 0, and the ghost log is the log at
    entry, so there was no evaluation, no hash probe, no move selector and
    no move made.  The only other way out is the [longjmp] of [checkup],
    again with nothing logged; neither call can run out of fuel. *)
Theorem draw_returns_zero (lf d : nat) (w : worker) (depth alpha beta : Z)
  (try_null : bool) :
  (1 <= depth ->
   (forall w1, checkup (entered w) = Ret tt w1 -> is_draw (pos w1) = true) ->
   match search lf (S d) depth alpha beta try_null w with
   | Ret v w' => v = 0 /\ trace w' = trace w
   | Jump _ w' => trace w' = trace w
   | OutOfFuel => False
   end)
  /\ ((forall w1, checkup (qentered depth w) = Ret tt w1 ->
                  is_draw (pos w1) = true) ->
      match quiescence lf (S d) depth alpha beta w with
      | Ret v w' => v = 0 /\ trace w' = trace w
      | Jump _ w' => trace w' = trace w
      | OutOfFuel => False
      end).
Proof.
  split.
  - intros Hd Hdraw. rewrite search_after_prelude by exact Hd.
    pose proof (checkup_fields (entered w)) as Hf. unfold wp in Hf.
    destruct (checkup (entered w)) as [[] w1|e w1|] eqn:Hc;
      [| |contradiction].
    2: { match goal with |- context [search_prelude ?a ?b ?c ?i ?e0] =>
           assert (Hpre : search_prelude a b c i e0 (entered w) = Jump e w1)
         end.
         { unfold search_prelude. rewrite (bind_Jump Hc). reflexivity. }
         rewrite (bind_Jump Hpre), Hf. reflexivity. }
    specialize (Hdraw w1 eq_refl).
    set (w2 := reset_pv (if sply (pos w1) >? seldepth w1
                         then set_seldepth w1 (sply (pos w1)) else w1)).
    assert (Hp : pos w2 = pos w1 /\ trace w2 = trace w).
    { assert (Ht : trace w1 = trace w) by (rewrite Hf; reflexivity).
      subst w2. unfold reset_pv. rewrite <- Ht.
      destruct (sply (pos w1) >? seldepth w1); split; reflexivity. }
    match goal with |- context [search_prelude ?a ?b ?c ?i ?e] =>
      assert (Hpre : search_prelude a b c i e (entered w) = Ret (inl 0) w2) end.
    { unfold search_prelude.
      rewrite (bind_Ret Hc), !bind_modify, bind_gets. cbn beta.
      fold w2. rewrite (proj1 Hp), Hdraw. reflexivity. }
    rewrite (bind_Ret Hpre). split; [reflexivity|exact (proj2 Hp)].
  - intros Hdraw. rewrite quiescence_unfold. unfold quiescence_body.
    assert (Ht0 : trace (qentered depth w) = trace w)
      by (unfold qentered; destruct (depth <? 0); reflexivity).
    pose proof (checkup_fields (qentered depth w)) as Hf. unfold wp in Hf.
    assert (Hstart : forall B (k : unit -> M B),
      bind (if depth <? 0
            then modify (fun w : worker =>
                   set_qnodes (set_nodes w (nodes w + 1)) (qnodes w + 1))
            else ret tt) k w = k tt (qentered depth w)).
    { intros B k. unfold qentered. destruct (depth <? 0); reflexivity. }
    destruct (checkup (qentered depth w)) as [[] w1|e w1|] eqn:Hc;
      [| |contradiction].
    + specialize (Hdraw w1 eq_refl).
      assert (Hpre : quiescence_prelude depth alpha beta w
                     = Ret (inl 0) (reset_pv w1)).
      { unfold quiescence_prelude. rewrite Hstart.
        rewrite (bind_Ret Hc), bind_modify, bind_gets.
        change (pos (reset_pv w1)) with (pos w1). rewrite Hdraw.
        reflexivity. }
      rewrite (bind_Ret Hpre). split; [reflexivity|].
      change (trace (reset_pv w1)) with (trace w1).
      rewrite Hf. exact Ht0.
    + assert (Hpre : quiescence_prelude depth alpha beta w = Jump e w1).
      { unfold quiescence_prelude. rewrite Hstart.
        rewrite (bind_Jump Hc). reflexivity. }
      rewrite (bind_Jump Hpre), Hf. exact Ht0.
Qed.

Lemma search_at_razoring lf d depth alpha beta try_null (w : worker)
  tt_move static_score w1 :
  1 <= depth ->
  reaches_razoring depth alpha beta w tt_move static_score w1 ->
  search lf (S d) depth alpha beta try_null w =
  or_else (razoring (quiescence lf d) depth alpha beta
             (board_in_check (pos w) (stm (pos w)))
             (beta - alpha >? 1) tt_move static_score)
    (search_from_null_move (search lf d) lf depth alpha beta
       try_null (board_in_check (pos w) (stm (pos w)))
       (beta - alpha >? 1) tt_move static_score) w1.
Proof.
  intros Hd Hpre. rewrite search_after_prelude by exact Hd.
  unfold reaches_razoring in Hpre. rewrite (bind_Ret Hpre). reflexivity.
Qed.

Lemma search_at_null_move lf d depth alpha beta try_null (w : worker)
  tt_move static_score w2 :
  1 <= depth ->
  reaches_null_move lf d depth alpha beta w tt_move static_score w2 ->
  search lf (S d) depth alpha beta try_null w =
  search_from_null_move (search lf d) lf depth alpha beta
    try_null (board_in_check (pos w) (stm (pos w)))
    (beta - alpha >? 1) tt_move static_score w2.
Proof.
  intros Hd (w1 & Hpre & Hraz).
  rewrite (search_at_razoring lf d try_null Hd Hpre).
  unfold or_else at 1. rewrite (bind_Ret Hraz). reflexivity.
Qed.

Lemma search_at_move_loop lf d depth alpha beta try_null (w : worker)
  tt_move static_score w4 :
  1 <= depth ->
  reaches_move_loop lf d depth alpha beta try_null w tt_move static_score w4 ->
  search lf (S d) depth alpha beta try_null w =
  bind (search_moves (search lf d) lf depth alpha beta
          (board_in_check (pos w) (stm (pos w))) (beta - alpha >? 1)
          tt_move static_score)
    (search_finish depth (board_in_check (pos w) (stm (pos w)))) w4.
Proof.
  intros Hd (w2 & w3 & Hreach & Hnull & Hprob).
  rewrite (search_at_null_move try_null Hd Hreach).
  unfold search_from_null_move, or_else.
  rewrite (bind_Ret Hnull), (bind_Ret Hprob). reflexivity.
Qed.

(** A move loop whose selector yields only moves that [board_make_move]
    refuses ends in the state it started in. *)
Lemma search_loop_no_legal_move (rec : Z -> Z -> Z -> bool -> M Z)
  depth beta in_check pv_node futility_pruning tt_move (n : nat) :
  forall lf st (w w' : worker),
    (n < lf)%nat ->
    no_legal_move select_get_move n w w' ->
    search_loop rec depth beta in_check pv_node futility_pruning tt_move lf
      st w = Ret st w'.
Proof.
  induction n as [|n IH]; intros lf st w w' Hlf H;
    (destruct lf as [|lf]; [lia|]); cbn [search_loop];
    cbn [no_legal_move] in H; unfold bind at 1, call at 1;
    destruct (select_get_move w) as [[m|] p]; try contradiction;
    try (subst w'; reflexivity).
  destruct H as [Href Hrest].
  rewrite !bind_gets. cbn beta.
  assert (Hmake : make_move m (set_pos w p)
                  = Ret false (set_pos (set_pos w p)
                                 (snd (board_make_move p m)))).
  { unfold make_move, bind, call. cbn [pos set_pos].
    destruct (board_make_move p m) as [ok p']. cbn [fst snd] in *.
    subst ok. reflexivity. }
  rewrite (bind_Ret Hmake). cbn [negb].
  apply IH; [lia|exact Hrest].
Qed.

Lemma quiescence_loop_no_legal_move (rec : Z -> Z -> Z -> M Z) depth beta
  (n : nat) :
  forall lf st (w w' : worker),
    (n < lf)%nat ->
    no_legal_move select_get_quiscence_move n w w' ->
    quiescence_loop rec true depth beta lf st w = Ret st w'.
Proof.
  induction n as [|n IH]; intros lf st w w' Hlf H;
    (destruct lf as [|lf]; [lia|]); cbn [quiescence_loop];
    cbn [no_legal_move] in H; unfold bind at 1, call at 1;
    destruct (select_get_quiscence_move w) as [[m|] p]; try contradiction;
    try (subst w'; reflexivity).
  destruct H as [Href Hrest].
  rewrite !bind_gets. cbn beta. cbn [negb andb].
  assert (Hmake : make_move m (set_pos w p)
                  = Ret false (set_pos (set_pos w p)
                                 (snd (board_make_move p m)))).
  { unfold make_move, bind, call. cbn [pos set_pos].
    destruct (board_make_move p m) as [ok p']. cbn [fst snd] in *.
    subst ok. reflexivity. }
  rewrite (bind_Ret Hmake). cbn [negb].
  apply IH; [lia|exact Hrest].
Qed.

(** [quiescence] enters its move loop in check only when
    [board_in_check] says so of the position the evaluation leaves. *)
Lemma quiescence_prelude_in_check depth alpha beta (w : worker) :
  wp True (fun _ _ => True) (quiescence_prelude depth alpha beta)
    (fun r _ =>
       match r with
       | inr (in_check, _, _) =>
           exists we v p, eval_evaluate we = (v, p) /\
                          in_check = board_in_check p (stm p)
       | inl _ => True
       end) w.
Proof.
  unfold quiescence_prelude, evaluate, tt_lookup, init_node, set_tt_move,
    cur_sply, cur_in_check.
  apply wp_bind. eapply wp_mono; [apply wp_any|]. intros _ w1 _.
  apply wp_bind. eapply wp_mono; [apply wp_any|]. intros _ w2 _.
  repeat wp_step; try exact I.
  cbn [pos set_pos set_trace]. eauto.
Qed.

(** C1 (as the code has it). [search] with [depth >= 1] that reaches its
    move loop in a node without a legal move, that is, where
    [board_make_move] refuses every move the selector yields, returns
    [-CHECKMATE + sply] if the side to move is in check and 0 if not, and
    stores that score with [TT_EXACT] and no move.  [quiescence] that
    reaches its move loop in check, which it does only when
    [board_in_check] holds of the position the evaluation leaves, without
    a legal move returns [-CHECKMATE + sply]. *)
Theorem no_legal_move_score (lf d : nat) (w : worker) (depth alpha beta : Z)
  (try_null : bool) :
  let in_check := board_in_check (pos w) (stm (pos w)) in
  (forall tt_move static_score w4 n w5,
     1 <= depth ->
     reaches_move_loop lf d depth alpha beta try_null w tt_move static_score
       w4 ->
     (n < lf)%nat ->
     no_legal_move select_get_move n (loop_entry in_check tt_move w4) w5 ->
     let score := if in_check then - CHECKMATE + sply (pos w5) else 0 in
     exists w',
       search lf (S d) depth alpha beta try_null w = Ret score w' /\
       pos w' = hash_tt_store (pos w5) NOMOVE depth score TT_EXACT)
  /\ (forall alpha' best_score w1 n w2,
        quiescence_prelude depth alpha beta w
        = Ret (inr (true, alpha', best_score)) w1 ->
        (n < lf)%nat ->
        no_legal_move select_get_quiscence_move n w1 w2 ->
        quiescence lf (S d) depth alpha beta w
        = Ret (- CHECKMATE + sply (pos w2)) w2
        /\ exists we v p, eval_evaluate we = (v, p) /\
                          board_in_check p (stm p) = true).
Proof.
  cbn zeta. split.
  - intros tt_move static_score w4 n w5 Hd Hreach Hlf Hnone.
    rewrite (search_at_move_loop Hd Hreach).
    assert (Hloop : search_moves (search lf d) lf depth alpha beta
                      (board_in_check (pos w) (stm (pos w)))
                      (beta - alpha >? 1) tt_move static_score w4
                    = Ret (mk_loop alpha (- INFINITE_SCORE) NOMOVE TT_ALPHA 0
                             false) w5).
    { unfold search_moves, init_node, set_tt_move.
      rewrite bind_assoc. unfold emit at 1. rewrite bind_modify.
      unfold call_ at 1. unfold bind at 1. unfold call_ at 1.
      unfold bind at 1.
      apply (search_loop_no_legal_move _ _ _ _ _ _ _ (n := n)); [exact Hlf|].
      exact Hnone. }
    rewrite (bind_Ret Hloop).
    unfold search_finish, cur_sply. rewrite bind_gets.
    cbn [s_found_move s_best_move]. cbn beta.
    unfold tt_store, emit, call_.
    eexists. split; reflexivity.
  - intros alpha' best_score w1 n w2 Hpre Hlf Hnone. split.
    + rewrite quiescence_unfold. unfold quiescence_body.
      rewrite (bind_Ret Hpre).
      rewrite (bind_Ret (quiescence_loop_no_legal_move _ _ _ (n := n) _ _ _
                           Hlf Hnone)).
      unfold quiescence_result, cur_sply. rewrite bind_gets. reflexivity.
    + pose proof (quiescence_prelude_in_check depth alpha beta w) as Hwp.
      unfold wp in Hwp. rewrite Hpre in Hwp.
      destruct Hwp as (we & v & p & He & Hc). eauto.
Qed.

(** C3. A node that reaches null move pruning with [try_null] set, not in
    check, [depth > 3] and non-pawn material for the side to move makes a
    null move on the board ([board_make_null_move]) and searches the
    position it gives with window [(-beta, -beta+1)] at depth
    [depth - (2 + depth/6) - 1] with [try_null] false.  When that search
    returns [s] the null move is taken back ([board_unmake_null_move]);
    with [-s >= beta] the node returns [-s], or [beta] when
    [-s >= FORCED_MATE]; with [-s < beta] it goes on with probcut and the
    move loop.  A [longjmp] out of the null move search leaves the node
    as it is. *)
Theorem null_move_cutoff (lf d : nat) (w : worker) (depth alpha beta : Z)
  (tt_move : move) (static_score : Z) (w2 : worker) :
  let in_check := board_in_check (pos w) (stm (pos w)) in
  let wn := null_move_made w2 in
  reaches_null_move lf d depth alpha beta w tt_move static_score w2 ->
  in_check = false ->
  depth > 3 ->
  board_has_non_pawn (pos w2) (stm (pos w2)) = true ->
  pos wn = board_make_null_move (pos w2) /\
  match search lf d (depth - (2 + Z.quot depth 6) - 1) (- beta) (- beta + 1)
          false wn with
  | Ret s w3 =>
      let wu := null_move_unmade w3 in
      pos wu = board_unmake_null_move (pos w3) /\
      (beta <= - s ->
       search lf (S d) depth alpha beta true w
       = Ret (if - s <? FORCED_MATE then - s else beta) wu) /\
      (- s < beta ->
       search lf (S d) depth alpha beta true w
       = or_else
           (probcut (search lf d) lf depth beta false (beta - alpha >? 1)
              tt_move static_score)
           (st <- search_moves (search lf d) lf depth alpha beta false
                    (beta - alpha >? 1) tt_move static_score ;;
            search_finish depth false st) wu)
  | Jump e w3 => search lf (S d) depth alpha beta true w = Jump e w3
  | OutOfFuel => search lf (S d) depth alpha beta true w = OutOfFuel
  end.
Proof.
  cbn zeta. intros Hreach Hchk Hd Hnp. split; [reflexivity|].
  assert (Hsearch :
    search lf (S d) depth alpha beta true w
    = match search lf d (depth - (2 + Z.quot depth 6) - 1) (- beta)
              (- beta + 1) false (null_move_made w2) with
      | Ret s w3 =>
        match (if - s >=? beta
               then Some (if - s <? FORCED_MATE then - s else beta)
               else None) with
        | Some v => ret v
        | None =>
          or_else
            (probcut (search lf d) lf depth beta false (beta - alpha >? 1)
               tt_move static_score)
            (st <- search_moves (search lf d) lf depth alpha beta false
                     (beta - alpha >? 1) tt_move static_score ;;
             search_finish depth false st)
        end (null_move_unmade w3)
      | Jump e w3 => Jump e w3
      | OutOfFuel => OutOfFuel
      end).
  { rewrite (search_at_null_move true (ltac:(lia) : 1 <= depth) Hreach).
    rewrite Hchk.
    unfold search_from_null_move, or_else at 1.
    unfold null_move_pruning, cur_has_non_pawn.
    rewrite bind_assoc, bind_gets, Hnp. cbn beta.
    replace (depth >? NULLMOVE_DEPTH) with true
      by (symmetry; unfold NULLMOVE_DEPTH; apply Z.gtb_lt; lia).
    cbn [andb negb].
    unfold NULLMOVE_BASE_REDUCTION, NULLMOVE_DIVISOR.
    unfold make_null_move, unmake_null_move.
    unfold bind, call_, emit, modify.
    unfold null_move_made, null_move_unmade.
    cbn [pos set_pos set_trace trace].
    destruct (search lf d (depth - (2 + Z.quot depth 6) - 1) (- beta)
                (- beta + 1) false _) as [s w3| |]; try reflexivity.
    destruct (- s >=? beta); reflexivity. }
  rewrite Hsearch.
  destruct (search lf d (depth - (2 + Z.quot depth 6) - 1) (- beta)
              (- beta + 1) false (null_move_made w2)) as [s w3|e w3|];
    try reflexivity.
  split; [reflexivity|]. split; intros Hs.
  - replace (- s >=? beta) with true by (symmetry; apply Z.geb_le; lia).
    reflexivity.
  - replace (- s >=? beta) with false
      by (symmetry; rewrite Z.geb_leb; apply Z.leb_gt; lia).
    reflexivity.
Qed.

(** C4. A node that reaches razoring not in check, with a null window, no
    hash move, [depth <= 3] and [static_score + margin[depth] <= alpha],
    the margins being 100, 200 and 400: at depth 1 the node is the
    quiescence search of the original window; at depths 2 and 3 it runs
    quiescence on [(alpha - margin, alpha - margin + 1)] and returns its
    score when that is at most [alpha - margin], and otherwise goes on
    with null move pruning. *)
Theorem razoring_returns (lf d : nat) (w : worker) (depth alpha beta : Z)
  (try_null : bool) (static_score : Z) (w1 : worker) :
  let in_check := board_in_check (pos w) (stm (pos w)) in
  let margin := lookup_table razoring_margin depth in
  1 <= depth <= 3 ->
  reaches_razoring depth alpha beta w NOMOVE static_score w1 ->
  in_check = false ->
  beta - alpha <= 1 ->
  static_score + margin <= alpha ->
  margin = (if depth =? 1 then 100 else if depth =? 2 then 200 else 400)
  /\ (depth = 1 ->
      search lf (S d) depth alpha beta try_null w
      = quiescence lf d 0 alpha beta w1)
  /\ (2 <= depth ->
      forall score w2,
        quiescence lf d 0 (alpha - margin) (alpha - margin + 1) w1
        = Ret score w2 ->
        (score <= alpha - margin ->
         search lf (S d) depth alpha beta try_null w = Ret score w2)
        /\ (alpha - margin < score ->
            search lf (S d) depth alpha beta try_null w
            = search_from_null_move (search lf d) lf depth alpha beta
                try_null in_check (beta - alpha >? 1) NOMOVE static_score
                w2)).
Proof.
  cbn zeta. intros Hd Hreach Hchk Hpv Hlow.
  rewrite (search_at_razoring lf d try_null (proj1 Hd) Hreach).
  unfold or_else, razoring. rewrite Hchk.
  replace (beta - alpha >? 1) with false
    by (symmetry; rewrite Z.gtb_ltb; apply Z.ltb_ge; lia).
  rewrite Z.eqb_refl.
  replace (depth <=? RAZORING_DEPTH) with true
    by (symmetry; unfold RAZORING_DEPTH; apply Z.leb_le; lia).
  replace (static_score + lookup_table razoring_margin depth <=? alpha)
    with true by (symmetry; apply Z.leb_le; lia).
  cbn [andb negb].
  split; [|split].
  - assert (depth = 1 \/ depth = 2 \/ depth = 3) as [E|[E|E]] by lia;
      rewrite E; reflexivity.
  - intros E. rewrite E. cbn [Z.eqb Pos.eqb].
    unfold bind. destruct (quiescence lf d 0 alpha beta w1); reflexivity.
  - intros H2 score w2 Hq.
    replace (depth =? 1) with false by (symmetry; apply Z.eqb_neq; lia).
    split; intros Hs.
    + rewrite bind_assoc, (bind_Ret Hq).
      replace (score <=? alpha - lookup_table razoring_margin depth)
        with true by (symmetry; apply Z.leb_le; lia).
      reflexivity.
    + rewrite bind_assoc, (bind_Ret Hq).
      replace (score <=? alpha - lookup_table razoring_margin depth)
        with false by (symmetry; apply Z.leb_gt; lia).
      reflexivity.
Qed.

End Nodes.

(** ** Iterative deepening *)

Section Deepening.
Context {position : Type} {X : Externals position}.
Local Abbreviation worker := (search_worker position).
Local Abbreviation M := (search_M position).

(** A finished iteration that stays inside the window and goes on. *)
Lemma after_root_search_inside (st : id_state) (alpha beta score : Z)
  (w : worker) :
  alpha < score < beta ->
  wp True (fun _ _ => True) (after_root_search st alpha beta score)
    (fun r w' =>
       forall st', r = Some st' ->
         resolving_root_fail w' = false /\
         i_awindex st' = 0 /\ i_bwindex st' = 0 /\
         (if i_depth st' >? 5
          then i_alpha st' = score - 25 /\ i_beta st' = score + 25
          else i_alpha st' = - INFINITE_SCORE /\ i_beta st' = INFINITE_SCORE))
    w.
Proof.
  intros Hin. unfold after_root_search.
  replace (score <=? alpha) with false by (symmetry; apply Z.leb_gt; lia).
  replace (score >=? beta) with false
    by (symmetry; rewrite Z.geb_leb; apply Z.leb_gt; lia).
  repeat wp_step; intros st' E; try discriminate.
  injection E as <-. cbn [i_awindex i_bwindex i_depth i_alpha i_beta].
  repeat split; try reflexivity.
  destruct (a >? 5); split; reflexivity.
Qed.

(** C5 (as the code has it). An iteration whose root search returns
    [score] for the window [(alpha, beta)]:
    - fail low ([score <= alpha]): only [alpha] moves, to [score] minus
      the next entry of the schedule, and [resolving_root_fail] is set;
    - fail high ([score >= beta]): only [beta] moves, to [score] plus the
      next entry of the schedule, and the worker is left as the root
      search returned it, so [resolving_root_fail] is not written;
    - inside the window, when the loop goes on: [resolving_root_fail] is
      cleared, both indices are 0, and the next window is [score -/+ 25]
      when the next depth is above 5 and infinite otherwise.
    The schedule is 25, 50, 100, 200, 400, [INFINITE_SCORE]; the next
    entry is read for the indices 0 to 5 only, which are the entries the
    array has.  In [checkup], a stop request that is not an abort does
    not raise [EXCEPTION_STOP] while [resolving_root_fail] is set; an
    abort, or a stop request while the flag is clear, does. *)
Theorem aspiration_window_schedule (lf d : nat) (st : id_state)
  (w w1 : worker) (score : Z) :
  let alpha := Z.max (i_alpha st) (- INFINITE_SCORE) in
  let beta := Z.min (i_beta st) INFINITE_SCORE in
  search_root lf d (i_depth st) alpha beta
    (set_seldepth (set_w_depth w (i_depth st)) 0) = Ret score w1 ->
  (score <= alpha -> 0 <= i_awindex st + 1 <= 5 ->
   iteration lf d st w
   = Ret (Some (mk_id
                  (score - nth (Z.to_nat (i_awindex st + 1))
                             [25; 50; 100; 200; 400; INFINITE_SCORE] 0)
                  beta (i_awindex st + 1) (i_bwindex st) (i_depth st)))
       (set_resolving_root_fail w1 true))
  /\ (alpha < score -> beta <= score -> 0 <= i_bwindex st + 1 <= 5 ->
      iteration lf d st w
      = Ret (Some (mk_id alpha
                     (score + nth (Z.to_nat (i_bwindex st + 1))
                                [25; 50; 100; 200; 400; INFINITE_SCORE] 0)
                     (i_awindex st) (i_bwindex st + 1) (i_depth st)))
          w1)
  /\ (alpha < score < beta ->
      forall st' w', iteration lf d st w = Ret (Some st') w' ->
        resolving_root_fail w' = false /\
        i_awindex st' = 0 /\ i_bwindex st' = 0 /\
        (if i_depth st' >? 5
         then i_alpha st' = score - 25 /\ i_beta st' = score + 25
         else i_alpha st' = - INFINITE_SCORE /\ i_beta st' = INFINITE_SCORE))
  /\ (forall i, 0 <= i <= 5 ->
        aspiration_window_at i
        = Some (nth (Z.to_nat i) [25; 50; 100; 200; 400; INFINITE_SCORE] 0))
  /\ (forall wc p,
        smp_should_stop wc = ((true, false), p) ->
        resolving_root_fail wc = true ->
        forall w', checkup wc <> Jump EXCEPTION_STOP w')
  /\ (forall wc abort p,
        smp_should_stop wc = ((true, abort), p) ->
        abort = true \/ resolving_root_fail wc = false ->
        checkup wc = Jump EXCEPTION_STOP (set_pos wc p)).
Proof.
  cbn zeta. intros Hroot.
  assert (Hat : forall i, 0 <= i <= 5 ->
            aspiration_window_at i
            = Some (nth (Z.to_nat i) [25; 50; 100; 200; 400; INFINITE_SCORE]
                      0)).
  { intros i Hi. unfold aspiration_window_at.
    replace ((0 <=? i) && (i <? 6)) with true
      by (symmetry; apply andb_true_intro; split;
          [apply Z.leb_le|apply Z.ltb_lt]; lia).
    reflexivity. }
  assert (Hit : iteration lf d st w
                = after_root_search st (Z.max (i_alpha st) (- INFINITE_SCORE))
                    (Z.min (i_beta st) INFINITE_SCORE) score w1).
  { unfold iteration.
    assert (Hs : setjmp
              (modify (fun w => set_seldepth (set_w_depth w (i_depth st)) 0) ;;;
               search_root lf d (i_depth st)
                 (Z.max (i_alpha st) (- INFINITE_SCORE))
                 (Z.min (i_beta st) INFINITE_SCORE)) w = Ret (inr score) w1).
    { unfold setjmp. rewrite bind_modify, Hroot. reflexivity. }
    rewrite (bind_Ret Hs). reflexivity. }
  rewrite Hit. split; [|split; [|split; [|split; [|split]]]].
  - intros Hlow Hidx. unfold after_root_search.
    replace (score <=? _) with true by (symmetry; apply Z.leb_le; lia).
    rewrite (Hat _ Hidx). reflexivity.
  - intros Hlo Hhigh Hidx. unfold after_root_search.
    replace (score <=? _) with false by (symmetry; apply Z.leb_gt; lia).
    replace (score >=? _) with true by (symmetry; apply Z.geb_le; lia).
    rewrite (Hat _ Hidx). reflexivity.
  - intros Hin st' w' E.
    pose proof (after_root_search_inside st w1 Hin) as Hwp.
    unfold wp in Hwp. rewrite E in Hwp. apply Hwp. reflexivity.
  - exact Hat.
  - intros wc p Hstop Hflag w' E.
    assert (Hwp : wp False (fun e _ => e <> EXCEPTION_STOP) checkup
                    (fun _ _ => True) wc).
    { unfold checkup. apply wp_bind, wp_call. intros a p0 Ea.
      rewrite Hstop in Ea. injection Ea as <- <-.
      apply wp_bind, wp_gets. cbn [resolving_root_fail set_pos].
      rewrite Hflag. cbn [andb orb negb].
      repeat wp_step; (exact I || discriminate). }
    unfold wp in Hwp. rewrite E in Hwp. apply Hwp. reflexivity.
  - intros wc abort p Hstop Hor. unfold checkup, call.
    unfold bind at 1. unfold bind at 1. rewrite Hstop.
    unfold bind at 1. unfold bind at 1.
    cbn [gets resolving_root_fail set_pos].
    replace (true && (abort || negb (resolving_root_fail wc))) with true.
    + reflexivity.
    + destruct Hor as [-> | ->]; [reflexivity | destruct abort; reflexivity].
Qed.

End Deepening.

(** ** The line of play: no two null moves in a row *)

Section Lines.
Context {position : Type} {X : Externals position}.
Local Abbreviation worker := (search_worker position).
Local Abbreviation M := (search_M position).
Local Abbreviation tri := (tri (position := position)).

Lemma log_ok_line (t : list event) : log_ok t -> double_null (line_of t) = false.
Proof. destruct t; cbn; [reflexivity|]. intros [H _]. exact H. Qed.

Lemma double_null_tl (l : list ply) : double_null l = false -> double_null (tl l) = false.
Proof.
  destruct l as [|[|] r]; cbn; auto.
  destruct r as [|[|] r']; auto. discriminate.
Qed.

Lemma double_null_push_null (l : list ply) :
  top_is_null l = false -> double_null l = false -> double_null (PlyNull :: l) = false.
Proof. destruct l as [|[|] r]; cbn; auto. Qed.

Lemma tri_bind {A B} L (m : M A) L1 (f : A -> M B) L2 :
  tri L m L1 -> (forall a, tri (L1 a) (f a) L2) -> tri L (bind m f) L2.
Proof.
  intros Hm Hf w Hok HL. apply wp_bind.
  eapply wp_mono; [apply (Hm w Hok HL)|].
  intros a w' [Hok' HL']. apply (Hf a w' Hok' HL').
Qed.

Lemma tri_ret {A} L (a : A) (L' : A -> list ply) : L' a = L -> tri L (ret a : M A) L'.
Proof. intros E w Hok HL. apply wp_ret. rewrite E. auto. Qed.

Lemma tri_gets {A} L (f : worker -> A) : tri L (gets f) (fun _ => L).
Proof. intros w Hok HL. apply wp_gets. auto. Qed.

Lemma tri_modify L (f : worker -> worker) :
  (forall w, trace (f w) = trace w) -> tri L (modify f) (fun _ => L).
Proof. intros E w Hok HL. apply wp_modify. rewrite E. auto. Qed.

Lemma tri_call {A} L (f : worker -> A * position) : tri L (call f) (fun _ => L).
Proof. intros w Hok HL. apply wp_call. intros a p _. auto. Qed.

Lemma tri_call_ L (f : worker -> position) : tri L (call_ f) (fun _ => L).
Proof. intros w Hok HL. apply wp_call_. auto. Qed.

Lemma tri_longjmp {A} L e (L' : A -> list ply) : tri L (longjmp e : M A) L'.
Proof. intros w Hok HL. apply wp_longjmp. auto. Qed.

Lemma tri_out_of_fuel {A} L (L' : A -> list ply) : tri L (out_of_fuel : M A) L'.
Proof. intros w Hok HL. exact I. Qed.

Lemma tri_emit L ev :
  double_null (line_step ev L) = false -> tri L (emit ev) (fun _ => line_step ev L).
Proof.
  intros Hd w Hok HL. apply wp_emit. cbn [trace set_trace log_ok line_of].
  rewrite HL. auto.
Qed.

Lemma tri_make_move L m :
  tri L (make_move m) (fun ok : bool => if ok then PlyMove :: L else L).
Proof.
  intros w Hok HL. unfold make_move.
  apply wp_bind, wp_call. intros ok p _.
  pose proof (log_ok_line _ Hok) as Hd. rewrite HL in Hd.
  destruct ok; apply wp_bind.
  - apply wp_emit, wp_ret. cbn [trace set_trace set_pos log_ok line_of line_step].
    rewrite HL. cbn [double_null]. auto.
  - apply wp_ret, wp_ret. auto.
Qed.

Lemma tri_unmake_move L : tri L unmake_move (fun _ => tl L).
Proof.
  intros w Hok HL. unfold unmake_move.
  apply wp_bind, wp_call_, wp_emit.
  cbn [trace set_trace set_pos log_ok line_of line_step]. rewrite HL.
  pose proof (log_ok_line _ Hok) as Hd. rewrite HL in Hd.
  auto using double_null_tl.
Qed.

Lemma tri_make_null_move L :
  top_is_null L = false -> tri L make_null_move (fun _ => PlyNull :: L).
Proof.
  intros Htop w Hok HL. unfold make_null_move.
  apply wp_bind, wp_call_, wp_emit.
  cbn [trace set_trace set_pos log_ok line_of line_step]. rewrite HL.
  pose proof (log_ok_line _ Hok) as Hd. rewrite HL in Hd.
  auto using double_null_push_null.
Qed.

Lemma tri_unmake_null_move L : tri L unmake_null_move (fun _ => tl L).
Proof.
  intros w Hok HL. unfold unmake_null_move.
  apply wp_bind, wp_call_, wp_emit.
  cbn [trace set_trace set_pos log_ok line_of line_step]. rewrite HL.
  pose proof (log_ok_line _ Hok) as Hd. rewrite HL in Hd.
  auto using double_null_tl.
Qed.

(** An event that is neither a move nor its undoing. *)
Lemma tri_emit_neutral L ev :
  (forall l, line_step ev l = l) -> tri L (emit ev) (fun _ => L).
Proof.
  intros Hn w Hok HL. apply wp_emit.
  cbn [trace set_trace log_ok line_of]. rewrite Hn, HL.
  pose proof (log_ok_line _ Hok) as Hd. rewrite HL in Hd. auto.
Qed.

End Lines.

Create HintDb tri.

Ltac trace_same :=
  intros;
  first
    [ reflexivity
    | unfold update_history_table, add_killer_move;
      repeat match goal with
             | |- context [if ?c then _ else _] => destruct c
             end;
      reflexivity ].

Ltac tri_prim :=
  first
    [ apply tri_gets
    | apply tri_call
    | apply tri_call_
    | apply tri_modify; trace_same
    | apply tri_emit_neutral; intros; reflexivity
    | apply tri_longjmp
    | apply tri_out_of_fuel
    | apply tri_ret; reflexivity ].

Ltac tri_step :=
  lazymatch goal with
  | |- tri _ (bind (make_move _) _) _ =>
      eapply tri_bind; [apply tri_make_move | intros [|]]
  | |- tri _ (bind unmake_move _) _ =>
      eapply tri_bind; [apply tri_unmake_move | intros ?]
  | |- tri _ (bind unmake_null_move _) _ =>
      eapply tri_bind; [apply tri_unmake_null_move | intros ?]
  | |- tri _ (bind make_null_move _) _ =>
      eapply tri_bind; [apply tri_make_null_move; assumption | intros ?]
  | |- tri _ (bind _ _) _ => eapply tri_bind; [ | intros ? ]
  | |- tri _ (if ?b then _ else _) _ => destruct b
  | |- tri _ (match ?x with (_, _) => _ end) _ => destruct x
  | |- tri _ (match ?x with Some _ => _ | None => _ end) _ => destruct x
  | |- tri _ (match ?x with inl _ => _ | inr _ => _ end) _ => destruct x
  | |- tri _ _ _ =>
      first [ tri_prim
            | solve [ auto with tri ]
            | match goal with
              | H : forall _, _ |- _ =>
                  solve [ apply H;
                          first [ assumption | intros; discriminate
                                | intros; reflexivity ] ]
              end ]
  end; cbv beta iota zeta; cbn [tl negb andb orb].

Section SearchLines.
Context {position : Type} {X : Externals position}.
Local Abbreviation worker := (search_worker position).
Local Abbreviation M := (search_M position).
Local Abbreviation tri := (tri (position := position)).

Lemma tri_checkup L : tri L checkup (fun _ => L).
Proof. unfold checkup. repeat tri_step. Qed.
#[local] Hint Resolve tri_checkup : tri.

Section QuiescenceLines.
Variable rec : Z -> Z -> Z -> M Z.
Hypothesis Hrec : forall depth alpha beta L,
  tri L (rec depth alpha beta) (fun _ => L).

Lemma tri_quiescence_prelude depth alpha beta L :
  tri L (quiescence_prelude depth alpha beta) (fun _ => L).
Proof.
  unfold quiescence_prelude, evaluate, tt_lookup, init_node, set_tt_move,
    cur_sply, cur_in_check.
  repeat tri_step.
Qed.
#[local] Hint Resolve tri_quiescence_prelude : tri.

Lemma tri_quiescence_loop in_check depth beta lf : forall st L,
  tri L (quiescence_loop rec in_check depth beta lf st) (fun _ => L).
Proof.
  induction lf as [|lf' IH]; intros st L; cbn [quiescence_loop].
  - tri_step.
  - repeat tri_step.
Qed.
#[local] Hint Resolve tri_quiescence_loop : tri.

Lemma tri_quiescence_body lf depth alpha beta L :
  tri L (quiescence_body rec lf depth alpha beta) (fun _ => L).
Proof.
  unfold quiescence_body, quiescence_result, cur_sply.
  repeat tri_step.
Qed.
End QuiescenceLines.

Lemma tri_quiescence lf d : forall depth alpha beta L,
  tri L (quiescence lf d depth alpha beta) (fun _ => L).
Proof.
  induction d as [|d' IH]; intros depth alpha beta L.
  - apply tri_out_of_fuel.
  - apply tri_quiescence_body. exact IH.
Qed.


Section NodeLines.
Variable rec : Z -> Z -> Z -> bool -> M Z.
Variable quiesce : Z -> Z -> Z -> M Z.
Hypothesis Hrec : forall depth alpha beta try_null L,
  (try_null = true -> top_is_null L = false) ->
  tri L (rec depth alpha beta try_null) (fun _ => L).
Hypothesis Hquiesce : forall depth alpha beta L,
  tri L (quiesce depth alpha beta) (fun _ => L).

Lemma tri_search_prelude depth alpha beta in_check pv_node L :
  tri L (search_prelude depth alpha beta in_check pv_node) (fun _ => L).
Proof.
  unfold search_prelude, evaluate, tt_lookup, init_node, set_tt_move,
    cur_has_non_pawn.
  repeat tri_step.
Qed.
#[local] Hint Resolve tri_search_prelude : tri.

Lemma tri_razoring depth alpha beta in_check pv_node tt_move static_score L :
  tri L (razoring quiesce depth alpha beta in_check pv_node tt_move
           static_score) (fun _ => L).
Proof. unfold razoring. repeat tri_step. Qed.
#[local] Hint Resolve tri_razoring : tri.

Lemma tri_null_move_pruning depth beta try_null in_check L :
  (try_null = true -> top_is_null L = false) ->
  tri L (null_move_pruning rec depth beta try_null in_check) (fun _ => L).
Proof.
  intros Htop. unfold null_move_pruning, cur_has_non_pawn.
  destruct try_null.
  - specialize (Htop eq_refl). repeat tri_step.
  - repeat tri_step.
Qed.
#[local] Hint Resolve tri_null_move_pruning : tri.

Lemma tri_probcut_loop depth threshold static_score lf : forall L,
  tri L (probcut_loop rec depth threshold static_score lf) (fun _ => L).
Proof.
  induction lf as [|lf' IH]; intros L; cbn [probcut_loop]; repeat tri_step.
Qed.
#[local] Hint Resolve tri_probcut_loop : tri.

Lemma tri_probcut lf depth beta in_check pv_node tt_move static_score L :
  tri L (probcut rec lf depth beta in_check pv_node tt_move static_score)
    (fun _ => L).
Proof.
  unfold probcut, init_node, set_tt_move, cur_has_non_pawn.
  repeat tri_step.
Qed.
#[local] Hint Resolve tri_probcut : tri.

Lemma tri_search_move new_depth reduction alpha beta best_score pv_node L :
  top_is_null L = false ->
  tri L (search_move rec new_depth reduction alpha beta best_score pv_node)
    (fun _ => L).
Proof. intros Htop. unfold search_move. repeat tri_step. Qed.
#[local] Hint Resolve tri_search_move : tri.

Lemma tri_search_loop depth beta in_check pv_node futility_pruning tt_move lf :
  forall st L,
    tri L (search_loop rec depth beta in_check pv_node futility_pruning
             tt_move lf st) (fun _ => L).
Proof.
  induction lf as [|lf' IH]; intros st L; cbn [search_loop].
  - tri_step.
  - unfold cur_in_check. repeat tri_step. 
Qed.
#[local] Hint Resolve tri_search_loop : tri.


Lemma tri_search_finish depth in_check st L :
  tri L (search_finish depth in_check st) (fun _ => L).
Proof. unfold search_finish, tt_store, cur_sply. repeat tri_step. Qed.
#[local] Hint Resolve tri_search_finish : tri.

Lemma tri_search_moves lf depth alpha beta in_check pv_node tt_move
  static_score L :
  tri L (search_moves rec lf depth alpha beta in_check pv_node tt_move
           static_score) (fun _ => L).
Proof. unfold search_moves, init_node, set_tt_move. repeat tri_step. Qed.
#[local] Hint Resolve tri_search_moves : tri.

Lemma tri_search_body lf depth alpha beta try_null L :
  (try_null = true -> top_is_null L = false) ->
  tri L (search_body rec quiesce lf depth alpha beta try_null) (fun _ => L).
Proof.
  intros Htop.
  unfold search_body, search_from_null_move, or_else, cur_in_check.
  repeat tri_step.
Qed.

End NodeLines.

Lemma tri_search lf d : forall depth alpha beta try_null L,
  (try_null = true -> top_is_null L = false) ->
  tri L (search lf d depth alpha beta try_null) (fun _ => L).
Proof.
  induction d as [|d' IH]; intros depth alpha beta try_null L Htop.
  - apply tri_out_of_fuel.
  - apply tri_search_body; auto using tri_quiescence.
Qed.


(** C9. Along every line a call of [search] explores, two null moves are
    never made in a row: from a log that never had two consecutive null
    moves on the line, and provided the caller asks for a null move only
    when the last move of the line is not one, the log still never has
    them when [search] returns or jumps out, and on return the line is
    the line at entry.  With [try_null] false the null move stage does
    nothing at all. *)
Theorem null_moves_never_consecutive (lf d : nat) (depth alpha beta : Z)
  (try_null : bool) (w : worker) :
  log_ok (trace w) ->
  (try_null = true -> top_is_null (line_of (trace w)) = false) ->
  match search lf d depth alpha beta try_null w with
  | Ret _ w' => log_ok (trace w') /\ line_of (trace w') = line_of (trace w)
  | Jump _ w' => log_ok (trace w')
  | OutOfFuel => True
  end
  /\ (forall rec in_check w0,
        null_move_pruning rec depth beta false in_check w0 = Ret None w0).
Proof.
  intros Hok Htop. split.
  - exact (tri_search lf d depth alpha beta Htop w Hok eq_refl).
  - intros rec in_check w0. reflexivity.
Qed.

End SearchLines.

(** ** Termination of quiescence *)

Section Termination.
Context {position : Type} {X : Externals position}.
Local Abbreviation worker := (search_worker position).
Local Abbreviation M := (search_M position).
Variable pending : position -> Z -> nat.
Variable max_moves : nat.
Hypothesis laws : quiescence_laws pending max_moves.

Local Abbreviation framed := (frame pending).
Local Abbreviation total := (wp False (fun (_ : exception) (_ : worker) => True)).

Lemma frame_refl k p : framed k p p.
Proof. split; auto. Qed.

Lemma frame_trans k p1 p2 p3 : framed k p1 p2 -> framed k p2 p3 -> framed k p1 p3.
Proof.
  intros [S1 P1] [S2 P2]. split; [congruence|].
  intros s Hs. rewrite P2, P1; auto. rewrite S1. exact Hs.
Qed.

Lemma frame_weaken p1 p2 : framed 0 p1 p2 -> framed 1 p1 p2.
Proof. intros [S1 P1]. split; [exact S1|]. intros s Hs. apply P1. lia. Qed.

Lemma wp_call_pos {A} F J (f : worker -> A * position)
  (Q : A -> worker -> Prop) w :
  (forall a w', f w = (a, pos w') -> Q a w') -> wp F J (call f) Q w.
Proof. intros H. apply wp_call. intros a p E. apply H. exact E. Qed.

Lemma wp_call__pos F J (f : worker -> position)
  (Q : unit -> worker -> Prop) w :
  (forall w', pos w' = f w -> Q tt w') -> wp F J (call_ f) Q w.
Proof. intros H. apply wp_call_. apply H. reflexivity. Qed.

Lemma wp_modify_pos F J (g : worker -> worker)
  (Q : unit -> worker -> Prop) w :
  (forall w', pos w' = pos (g w) -> Q tt w') -> wp F J (modify g) Q w.
Proof. intros H. apply wp_modify. apply H. reflexivity. Qed.

Lemma wp_emit_pos F J ev (Q : unit -> worker -> Prop) (w : worker) :
  (forall w', pos w' = pos w -> Q tt w') -> wp F J (emit ev) Q w.
Proof. intros H. apply wp_emit. apply H. reflexivity. Qed.

(** Symbolic execution that remembers only the position. *)
Ltac pos_step :=
  lazymatch goal with
  | |- wp _ _ (bind _ _) _ _ => apply wp_bind
  | |- wp _ _ (ret _) _ _ => apply wp_ret
  | |- wp _ _ (gets _) _ _ => apply wp_gets
  | |- wp _ _ (modify _) _ _ => apply wp_modify_pos; intros ? ?
  | |- wp _ _ (emit _) _ _ => apply wp_emit_pos; intros ? ?
  | |- wp _ _ (call _) _ _ => apply wp_call_pos; intros ? ? ?
  | |- wp _ _ (call_ _) _ _ => apply wp_call__pos; intros ? ?
  | |- wp _ _ (longjmp _) _ _ => apply wp_longjmp; exact I
  | |- wp _ _ (if ?b then _ else _) _ _ => destruct b eqn:?
  | |- wp _ _ (match ?x with (_, _) => _ end) _ _ => destruct x
  | |- wp _ _ (match ?x with Some _ => _ | None => _ end) _ _ =>
      destruct x eqn:?
  | |- wp _ _ (match ?x with inl _ => _ | inr _ => _ end) _ _ =>
      destruct x eqn:?
  end; cbn beta zeta.

(** Turn the results of external calls into frame facts. *)
Ltac use_laws :=
  repeat match goal with
  | E : smp_should_stop _ = (_, _) |- _ => apply (law_should_stop laws) in E
  | E : tc_check_time _ = (_, _) |- _ => apply (law_check_time laws) in E
  | E : engine_check_input _ = (_, _) |- _ => apply (law_check_input laws) in E
  | E : eval_evaluate _ = (_, _) |- _ => apply (law_evaluate laws) in E
  | E : hash_tt_lookup _ _ _ _ = (_, _) |- _ => apply (law_tt_lookup laws) in E
  | E : select_get_quiscence_move _ = (_, _) |- _ =>
      apply (law_get_move laws) in E
  | E : board_make_move _ _ = (_, _) |- _ => apply (law_make_move laws) in E
  | E : pos ?w' = select_set_tt_move ?w ?m |- _ =>
      let H := fresh "Hf" in
      pose proof (law_set_tt_move laws w m) as H; rewrite <- E in H; clear E
  | E : pos ?w' = select_init_node ?w ?q ?r ?c |- _ =>
      let H := fresh "Hf" in
      pose proof (law_init_node laws w q r c) as H; rewrite <- E in H; clear E
  | E : pos ?w' = board_unmake_move ?p |- _ =>
      let H := fresh "Hf" in
      pose proof (law_unmake_move laws p) as H; rewrite <- E in H; clear E
  end.

Ltac frame_facts :=
  cbn [pos set_pos set_trace set_nodes set_qnodes set_pv_table reset_pv
       update_pv] in *;
  repeat match goal with
  | H : pos ?w' = pos ?w |- _ => rewrite H in *; clear H
  | H : frame _ _ _ _ |- _ => destruct H as [? ?]
  | H : _ /\ _ |- _ => destruct H as [? ?]
  end.

Ltac frame_chain :=
  repeat match goal with
  | H : forall s, _ -> pending ?q s = pending _ s |- context [pending ?q ?s0] =>
      rewrite (H s0) by lia
  end.

Ltac frame_solve :=
  frame_facts;
  repeat match goal with
  | |- _ /\ _ => split
  | |- True => exact I
  end;
  lazymatch goal with
  | |- frame _ _ _ _ =>
      split; [ try (frame_chain; lia) | try (intros; frame_chain; reflexivity) ]
  | |- _ => idtac
  end.

Lemma checkup_frame (w : worker) :
  total checkup (fun _ w' => framed 0 (pos w) (pos w')) w.
Proof.
  unfold checkup. repeat pos_step; use_laws; frame_solve.
Qed.

Lemma quiescence_prelude_frame depth alpha beta (w : worker) :
  total (quiescence_prelude depth alpha beta)
    (fun r w' =>
       framed 1 (pos w) (pos w') /\
       match r with
       | inl _ => True
       | inr _ =>
         sply (pos w) < MAX_PLY /\
         (pending (pos w') (sply (pos w)) <= max_moves)%nat
       end) w.
Proof.
  unfold quiescence_prelude.
  apply wp_bind.
  apply wp_mono with (Q := fun _ w' => pos w' = pos w /\ True).
  { destruct (depth <? 0); [apply wp_modify|apply wp_ret]; auto. }
  intros ? w0 [Hw0 _]. rewrite <- Hw0.
  apply wp_bind. eapply wp_mono; [apply checkup_frame|].
  intros ? w1 Hc. cbv beta in Hc |- *.
  unfold evaluate, cur_sply, cur_in_check, init_node, tt_lookup, set_tt_move.
  repeat pos_step; use_laws; frame_solve.
  - match goal with
    | H : (sply _ >=? MAX_PLY) = false |- _ =>
        rewrite Z.geb_leb in H; apply Z.leb_gt in H; lia
    end.
  - match goal with
    | H : (pending _ ?s <= max_moves)%nat |- _ =>
        replace (sply (pos w)) with s by lia; frame_chain; exact H
    end.
Qed.

Section Loop.
Variable rec : Z -> Z -> Z -> M Z.
Variable s0 : Z.
Hypothesis Hrec : forall depth alpha beta (w : worker),
  sply (pos w) = s0 + 1 ->
  total (rec depth alpha beta) (fun _ w' => framed 1 (pos w) (pos w')) w.

Lemma quiescence_loop_frame in_check depth beta lf :
  forall st (w : worker),
    sply (pos w) = s0 ->
    (pending (pos w) s0 < lf)%nat ->
    total (quiescence_loop rec in_check depth beta lf st)
      (fun _ w' => framed 1 (pos w) (pos w')) w.
Proof.
  induction lf as [|lf' IH]; intros st w Hs Hlt; [lia|].
  cbn [quiescence_loop]. unfold make_move, unmake_move.
  repeat first
    [ pos_step
    | lazymatch goal with
      | |- wp _ _ (quiescence_loop _ _ _ _ _ _) _ _ =>
          eapply wp_mono; [apply IH | intros ? ? ?]
      | |- wp _ _ (rec _ _ _) _ _ =>
          eapply wp_mono; [apply Hrec | intros ? ? ?]
      end ];
  use_laws; frame_solve; try lia;
  repeat match goal with
  | H : Some _ <> None -> _ |- _ => specialize (H ltac:(discriminate))
  end;
  rewrite ?Hs in *; frame_chain; try lia.
Qed.
End Loop.



Lemma quiescence_body_frame rec lf depth alpha beta (w : worker) :
  (max_moves < lf)%nat ->
  (sply (pos w) < MAX_PLY ->
   forall depth alpha beta (w' : worker),
     sply (pos w') = sply (pos w) + 1 ->
     total (rec depth alpha beta) (fun _ w'' => framed 1 (pos w') (pos w'')) w') ->
  total (quiescence_body rec lf depth alpha beta)
    (fun _ w' => framed 1 (pos w) (pos w')) w.
Proof.
  intros Hlf Hrec. unfold quiescence_body.
  apply wp_bind. eapply wp_mono; [apply quiescence_prelude_frame|].
  intros r w1 [Hf Hr]. destruct r as [v|[[in_check alpha'] best_score]].
  - apply wp_ret. exact Hf.
  - destruct Hr as [Hply Hpend]. apply wp_bind.
    eapply wp_mono.
    + apply quiescence_loop_frame with (s0 := sply (pos w)).
      * exact (Hrec Hply).
      * apply Hf.
      * lia.
    + intros st w2 Hf2. unfold quiescence_result, cur_sply.
      apply wp_bind, wp_gets, wp_ret.
      exact (frame_trans Hf Hf2).
Qed.

Lemma quiescence_frame lf d :
  (max_moves < lf)%nat ->
  forall depth alpha beta (w : worker),
    (0 < d)%nat ->
    MAX_PLY - sply (pos w) < Z.of_nat d ->
    total (quiescence lf d depth alpha beta)
      (fun _ w' => framed 1 (pos w) (pos w')) w.
Proof.
  intros Hlf. induction d as [|d' IH]; intros depth alpha beta w Hd Hply;
    [lia|].
  rewrite quiescence_unfold. apply quiescence_body_frame; [exact Hlf|].
  intros Hlt depth' alpha' beta' w' Hs. apply IH; lia.
Qed.

(** C8. Under the contract of the board and the move selector,
    [quiescence] terminates: with room for more than [max_moves] turns of
    the move loop and for [d >= 1] nested calls, [d > MAX_PLY - sply], it
    never runs out of fuel, so below the first call the recursion is at
    most [MAX_PLY - sply] deep, and it returns at the ply it was called
    at.  A call whose position, once evaluated, is at ply [MAX_PLY] or
    beyond returns the static evaluation and needs no recursive call. *)
Theorem quiescence_terminates (lf d : nat) (depth alpha beta : Z)
  (w : worker) :
  (max_moves < lf)%nat ->
  (0 < d)%nat ->
  MAX_PLY - sply (pos w) < Z.of_nat d ->
  quiescence lf d depth alpha beta w <> OutOfFuel
  /\ (forall v w', quiescence lf d depth alpha beta w = Ret v w' ->
                   sply (pos w') = sply (pos w))
  /\ (forall w1 v w2,
        checkup (qentered depth w) = Ret tt w1 ->
        is_draw (pos w1) = false ->
        evaluate (reset_pv w1) = Ret v w2 ->
        MAX_PLY <= sply (pos w2) ->
        quiescence lf 1 depth alpha beta w = Ret v w2).
Proof.
  intros Hlf Hd Hply.
  pose proof (quiescence_frame Hlf depth alpha beta w Hd Hply) as Hwp.
  unfold wp in Hwp. split; [|split].
  - intros E. rewrite E in Hwp. exact Hwp.
  - intros v w' E. rewrite E in Hwp. apply Hwp.
  - intros w1 v w2 Hc Hdraw Hev Hmax.
    rewrite quiescence_unfold. unfold quiescence_body.
    assert (Hpre : quiescence_prelude depth alpha beta w = Ret (inl v) w2).
    { unfold quiescence_prelude, qentered in *.
      assert (Hrest :
        forall w0, checkup w0 = Ret tt w1 ->
          bind checkup (fun _ =>
            modify (@reset_pv _ _) ;;;
            draw <- gets (fun w => is_draw (pos w)) ;;
            if draw : bool then ret (inl 0)
            else
              static_score <- evaluate ;;
              s <- cur_sply ;;
              if s >=? MAX_PLY then ret (inl static_score)
              else
                in_check <- cur_in_check ;;
                if negb in_check && (static_score >=? beta)
                then ret (inl static_score)
                else
                  let best_score :=
                    if in_check : bool then - INFINITE_SCORE
                    else static_score in
                  let alpha :=
                    if negb in_check && (static_score >? alpha)
                    then static_score else alpha in
                  init_node true false in_check ;;;
                  ' (hit, tt_move, score) <- tt_lookup 0 alpha beta ;;
                  if hit : bool then ret (inl score)
                  else
                    set_tt_move tt_move ;;;
                    ret (inr (in_check, alpha, best_score))) w0
          = Ret (inl v) w2).
      { intros w0 Hc0.
        rewrite (bind_Ret Hc0), bind_modify, bind_gets.
        change (pos (reset_pv w1)) with (pos w1). rewrite Hdraw.
        rewrite (bind_Ret Hev). unfold cur_sply. rewrite bind_gets.
        replace (sply (pos w2) >=? MAX_PLY) with true
          by (symmetry; apply Z.geb_le; lia).
        reflexivity. }
      destruct (depth <? 0).
      - rewrite bind_modify. apply Hrest. exact Hc.
      - rewrite bind_ret. apply Hrest. exact Hc. }
    rewrite (bind_Ret Hpre). reflexivity.
Qed.

End Termination.

(** * The properties on the concrete engine *)

(** The toy engine honours the contract of the board and the selector. *)
Lemma toy_laws : quiescence_laws toy_pending 3.
Proof.
  constructor.
  - intros w r p' E. injection E as _ <-. split; auto.
  - intros w r p' E. injection E as _ <-. split; auto.
  - intros w r p' E. injection E as _ <-. split; auto.
  - intros w r p' E. injection E as _ <-. split; auto.
  - intros p d a b r p' E. cbn in E.
    destruct (t_tt p (t_sply p)); injection E as _ <-; split; auto.
  - intros w m. split; auto.
  - intros w q r c. split; [split|].
    + reflexivity.
    + intros s Hs. cbn in *. unfold toy_pending. cbn.
      rewrite upd1_get. destruct (Z.eqb_spec s (t_sply (pos w))); [lia|reflexivity].
    + cbn. unfold toy_pending. cbn. rewrite upd1_get, Z.eqb_refl.
      destruct (t_moves (pos w) (t_sply (pos w))) as [|? [|? [|? ?]]];
        cbn; lia.
  - intros w om p' E. cbn in E. unfold toy_next in E.
    destruct (t_pick (pos w) (t_sply (pos w))) as [|m rest] eqn:Hp;
      injection E as <- <-.
    + split; [split; auto|]. intros H; contradiction.
    + split; [split|].
      * reflexivity.
      * intros s Hs. cbn in *. unfold toy_pending. cbn.
        rewrite upd1_get. destruct (Z.eqb_spec s (t_sply (pos w))); [lia|reflexivity].
      * intros _. cbn. unfold toy_pending. cbn.
        rewrite upd1_get, Z.eqb_refl, Hp. cbn. lia.
  - intros p m ok p' E. cbn in E.
    destruct (toy_legal m); injection E as <- <-.
    + split; [reflexivity|]. intros s Hs. reflexivity.
    + split; auto.
  - intros p. split; [reflexivity|]. intros s Hs. reflexivity.
Qed.

Lemma update_history_table_capped_witness :
  history_capped
    (history_table (update_history_table (toy_worker toy_start) 1 7))
  /\ history_table
       (update_history_table
          (update_history_table (toy_worker toy_start) 1 7) 1 7) 0 1 0 = 7.
Proof.
  split.
  - destruct (update_history_table_capped (toy_worker toy_start) 1 7)
      as (_ & _ & H).
    apply H; [cbn; lia | cbn; lia | intros s f t _; cbn; lia].
  - destruct (update_history_table_capped
                (update_history_table (toy_worker toy_start) 1 7) 1 7)
      as (H & _ & _).
    destruct (H eq_refl) as (_ & _ & Hhalf).
    rewrite (Hhalf ltac:(vm_compute; reflexivity) 0 1 0 eq_refl).
    reflexivity.
Defined.

(** One halving does not bring an update by a depth above the cap back
    under it: 25 on an empty table with cap 10 leaves 12. *)
Lemma deep_update_exceeds_cap :
  history_capped (X := toy) (history_table (toy_worker toy_start))
  /\ ISCAPTURE (Externals := toy) 1 || ISENPASSANT (Externals := toy) 1 = false
  /\ history_table (update_history_table (toy_worker toy_start) 1 25) 0 1 0
     = 12
  /\ ~ history_capped (X := toy)
        (history_table (update_history_table (toy_worker toy_start) 1 25)).
Proof.
  split; [|split; [|split]].
  - intros s f t _. cbn. lia.
  - reflexivity.
  - vm_compute. reflexivity.
  - intros H. specialize (H 0 1 0 eq_refl). vm_compute in H. apply H.
    reflexivity.
Qed.

Lemma add_killer_move_spec_witness :
  killer_table (add_killer_move (toy_worker toy_start) 100) 0 0 = 100
  /\ killer_table (add_killer_move (toy_worker toy_start) 100) 0 1 = 0.
Proof.
  destruct (add_killer_move_spec (toy_worker toy_start) 100)
    as (_ & _ & H & _).
  destruct (H eq_refl ltac:(discriminate)) as (H0 & H1 & _).
  split; [exact H0 | exact H1].
Defined.

(** A capture that fails the exchange test becomes a killer. *)
Lemma killer_table_holds_capture :
  killers_quiet (X := toy) (killer_table (toy_worker toy_start))
  /\ ~ killers_quiet (X := toy)
         (killer_table (add_killer_move (toy_worker toy_start) 100)).
Proof.
  split.
  - intros ply i. reflexivity.
  - intros H. specialize (H 0 0). vm_compute in H. discriminate H.
Qed.

Lemma update_pv_spec_witness :
  0 <= pv_length (pv_table (toy_worker toy_start) 1)
  /\ pv_line (pv_table (update_pv (toy_worker toy_start) 1) 0) = [1].
Proof.
  split; [cbn; lia|].
  destruct (update_pv_spec (toy_worker toy_start) 1) as (H & _ & _).
  - cbn; lia.
  - exact H.
Defined.

Lemma draw_returns_zero_witness :
  match search 2 1 3 (-10) 10 true (toy_worker toy_draw) with
  | Ret v w' => v = 0 /\ trace w' = trace (toy_worker toy_draw)
  | Jump _ w' => trace w' = trace (toy_worker toy_draw)
  | OutOfFuel => False
  end
  /\ match quiescence 2 1 0 (-10) 10 (toy_worker toy_draw) with
     | Ret v w' => v = 0 /\ trace w' = trace (toy_worker toy_draw)
     | Jump _ w' => trace w' = trace (toy_worker toy_draw)
     | OutOfFuel => False
     end.
Proof.
  pose proof (draw_returns_zero (X := toy) 2 0 (toy_worker toy_draw) 3
                (-10) 10 true) as [Hs _].
  pose proof (draw_returns_zero (X := toy) 2 0 (toy_worker toy_draw) 0
                (-10) 10 true) as [_ Hq].
  split.
  - apply Hs; [discriminate|].
    intros w1 E. vm_compute in E. injection E as <-. reflexivity.
  - apply Hq.
    intros w1 E. vm_compute in E. injection E as <-. reflexivity.
Defined.

Lemma no_legal_move_score_witness :
  (exists w', search 3 1 1 (-30000) 30000 true (toy_worker toy_stalemate)
              = Ret 0 w')
  /\ (exists w', search 3 1 1 (-30000) 30000 true (toy_worker toy_mate_deep)
                 = Ret (-28999) w')
  /\ (exists w', quiescence 3 1 0 (-30000) 30000 (toy_worker toy_mate_deep)
                 = Ret (-28999) w').
Proof.
  split; [|split].
  - destruct (no_legal_move_score (X := toy) 3 0 (toy_worker toy_stalemate) 1
                (-30000) 30000 true) as [Hs _].
    pose (w := toy_worker toy_stalemate).
    pose (w1 := final (search_prelude 1 (-30000) 30000 false true (entered w))
                  w).
    pose (w2 := final (razoring (quiescence 3 0) 1 (-30000) 30000 false true
                         0 0 w1) w).
    pose (w3 := final (null_move_pruning (search 3 0) 1 30000 true false w2)
                  w).
    pose (w4 := final (probcut (search 3 0) 3 1 30000 false true 0 0 w3) w).
    pose (w5 := final (search_moves (search 3 0) 3 1 (-30000) 30000 false
                         true 0 0 w4) w).
    destruct (Hs 0 0 w4 1%nat w5) as (w' & E & _).
    + apply Z.le_refl.
    + exists w2, w3. split; [exists w1; split|split];
        vm_compute; reflexivity.
    + repeat constructor.
    + vm_compute. split; reflexivity.
    + exists w'. exact E.
  - destruct (no_legal_move_score (X := toy) 3 0 (toy_worker toy_mate_deep) 1
                (-30000) 30000 true) as [Hs _].
    pose (w := toy_worker toy_mate_deep).
    pose (w1 := final (search_prelude 1 (-30000) 30000 true true (entered w))
                  w).
    pose (w2 := final (razoring (quiescence 3 0) 1 (-30000) 30000 true true
                         0 0 w1) w).
    pose (w3 := final (null_move_pruning (search 3 0) 1 30000 true true w2)
                  w).
    pose (w4 := final (probcut (search 3 0) 3 1 30000 true true 0 0 w3) w).
    pose (w5 := final (search_moves (search 3 0) 3 1 (-30000) 30000 true
                         true 0 0 w4) w).
    destruct (Hs 0 0 w4 2%nat w5) as (w' & E & _).
    + apply Z.le_refl.
    + exists w2, w3. split; [exists w1; split|split];
        vm_compute; reflexivity.
    + repeat constructor.
    + vm_compute. repeat split.
    + exists w'. exact E.
  - destruct (no_legal_move_score (X := toy) 3 0 (toy_worker toy_mate_deep) 0
                (-30000) 30000 true) as [_ Hq].
    pose (w := toy_worker toy_mate_deep).
    pose (q1 := final (quiescence_prelude 0 (-30000) 30000 w) w).
    pose (q2 := final (quiescence_loop (quiescence 3 0) true 0 30000 3
                         (mk_qloop (-30000) (-30000) false) q1) w).
    exists q2.
    refine (eq_trans
              (proj1 (Hq (-30000) (-30000) q1 2%nat q2 _ _ _)) _).
    + vm_compute. reflexivity.
    + repeat constructor.
    + vm_compute. repeat split.
    + vm_compute. reflexivity.
Defined.

(** The side to move is in check and [board_make_move] refuses its only
    move, yet [quiescence] returns 0 when the fifty-move counter stands at
    100 and the static evaluation at the maximum ply: both returns come
    before the move loop. *)
Lemma mated_quiescence_returns_early :
  (board_in_check (Externals := toy) toy_mate_fifty (stm toy_mate_fifty)
   = true
   /\ (forall m, In m (t_moves toy_mate_fifty (t_sply toy_mate_fifty)) ->
                 fst (board_make_move (Externals := toy) toy_mate_fifty m)
                 = false)
   /\ match quiescence 3 1 0 (-30000) 30000 (toy_worker toy_mate_fifty) with
      | Ret v _ =>
          v = 0 /\ v <> - CHECKMATE + sply (Externals := toy) toy_mate_fifty
      | _ => False
      end)
  /\ (board_in_check (Externals := toy) toy_mate_max_ply
        (stm toy_mate_max_ply) = true
      /\ (forall m, In m (t_moves toy_mate_max_ply (t_sply toy_mate_max_ply)) ->
                    fst (board_make_move (Externals := toy) toy_mate_max_ply m)
                    = false)
      /\ match quiescence 3 1 0 (-30000) 30000
                 (toy_worker toy_mate_max_ply) with
         | Ret v _ =>
             v = 17 /\
             v <> - CHECKMATE + sply (Externals := toy) toy_mate_max_ply
         | _ => False
         end).
Proof.
  split; (split; [reflexivity|split]).
  - intros m [<-|[]]. reflexivity.
  - vm_compute. split; [reflexivity|discriminate].
  - intros m [<-|[]]. reflexivity.
  - vm_compute. split; [reflexivity|discriminate].
Qed.

Lemma null_move_cutoff_witness :
  exists wu, search 3 6 4 (-6) (-5) true (toy_worker toy_start) = Ret 0 wu.
Proof.
  pose (w := toy_worker toy_start).
  pose (w1 := final (search_prelude 4 (-6) (-5) false false (entered w)) w).
  pose (w2 := final (razoring (quiescence 3 5) 4 (-6) (-5) false false 0 0 w1)
                w).
  pose (w3 := final (search 3 5 1 5 6 false (null_move_made w2)) w).
  exists (null_move_unmade w3).
  pose proof (null_move_cutoff (X := toy) (lf := 3) (d := 5) (w := w)
                (depth := 4) (alpha := -6) (beta := -5) (tt_move := 0)
                (static_score := 0) (w2 := w2)) as H.
  cbv zeta in H.
  assert (Hreach : reaches_null_move 3 5 4 (-6) (-5) w 0 0 w2).
  { exists w1. split; vm_compute; reflexivity. }
  specialize (H Hreach eq_refl eq_refl eq_refl).
  destruct H as [_ H].
  assert (E : search 3 5 (4 - (2 + Z.quot 4 6) - 1) (- -5) (- -5 + 1) false
                (null_move_made w2) = Ret 0 w3).
  { vm_compute. reflexivity. }
  rewrite E in H. destruct H as (_ & H & _).
  refine (eq_trans (H _) _).
  - discriminate.
  - reflexivity.
Defined.

Lemma razoring_returns_witness :
  (exists w1,
     search 3 5 1 0 1 true (toy_worker toy_losing) = quiescence 3 4 0 0 1 w1)
  /\ (exists w2, search 3 5 2 0 1 true (toy_worker toy_lost) = Ret (-500) w2).
Proof.
  split.
  - pose (w := toy_worker toy_losing).
    pose (w1 := final (search_prelude 1 0 1 false false (entered w)) w).
    exists w1.
    destruct (razoring_returns (X := toy) 3 4 (w := w) (depth := 1)
                (alpha := 0) (beta := 1) true (static_score := -500)
                (w1 := w1)) as (_ & H & _).
    + split; discriminate.
    + vm_compute. reflexivity.
    + reflexivity.
    + discriminate.
    + discriminate.
    + exact (H eq_refl).
  - pose (w := toy_worker toy_lost).
    pose (w1 := final (search_prelude 2 0 1 false false (entered w)) w).
    pose (w2 := final (quiescence 3 4 0 (-200) (-199) w1) w).
    exists w2.
    destruct (razoring_returns (X := toy) 3 4 (w := w) (depth := 2)
                (alpha := 0) (beta := 1) true (static_score := -500)
                (w1 := w1)) as (_ & _ & H).
    + split; discriminate.
    + vm_compute. reflexivity.
    + reflexivity.
    + discriminate.
    + discriminate.
    + destruct (H ltac:(discriminate) (-500) w2) as [Hlow _].
      * vm_compute. reflexivity.
      * apply Hlow. discriminate.
Defined.

Lemma aspiration_window_schedule_witness :
  exists w1,
    iteration 3 5 (mk_id (-10) 10 0 0 1) (toy_worker toy_fail_high)
    = Ret (Some (mk_id (-10) 100 0 1 1)) w1
    /\ resolving_root_fail w1 = false.
Proof.
  pose (w := toy_worker toy_fail_high).
  pose (w1 := final (search_root 3 5 1 (-10) 10
                       (set_seldepth (set_w_depth w 1) 0)) w).
  exists w1.
  destruct (aspiration_window_schedule (X := toy) 3 5 (mk_id (-10) 10 0 0 1)
              w (w1 := w1) (score := 50)) as (_ & H & _).
  - vm_compute. reflexivity.
  - split; [|reflexivity].
    refine (eq_trans (H _ _ _) _).
    + reflexivity.
    + discriminate.
    + split; discriminate.
    + reflexivity.
Defined.

(** The first iteration (depth 1, infinite window) ends inside the window
    with -50 and clears the flag; the next one (depth 6, window
    [(-75, -25)]) fails high with 0: beta is widened to 50 and the flag
    is still clear. *)
Lemma fail_high_leaves_flag_clear :
  match iteration 3 5 (mk_id (-30000) 30000 0 0 1) (toy_worker toy_deeper) with
  | Ret (Some st1) w1 =>
    st1 = mk_id (-75) (-25) 0 0 6 /\
    resolving_root_fail w1 = false /\
    match search_root 3 5 6 (-75) (-25) (set_seldepth (set_w_depth w1 6) 0)
    with
    | Ret score _ => score = 0
    | _ => False
    end /\
    match iteration 3 5 st1 w1 with
    | Ret (Some st2) w2 =>
      st2 = mk_id (-75) 50 0 1 6 /\ resolving_root_fail w2 = false
    | _ => False
    end
  | _ => False
  end.
Proof. vm_compute. repeat split. Qed.

Lemma quiescence_terminates_witness :
  quiescence 4 4 0 (-30000) 30000 (toy_worker toy_start) <> OutOfFuel.
Proof.
  apply (quiescence_terminates (X := toy) toy_laws (lf := 4) (d := 4) 0
           (-30000) 30000 (toy_worker toy_start)).
  - repeat constructor.
  - repeat constructor.
  - reflexivity.
Defined.

Lemma null_moves_never_consecutive_witness :
  log_ok (trace (toy_worker toy_start))
  /\ match search 3 8 5 (-10) 10 true (toy_worker toy_start) with
     | Ret _ w' =>
       log_ok (trace w') /\
       line_of (trace w') = line_of (trace (toy_worker toy_start))
     | Jump _ w' => log_ok (trace w')
     | OutOfFuel => True
     end.
Proof.
  split; [exact I|].
  pose proof (null_moves_never_consecutive (X := toy) 3 8 5 (-10) 10
                (try_null := true) (toy_worker toy_start)) as H.
  specialize (H I). specialize (H (fun _ => eq_refl)).
  destruct H as [H _]. exact H.
Defined.

(** * Invariants of the search *)

Ltac bool_hyps :=
  repeat match goal with
  | H : _ && _ = true |- _ => apply andb_prop in H; destruct H
  | H : negb _ = true |- _ => apply negb_true_iff in H
  | H : negb _ = false |- _ => apply negb_false_iff in H
  | H : (_ >? _) = true |- _ => rewrite Z.gtb_ltb in H
  | H : (_ >? _) = false |- _ => rewrite Z.gtb_ltb in H
  | H : (_ >=? _) = true |- _ => rewrite Z.geb_leb in H
  | H : (_ >=? _) = false |- _ => rewrite Z.geb_leb in H
  | H : (_ <? _) = true |- _ => apply Z.ltb_lt in H
  | H : (_ <? _) = false |- _ => apply Z.ltb_ge in H
  | H : (_ <=? _) = true |- _ => apply Z.leb_le in H
  | H : (_ <=? _) = false |- _ => apply Z.leb_gt in H
  | H : (_ =? _) = true |- _ => apply Z.eqb_eq in H
  | H : (_ =? _) = false |- _ => apply Z.eqb_neq in H
  end.

Create HintDb kept.

Section KeptRules.
Context {position : Type} {X : Externals position}.
Local Abbreviation worker := (search_worker position).
Local Abbreviation M := (search_M position).
Variable R : worker -> worker -> Prop.
Variable J : exception -> worker -> Prop.
Hypothesis stable : quiescence_stable R J.
Local Abbreviation keeps := (kept R J).

Lemma kept_bind {A B} (m : M A) (f : A -> M B) :
  keeps m -> (forall a, keeps (f a)) -> keeps (bind m f).
Proof.
  intros Hm Hf w. specialize (Hm w). unfold wp, bind in *.
  destruct (m w) as [a w1|e w1|]; auto.
  specialize (Hf a w1). unfold wp in Hf.
  destruct (f a w1) as [b w2|e w2|]; auto.
  - eapply stable_trans; eauto.
  - destruct Hf. split; [eapply stable_trans; eauto|assumption].
Qed.

Lemma kept_ret {A} (a : A) : keeps (ret a : M A).
Proof. intros w. apply (stable_refl stable). Qed.

Lemma kept_gets {A} (f : worker -> A) : keeps (gets f).
Proof. intros w. apply (stable_refl stable). Qed.

Lemma kept_modify (f : worker -> worker) :
  (forall w, R w (f w)) -> keeps (modify f).
Proof. intros H w. apply H. Qed.

Lemma kept_call {A} (f : worker -> A * position) : keeps (call f).
Proof. intros w. apply wp_call. intros a p _. apply (stable_pos stable). Qed.

Lemma kept_call_ (f : worker -> position) : keeps (call_ f).
Proof. intros w. apply (stable_pos stable). Qed.

Lemma kept_emit ev : keeps (emit ev).
Proof. intros w. apply (stable_trace stable). Qed.

Lemma kept_out_of_fuel {A} : keeps (out_of_fuel : M A).
Proof. intros w. exact I. Qed.


Lemma kept_checkup : keeps checkup.
Proof.
  intros w. unfold checkup.
  apply wp_bind, wp_call. intros [stop abort] p _. cbn beta iota.
  apply wp_bind, wp_gets, wp_bind.
  destruct (stop && (abort || negb (resolving_root_fail (set_pos w p)))).
  - apply wp_longjmp. split; [apply (stable_pos stable)|apply (stable_stop stable)].
  - apply wp_ret, wp_bind, wp_gets.
    destruct (negb (CHECKUP (nodes (set_pos w p)))) eqn:Hn.
    + apply wp_ret. apply (stable_pos stable).
    + apply negb_false_iff in Hn.
      apply wp_bind, wp_call. intros ok p1 _. apply wp_bind.
      destruct (negb ok).
      * apply wp_bind, wp_call_, wp_longjmp. split.
        -- cbn [set_pos pos]. apply (stable_pos stable w).
        -- apply (stable_timeout stable). exact Hn.
      * apply wp_ret, wp_bind, wp_gets.
        destruct (id (set_pos (set_pos w p) p1) =? 0) eqn:Hid.
        -- apply wp_bind, wp_call. intros inp p2 _.
           destruct inp.
           ++ apply wp_bind, wp_call_, wp_longjmp. split.
              ** apply (stable_pos stable w).
              ** apply (stable_command stable); [exact Hn|].
                 apply Z.eqb_eq in Hid. exact Hid.
           ++ apply wp_ret. apply (stable_pos stable w).
        -- apply wp_ret. apply (stable_pos stable w).
Qed.


Ltac kept_side :=
  first
    [ assumption
    | apply (stable_qnodes stable)
    | apply (stable_reset_pv stable)
    | apply (stable_update_pv stable) ].

Ltac kept_depth := fail.

Ltac kept_step :=
  lazymatch goal with
  | |- kept _ _ (bind _ _) => apply kept_bind; [ | intros ? ]
  | |- kept _ _ (if ?b then _ else _) => destruct b eqn:?
  | |- kept _ _ (match ?x with (_, _) => _ end) => destruct x
  | |- kept _ _ (match ?x with Some _ => _ | None => _ end) => destruct x
  | |- kept _ _ (match ?x with inl _ => _ | inr _ => _ end) => destruct x
  | |- kept _ _ (ret _) => apply kept_ret
  | |- kept _ _ (gets _) => apply kept_gets
  | |- kept _ _ (call _) => apply kept_call
  | |- kept _ _ (call_ _) => apply kept_call_
  | |- kept _ _ (emit _) => apply kept_emit
  | |- kept _ _ out_of_fuel => apply kept_out_of_fuel
  | |- kept _ _ checkup => apply kept_checkup
  | |- kept _ _ (modify _) => apply kept_modify; intros ?; kept_side
  | |- kept _ _ _ =>
      first [ solve [ auto with kept ]
            | match goal with
              | H : forall _, _ |- _ =>
                  solve [ apply H; first [ assumption | kept_depth ] ]
              end ]
  end; cbv beta iota zeta.

Lemma kept_make_move m : keeps (make_move m).
Proof. unfold make_move. repeat kept_step. Qed.
Lemma kept_unmake_move : keeps unmake_move.
Proof. unfold unmake_move. repeat kept_step. Qed.
Lemma kept_make_null_move : keeps make_null_move.
Proof. unfold make_null_move. repeat kept_step. Qed.
Lemma kept_unmake_null_move : keeps unmake_null_move.
Proof. unfold unmake_null_move. repeat kept_step. Qed.
Lemma kept_evaluate : keeps evaluate.
Proof. unfold evaluate. repeat kept_step. Qed.
Lemma kept_tt_lookup depth alpha beta : keeps (tt_lookup depth alpha beta).
Proof. unfold tt_lookup. repeat kept_step. Qed.
Lemma kept_tt_store m depth score flag : keeps (tt_store m depth score flag).
Proof. unfold tt_store. repeat kept_step. Qed.
Lemma kept_init_node q r c : keeps (init_node q r c).
Proof. unfold init_node. repeat kept_step. Qed.
Lemma kept_set_tt_move m : keeps (set_tt_move m).
Proof. unfold set_tt_move. repeat kept_step. Qed.
#[local] Hint Resolve kept_make_move kept_unmake_move kept_make_null_move
  kept_unmake_null_move kept_evaluate kept_tt_lookup kept_tt_store
  kept_init_node kept_set_tt_move : kept.

Section QuiescenceKept.
Variable rec : Z -> Z -> Z -> M Z.
Hypothesis Hrec : forall depth alpha beta, keeps (rec depth alpha beta).

Lemma kept_quiescence_prelude depth alpha beta :
  keeps (quiescence_prelude depth alpha beta).
Proof. unfold quiescence_prelude, cur_sply, cur_in_check. repeat kept_step. Qed.
#[local] Hint Resolve kept_quiescence_prelude : kept.

Lemma kept_quiescence_loop in_check depth beta lf : forall st,
  keeps (quiescence_loop rec in_check depth beta lf st).
Proof.
  induction lf as [|lf' IH]; intros st; cbn [quiescence_loop];
    repeat kept_step.
Qed.
#[local] Hint Resolve kept_quiescence_loop : kept.

Lemma kept_quiescence_body lf depth alpha beta :
  keeps (quiescence_body rec lf depth alpha beta).
Proof. unfold quiescence_body, quiescence_result, cur_sply. repeat kept_step. Qed.

End QuiescenceKept.

Lemma kept_quiescence lf d : forall depth alpha beta,
  keeps (quiescence lf d depth alpha beta).
Proof.
  induction d as [|d' IH]; intros depth alpha beta.
  - apply kept_out_of_fuel.
  - apply kept_quiescence_body. exact IH.
Qed.

Section KeptSearch.
Variable D : Z -> Prop.
Hypothesis sstable : search_stable R D.

Lemma stable_raise_seldepth (w : worker) :
  R w (if sply (pos w) >? seldepth w then set_seldepth w (sply (pos w)) else w).
Proof.
  destruct (sply (pos w) >? seldepth w) eqn:E.
  - apply (stable_seldepth sstable). bool_hyps. exact E.
  - apply (stable_refl stable).
Qed.

Ltac kept_side ::=
  first
    [ assumption
    | apply (stable_qnodes stable)
    | apply stable_raise_seldepth
    | apply (stable_nodes sstable)
    | apply (stable_reset_pv stable)
    | apply (stable_update_pv stable)
    | apply (stable_killer sstable)
    | apply (stable_history sstable); assumption ].

Ltac kept_depth ::=
  eapply (stable_down sstable); [eassumption|];
  bool_hyps;
  unfold NULLMOVE_DEPTH, NULLMOVE_BASE_REDUCTION, NULLMOVE_DIVISOR,
    PROBCUT_DEPTH in *;
  try match goal with
      | |- context [Z.quot ?a ?b] => pose proof (Z.quot_pos a b)
      end;
  try lia.

Section NodeKept.
Variable rec : Z -> Z -> Z -> bool -> M Z.
Variable quiesce : Z -> Z -> Z -> M Z.
Hypothesis Hrec : forall depth alpha beta try_null,
  D depth -> keeps (rec depth alpha beta try_null).
Hypothesis Hquiesce : forall depth alpha beta, keeps (quiesce depth alpha beta).

Lemma kept_search_prelude depth alpha beta in_check pv_node :
  keeps (search_prelude depth alpha beta in_check pv_node).
Proof. unfold search_prelude, cur_has_non_pawn. repeat kept_step. Qed.
#[local] Hint Resolve kept_search_prelude : kept.

Lemma kept_razoring depth alpha beta in_check pv_node tt_move static_score :
  keeps (razoring quiesce depth alpha beta in_check pv_node tt_move
           static_score).
Proof. unfold razoring. repeat kept_step. Qed.
#[local] Hint Resolve kept_razoring : kept.

Lemma kept_null_move_pruning depth beta try_null in_check :
  D depth -> keeps (null_move_pruning rec depth beta try_null in_check).
Proof.
  intros HD. unfold null_move_pruning, cur_has_non_pawn. repeat kept_step.
Qed.
#[local] Hint Resolve kept_null_move_pruning : kept.

Lemma kept_probcut_loop depth threshold static_score lf :
  D depth -> keeps (probcut_loop rec depth threshold static_score lf).
Proof.
  intros HD. induction lf as [|lf' IH]; cbn [probcut_loop]; repeat kept_step.
Qed.
#[local] Hint Resolve kept_probcut_loop : kept.

Lemma kept_probcut lf depth beta in_check pv_node tt_move static_score :
  D depth ->
  keeps (probcut rec lf depth beta in_check pv_node tt_move static_score).
Proof. intros HD. unfold probcut, cur_has_non_pawn. repeat kept_step. Qed.
#[local] Hint Resolve kept_probcut : kept.

Lemma kept_search_move new_depth reduction alpha beta best_score pv_node :
  D (new_depth - 1) -> 0 <= reduction ->
  keeps (search_move rec new_depth reduction alpha beta best_score pv_node).
Proof. intros HD Hr. unfold search_move. repeat kept_step. Qed.
#[local] Hint Resolve kept_search_move : kept.

Lemma kept_search_loop depth beta in_check pv_node futility_pruning tt_move lf :
  0 < depth -> D depth ->
  forall st,
    keeps (search_loop rec depth beta in_check pv_node futility_pruning
             tt_move lf st).
Proof.
  intros Hpos HD.
  induction lf as [|lf' IH]; intros st; cbn [search_loop].
  - kept_step.
  - unfold cur_in_check. repeat kept_step.
    apply kept_search_move.
    + match goal with |- context [if ?c then _ else _] => destruct c end;
        kept_depth.
    + repeat match goal with
             | |- context [if ?c then _ else _] => destruct c
             end; lia.
Qed.
#[local] Hint Resolve kept_search_loop : kept.

Lemma kept_search_finish depth in_check st :
  keeps (search_finish depth in_check st).
Proof. unfold search_finish, cur_sply. repeat kept_step. Qed.
#[local] Hint Resolve kept_search_finish : kept.

Lemma kept_search_moves lf depth alpha beta in_check pv_node tt_move
  static_score :
  0 < depth -> D depth ->
  keeps (search_moves rec lf depth alpha beta in_check pv_node tt_move
           static_score).
Proof. intros Hpos HD. unfold search_moves. repeat kept_step. Qed.
#[local] Hint Resolve kept_search_moves : kept.

Lemma kept_search_body lf depth alpha beta try_null :
  D depth -> keeps (search_body rec quiesce lf depth alpha beta try_null).
Proof.
  intros HD.
  unfold search_body, search_from_null_move, or_else, cur_in_check.
  repeat kept_step.
  apply kept_search_moves; [bool_hyps; lia|assumption].
Qed.

Lemma kept_search_body_entered lf depth alpha beta try_null (w : worker) :
  D depth ->
  wp True (fun e w' => R (entered w) w' /\ J e w')
    (search_body rec quiesce lf depth alpha beta try_null)
    (fun _ w' => R (entered w) w') w.
Proof.
  intros HD. unfold search_body.
  apply wp_bind, wp_modify.
  match goal with
  | |- wp _ _ ?m _ ?w0 => assert (H : keeps m); [|exact (H w0)]
  end.
  unfold search_from_null_move, or_else, cur_in_check.
  repeat kept_step.
  apply kept_search_moves; [bool_hyps; lia|assumption].
Qed.

End NodeKept.

Lemma kept_search lf d : forall depth alpha beta try_null,
  D depth -> keeps (search lf d depth alpha beta try_null).
Proof.
  induction d as [|d' IH]; intros depth alpha beta try_null HD.
  - apply kept_out_of_fuel.
  - apply kept_search_body; auto using kept_quiescence.
Qed.

(** The same from the state in which [search] has counted its node. *)
Lemma kept_search_entered lf d depth alpha beta try_null (w : worker) :
  D depth ->
  wp True (fun e w' => R (entered w) w' /\ J e w')
    (search lf (S d) depth alpha beta try_null)
    (fun _ w' => R (entered w) w') w.
Proof.
  intros HD. cbn [search].
  apply kept_search_body_entered; auto using kept_search, kept_quiescence.
Qed.

Section KeptRoot.
Hypothesis rstable : root_stable R.

Ltac kept_side ::=
  first
    [ assumption
    | apply (stable_update_pv stable)
    | apply (stable_killer sstable)
    | apply (stable_history sstable); assumption
    | apply (stable_root_pv rstable)
    | apply (stable_currmove rstable)
    | apply (stable_currmovenumber rstable)
    | apply (stable_best_move rstable) ].

Lemma kept_search_root_loop (rec : Z -> Z -> Z -> bool -> M Z) depth beta lf :
  (forall depth alpha beta try_null,
     D depth -> keeps (rec depth alpha beta try_null)) ->
  0 < depth -> D depth ->
  forall st, keeps (search_root_loop rec depth beta lf st).
Proof.
  intros Hrec Hpos HD.
  induction lf as [|lf' IH]; intros st; cbn [search_root_loop].
  - kept_step.
  - unfold cur_in_check. repeat kept_step.
    apply Hrec.
    match goal with |- context [if ?c then _ else _] => destruct c end;
      kept_depth.
Qed.

Lemma kept_search_root lf d depth alpha beta :
  0 < depth -> D depth -> keeps (search_root lf d depth alpha beta).
Proof.
  intros Hpos HD. unfold search_root, cur_in_check. repeat kept_step.
  apply kept_search_root_loop; auto using kept_search.
Qed.

End KeptRoot.

End KeptSearch.

End KeptRules.

Section Invariants.
Context {position : Type} {X : Externals position}.
Local Abbreviation worker := (search_worker position).
Local Abbreviation M := (search_M position).

Local Abbreviation any_jump := (fun (_ : exception) (_ : worker) => True).
Local Abbreviation any_depth := (fun _ : Z => True).

Ltac stable_easy :=
  split; intros;
  try solve [ exact I | reflexivity | assumption | tauto
            | cbn; tauto | cbn; lia | cbn; intuition congruence ].

(** *** The history table *)

Lemma update_history_table_bounded (w : worker) (m : move) (depth : Z) :
  0 < depth -> depth <= MAX_HISTORY_SCORE ->
  history_bounded (history_table w) ->
  history_bounded (history_table (update_history_table w m depth)).
Proof.
  intros Hpos Hd Hinv. unfold update_history_table.
  destruct (ISCAPTURE m || ISENPASSANT m); [exact Hinv|].
  set (h1 := upd3 (history_table w) (stm (pos w)) (FROM m) (TO m)
               (history_table w (stm (pos w)) (FROM m) (TO m) + depth)).
  assert (Hb : forall s f t, in_history s f t = true ->
                 0 <= h1 s f t <= 2 * MAX_HISTORY_SCORE).
  { intros s f t Hin. pose proof (Hinv s f t Hin) as Hold.
    unfold h1. rewrite upd3_get.
    destruct ((s =? stm (pos w)) && (f =? FROM m) && (t =? TO m)) eqn:E.
    - apply andb_prop in E as [E E3]. apply andb_prop in E as [E1 E2].
      apply Z.eqb_eq in E1, E2, E3. subst. lia.
    - lia. }
  rewrite Z.gtb_ltb.
  destruct (Z.ltb_spec MAX_HISTORY_SCORE
              (h1 (stm (pos w)) (FROM m) (TO m))) as [Hgt|Hle].
  - intros s f t Hin. cbn. rewrite halve_history_spec, Hin.
    pose proof (Hb s f t Hin). split.
    + apply Z.quot_pos; lia.
    + apply Z.quot_le_upper_bound; lia.
  - intros s f t Hin. cbn. pose proof (Hinv s f t Hin) as Hold.
    pose proof (Hb s f t Hin) as Hnew. split; [lia|].
    unfold h1 in *. rewrite upd3_get in *.
    destruct ((s =? stm (pos w)) && (f =? FROM m) && (t =? TO m)) eqn:E.
    + apply andb_prop in E as [E E3]. apply andb_prop in E as [E1 E2].
      apply Z.eqb_eq in E1, E2, E3. subst.
      rewrite !Z.eqb_refl in Hle. cbn in Hle. lia.
    + lia.
Qed.

Local Abbreviation keeps_bounded :=
  (fun w w' : worker =>
     history_bounded (history_table w) -> history_bounded (history_table w')).

Lemma bounded_quiescence_stable : quiescence_stable keeps_bounded any_jump.
Proof. stable_easy; auto. Qed.

Lemma bounded_search_stable :
  search_stable keeps_bounded (fun depth => depth <= MAX_HISTORY_SCORE).
Proof.
  stable_easy.
  - unfold add_killer_move.
    repeat match goal with
           | |- context [if ?c then _ else _] => destruct c
           end; assumption.
  - apply update_history_table_bounded; assumption.
Qed.

Lemma bounded_root_stable : root_stable keeps_bounded.
Proof. stable_easy. Qed.

(** X1. The bounds of the history table are an invariant of the whole
    search: when every cell is between 0 and [MAX_HISTORY_SCORE], and the
    depth is not above [MAX_HISTORY_SCORE], every cell still is when
    [search] returns or leaves by [longjmp], and the same holds for
    [search_root] at a positive depth. *)
Theorem search_keeps_history_bounded (lf d : nat) (depth alpha beta : Z)
  (try_null : bool) (w : worker) :
  depth <= MAX_HISTORY_SCORE ->
  history_bounded (history_table w) ->
  match search lf d depth alpha beta try_null w with
  | Ret _ w' | Jump _ w' => history_bounded (history_table w')
  | OutOfFuel => True
  end
  /\ (0 < depth ->
      match search_root lf d depth alpha beta w with
      | Ret _ w' | Jump _ w' => history_bounded (history_table w')
      | OutOfFuel => True
      end).
Proof.
  intros Hd Hinv. split.
  - pose proof (kept_search bounded_quiescence_stable bounded_search_stable
                  lf d depth alpha beta try_null Hd w) as H.
    unfold wp in H.
    destruct (search lf d depth alpha beta try_null w); try tauto.
  - intros Hpos.
    pose proof (kept_search_root bounded_quiescence_stable
                  bounded_search_stable bounded_root_stable
                  lf d alpha beta Hpos Hd w) as H.
    unfold wp in H.
    destruct (search_root lf d depth alpha beta w); try tauto.
Qed.

(** *** The node counters *)

Ltac split_ifs :=
  repeat match goal with
         | |- context [if ?c then _ else _] => destruct c
         end.

Lemma counters_quiescence_stable : quiescence_stable counters_grow any_jump.
Proof. unfold counters_grow. stable_easy. Qed.

Lemma counters_search_stable : search_stable counters_grow any_depth.
Proof.
  unfold counters_grow. stable_easy.
  - unfold add_killer_move. split_ifs; cbn; lia.
  - unfold update_history_table. split_ifs; cbn; lia.
Qed.

(** X2. Every call of [search] counts itself: when it returns or leaves by
    [longjmp] the node counter is larger than at entry, the nodes that
    [quiescence] has counted in [qnodes] are among the new ones but not
    all of them, and the selective depth has not gone down. *)
Theorem search_counts_nodes (lf d : nat) (depth alpha beta : Z)
  (try_null : bool) (w : worker) :
  match search lf d depth alpha beta try_null w with
  | Ret _ w' | Jump _ w' =>
      nodes w < nodes w' /\
      0 <= qnodes w' - qnodes w < nodes w' - nodes w /\
      seldepth w <= seldepth w'
  | OutOfFuel => True
  end.
Proof.
  destruct d as [|d]; [exact I|].
  pose proof (kept_search_entered counters_quiescence_stable
                counters_search_stable lf d depth alpha beta try_null w I)
    as H.
  unfold wp in H.
  destruct (search lf (S d) depth alpha beta try_null w); try exact I;
    unfold counters_grow, entered in H;
    cbn [nodes qnodes seldepth set_nodes] in H; lia.
Qed.

(** *** What the nodes leave alone *)

Local Abbreviation quiescence_footprint :=
  (fun w w' : worker =>
     same_root_fields w w' /\ same_search_fields w w' /\
     0 <= qnodes w' - qnodes w /\
     nodes w' - nodes w = qnodes w' - qnodes w).

Ltac stable_fields :=
  split; intros; cbn;
  repeat match goal with H : _ /\ _ |- _ => destruct H end;
  repeat split; try exact I; try reflexivity; try congruence; try lia.

Lemma footprint_quiescence_stable :
  quiescence_stable quiescence_footprint any_jump.
Proof. unfold same_root_fields, same_search_fields. stable_fields. Qed.

(** X3. [quiescence] writes nothing of the worker but the two node
    counters, which it advances together, and the PV table: history and
    killer tables, selective depth, iteration depth, current and best
    move and the root flags are what they were, on return and on
    [longjmp]. *)
Theorem quiescence_footprint_small (lf d : nat) (depth alpha beta : Z)
  (w : worker) :
  match quiescence lf d depth alpha beta w with
  | Ret _ w' | Jump _ w' =>
      same_root_fields w w' /\ same_search_fields w w' /\
      0 <= qnodes w' - qnodes w /\
      nodes w' - nodes w = qnodes w' - qnodes w
  | OutOfFuel => True
  end.
Proof.
  pose proof (kept_quiescence footprint_quiescence_stable
                lf d depth alpha beta w) as H.
  unfold wp in H.
  destruct (quiescence lf d depth alpha beta w); tauto.
Qed.

Lemma root_fields_quiescence_stable :
  quiescence_stable same_root_fields any_jump.
Proof. unfold same_root_fields. stable_fields. Qed.

Lemma root_fields_search_stable : search_stable same_root_fields any_depth.
Proof.
  unfold same_root_fields. stable_fields;
    unfold add_killer_move, update_history_table; split_ifs; reflexivity.
Qed.

Local Abbreviation same_iteration_fields :=
  (fun w w' : worker =>
     w_depth w' = w_depth w /\
     resolving_root_fail w' = resolving_root_fail w /\
     id w' = id w).

Lemma iteration_fields_quiescence_stable :
  quiescence_stable same_iteration_fields any_jump.
Proof. stable_fields. Qed.

Lemma iteration_fields_search_stable :
  search_stable same_iteration_fields any_depth.
Proof.
  stable_fields;
    unfold add_killer_move, update_history_table; split_ifs; reflexivity.
Qed.

Lemma iteration_fields_root_stable : root_stable same_iteration_fields.
Proof. stable_fields. Qed.

(** X4. The bookkeeping of the root belongs to the root: [search] never
    writes the iteration depth, the current move and its number, the best
    and the ponder move, [resolving_root_fail] or the worker id, and
    [search_root] never writes the iteration depth, [resolving_root_fail]
    or the worker id. *)
Theorem search_leaves_root_fields (lf d : nat) (depth alpha beta : Z)
  (try_null : bool) (w : worker) :
  match search lf d depth alpha beta try_null w with
  | Ret _ w' | Jump _ w' => same_root_fields w w'
  | OutOfFuel => True
  end
  /\
  (0 < depth ->
   match search_root lf d depth alpha beta w with
   | Ret _ w' | Jump _ w' =>
       w_depth w' = w_depth w /\
       resolving_root_fail w' = resolving_root_fail w /\
       id w' = id w
   | OutOfFuel => True
   end).
Proof.
  split.
  - pose proof (kept_search root_fields_quiescence_stable
                  root_fields_search_stable lf d depth alpha beta try_null
                  I w) as H.
    unfold wp in H.
    destruct (search lf d depth alpha beta try_null w); tauto.
  - intros Hpos.
    pose proof (kept_search_root iteration_fields_quiescence_stable
                  iteration_fields_search_stable iteration_fields_root_stable
                  lf d alpha beta Hpos I w) as H.
    unfold wp in H.
    destruct (search_root lf d depth alpha beta w); tauto.
Qed.

(** *** When the clock and the input are polled *)

Local Abbreviation same_id := (fun w w' : worker => id w' = id w).

Lemma polled_quiescence_stable : quiescence_stable same_id polled.
Proof. stable_fields; assumption. Qed.

Lemma polled_search_stable : search_stable same_id any_depth.
Proof.
  stable_fields;
    unfold add_killer_move, update_history_table; split_ifs; reflexivity.
Qed.

Lemma polled_root_stable : root_stable same_id.
Proof. stable_fields. Qed.

(** *** The lengths of the stored PVs *)

Local Abbreviation keeps_pv_lengths :=
  (fun w w' : worker =>
     pv_lengths_ok (pv_table w) -> pv_lengths_ok (pv_table w')).

Lemma update_pv_lengths_ok (w : worker) (m : move) :
  pv_lengths_ok (pv_table w) -> pv_lengths_ok (pv_table (update_pv w m)).
Proof.
  intros H ply. unfold update_pv. cbn [pv_table set_pv_table].
  assert (Hs : (sply (pos w) + 1 =? sply (pos w)) = false)
    by (apply Z.eqb_neq; lia).
  rewrite !upd1_get.
  destruct (ply =? sply (pos w)).
  - rewrite Hs. cbn [pv_length]. pose proof (H (sply (pos w) + 1)). lia.
  - apply H.
Qed.

Lemma pv_lengths_quiescence_stable :
  quiescence_stable keeps_pv_lengths any_jump.
Proof.
  stable_easy; auto.
  - intros ply. unfold reset_pv. cbn [pv_table set_pv_table].
    rewrite upd1_get. destruct (ply =? sply (pos w)); [cbn; lia|auto].
  - apply update_pv_lengths_ok. assumption.
Qed.

Lemma pv_lengths_search_stable : search_stable keeps_pv_lengths any_depth.
Proof.
  stable_easy;
    unfold add_killer_move, update_history_table; split_ifs; assumption.
Qed.

Lemma pv_lengths_root_stable : root_stable keeps_pv_lengths.
Proof.
  stable_easy.
  intros ply. cbn [pv_table set_pv_table].
  rewrite upd1_get. destruct (ply =? 0); [cbn; lia|auto].
Qed.

(** X5. The lengths of the stored PVs never go negative: when none is
    negative at entry, none is when [quiescence], [search] or
    [search_root] (at a positive depth) return or leave by [longjmp], so
    [update_pv] always finds the length it copies by non-negative. *)
Theorem search_keeps_pv_lengths (lf d : nat) (depth alpha beta : Z)
  (try_null : bool) (w : worker) :
  pv_lengths_ok (pv_table w) ->
  match quiescence lf d depth alpha beta w with
  | Ret _ w' | Jump _ w' => pv_lengths_ok (pv_table w')
  | OutOfFuel => True
  end
  /\
  match search lf d depth alpha beta try_null w with
  | Ret _ w' | Jump _ w' => pv_lengths_ok (pv_table w')
  | OutOfFuel => True
  end
  /\
  (0 < depth ->
   match search_root lf d depth alpha beta w with
   | Ret _ w' | Jump _ w' => pv_lengths_ok (pv_table w')
   | OutOfFuel => True
   end).
Proof.
  intros Hinv. repeat split.
  - pose proof (kept_quiescence pv_lengths_quiescence_stable
                  lf d depth alpha beta w) as H.
    unfold wp in H.
    destruct (quiescence lf d depth alpha beta w); tauto.
  - pose proof (kept_search pv_lengths_quiescence_stable
                  pv_lengths_search_stable lf d depth alpha beta try_null
                  I w) as H.
    unfold wp in H.
    destruct (search lf d depth alpha beta try_null w); tauto.
  - intros Hpos.
    pose proof (kept_search_root pv_lengths_quiescence_stable
                  pv_lengths_search_stable pv_lengths_root_stable
                  lf d alpha beta Hpos I w) as H.
    unfold wp in H.
    destruct (search_root lf d depth alpha beta w); tauto.
Qed.

(** X6. The search is left by [longjmp] with [EXCEPTION_TIMEOUT] or
    [EXCEPTION_COMMAND] only at a node count that is a multiple of 1024
    (the clock and the input are not looked at in between), and with
    [EXCEPTION_COMMAND] only in the worker whose id is 0. *)
Theorem longjmp_only_when_polled (lf d : nat) (depth alpha beta : Z)
  (try_null : bool) (w : worker) :
  match search lf d depth alpha beta try_null w with
  | Jump e w' =>
      (e <> EXCEPTION_STOP -> Z.land (nodes w') 1023 = 0) /\
      (e = EXCEPTION_COMMAND -> id w = 0)
  | _ => True
  end
  /\
  match quiescence lf d depth alpha beta w with
  | Jump e w' =>
      (e <> EXCEPTION_STOP -> Z.land (nodes w') 1023 = 0) /\
      (e = EXCEPTION_COMMAND -> id w = 0)
  | _ => True
  end.
Proof.
  assert (Hpolled : forall e (w' : worker), id w' = id w /\ polled e w' ->
            (e <> EXCEPTION_STOP -> Z.land (nodes w') 1023 = 0) /\
            (e = EXCEPTION_COMMAND -> id w = 0)).
  { intros e w' [Hid Hp]. unfold polled, CHECKUP in Hp.
    destruct e; split; intros; try congruence.
    - apply Z.eqb_eq. tauto.
    - destruct Hp. congruence.
    - apply Z.eqb_eq. exact Hp. }
  split.
  - pose proof (kept_search polled_quiescence_stable polled_search_stable
                  lf d depth alpha beta try_null I w) as H.
    unfold wp in H.
    destruct (search lf d depth alpha beta try_null w); auto.
  - pose proof (kept_quiescence polled_quiescence_stable
                  lf d depth alpha beta w) as H.
    unfold wp in H.
    destruct (quiescence lf d depth alpha beta w); auto.
Qed.

End Invariants.

Section MoreNodes.
Context {position : Type} {X : Externals position}.
Local Abbreviation worker := (search_worker position).
Local Abbreviation M := (search_M position).

(** X7. A move that [add_killer_move] accepts is a killer of the ply
    afterwards, the former first killer of the ply still is one, and two
    different killers of a ply stay different. *)
Theorem added_killer_is_killer (w : worker) (m : move) :
  let s := sply (pos w) in
  let w' := add_killer_move w m in
  (is_capture m && see_ge (pos w) m 0 = false ->
   is_killer_move w' m = true)
  /\ is_killer_move w' (killer_table w s 0) = true
  /\ (killer_table w s 0 <> killer_table w s 1 ->
      killer_table w' s 0 <> killer_table w' s 1).
Proof.
  cbn zeta. unfold is_killer_move, add_killer_move, is_capture.
  destruct ((ISCAPTURE m || ISENPASSANT m) && see_ge (pos w) m 0) eqn:Hrej.
  - split; [discriminate|]. split; [|auto].
    rewrite Z.eqb_refl. reflexivity.
  - destruct (Z.eqb_spec m (killer_table w (sply (pos w)) 0)) as [E|NE].
    + split; [|split; [|auto]].
      * intros _. rewrite <- E, Z.eqb_refl. reflexivity.
      * rewrite Z.eqb_refl. reflexivity.
    + cbn [pos killer_table set_killer_table].
      rewrite !upd2_get, !Z.eqb_refl. cbn [andb].
      replace (1 =? 0) with false by reflexivity.
      replace (0 =? 1) with false by reflexivity.
      cbn [andb]. rewrite ?Z.eqb_refl.
      split; [reflexivity|]. split; [apply orb_true_r|].
      intros _. exact NE.
Qed.

(** *** The move loop of [search] *)

Lemma search_loop_flag (rec : Z -> Z -> Z -> bool -> M Z) depth alpha0 beta
  in_check pv_node futility_pruning tt_move lf :
  forall st w,
    loop_open alpha0 beta st ->
    wp True (fun _ _ => True)
      (search_loop rec depth beta in_check pv_node futility_pruning tt_move
         lf st)
      (fun st' _ => flag_agrees alpha0 beta st') w.
Proof.
  induction lf as [|lf' IH]; intros st w Hinv; cbn [search_loop].
  - exact I.
  - unfold make_move, unmake_move, cur_in_check.
    assert (Hst : flag_agrees alpha0 beta st).
    { destruct Hinv as [H|H]; [left|right; left]; exact H. }
    assert (Hst1 : forall n b,
              loop_open alpha0 beta
                (mk_loop (s_alpha st) (s_best_score st) (s_best_move st)
                   (s_tt_flag st) n b)).
    { intros n b. exact Hinv. }
    repeat first
      [ apply IH
      | match goal with
        | |- wp _ _ (bind (search_move _ _ _ _ _ _ _) _) _ _ =>
            apply wp_bind; eapply wp_mono; [apply wp_any|];
            cbn beta; intros ? ? _
        end
      | wp_step ]; try assumption; try exact I;
      unfold flag_agrees, loop_open in *;
      cbn [s_alpha s_best_score s_tt_flag s_found_move] in *;
      rewrite ?Z.gtb_ltb, ?Z.geb_leb in *;
      repeat match goal with
             | H : (_ <? _) = true |- _ => apply Z.ltb_lt in H
             | H : (_ <? _) = false |- _ => apply Z.ltb_ge in H
             | H : (_ <=? _) = true |- _ => apply Z.leb_le in H
             | H : (_ <=? _) = false |- _ => apply Z.leb_gt in H
             end.
    + right; right. repeat split; [lia].
    + right. destruct Hinv as [(_ & ? & ?)|(_ & ? & ?)];
        repeat split; lia.
    + destruct Hinv as [(? & ? & ?)|(_ & ? & ?)]; [left|lia].
      repeat split; [assumption|lia|assumption].
Qed.

(** X8. When the move loop of [search] ends, the hash flag tells where the
    best score lies in the window the node was given: [TT_ALPHA] with a
    best score that did not get above [alpha] (and the running alpha still
    the one of the window), [TT_EXACT] with a best score strictly inside
    the window (and alpha raised to it), [TT_BETA] with a best score at or
    above [beta]. *)
Theorem search_moves_flag (rec : Z -> Z -> Z -> bool -> M Z) (lf : nat)
  (depth alpha beta : Z) (in_check pv_node : bool) (tt_move : move)
  (static_score : Z) (w : worker) :
  - INFINITE_SCORE <= alpha -> alpha < beta ->
  match search_moves rec lf depth alpha beta in_check pv_node tt_move
          static_score w with
  | Ret st _ => flag_agrees alpha beta st
  | _ => True
  end.
Proof.
  intros Hinf Hwin.
  assert (H : wp True (fun _ _ => True)
                (search_moves rec lf depth alpha beta in_check pv_node tt_move
                   static_score)
                (fun st _ => flag_agrees alpha beta st) w).
  { unfold search_moves, init_node, set_tt_move.
    repeat wp_step. apply search_loop_flag.
    left. cbn. repeat split; lia. }
  unfold wp in H.
  destruct (search_moves rec lf depth alpha beta in_check pv_node tt_move
              static_score w); auto.
Qed.

(** *** Probcut *)

Lemma probcut_loop_cuts (rec : Z -> Z -> Z -> bool -> M Z) depth threshold
  static_score lf : forall w : worker,
  wp True (fun _ _ => True)
    (probcut_loop rec depth threshold static_score lf)
    (fun r _ => match r with Some v => threshold <= v | None => True end) w.
Proof.
  induction lf as [|lf' IH]; intros w; cbn [probcut_loop].
  - exact I.
  - unfold make_move, unmake_move.
    repeat first
      [ apply IH
      | match goal with
        | |- wp _ _ (bind (rec _ _ _ _) _) _ _ =>
            apply wp_bind; eapply wp_mono; [apply wp_any|];
            cbn beta; intros ? ? _
        end
      | wp_step ]; try exact I.
    rewrite Z.geb_leb in *.
    match goal with H : (_ <=? _) = true |- _ => apply Z.leb_le in H end.
    assumption.
Qed.

(** X9. Probcut cuts only on evidence: when it makes [search] return, the
    score it returns comes from a reduced search that reached
    [beta + PROBCUT_MARGIN], the node is not a PV node, the side to move
    is not in check and has a piece, and the depth is at least
    [PROBCUT_DEPTH]. *)
Theorem probcut_cuts_above_beta (rec : Z -> Z -> Z -> bool -> M Z)
  (lf : nat) (depth beta : Z) (in_check pv_node : bool) (tt_move : move)
  (static_score : Z) (w : worker) :
  match probcut rec lf depth beta in_check pv_node tt_move static_score w with
  | Ret (Some v) _ =>
      beta + PROBCUT_MARGIN <= v /\ pv_node = false /\ in_check = false /\
      PROBCUT_DEPTH <= depth /\
      board_has_non_pawn (pos w) (stm (pos w)) = true
  | _ => True
  end.
Proof.
  assert (H : wp True (fun _ _ => True)
                (probcut rec lf depth beta in_check pv_node tt_move
                   static_score)
                (fun r _ =>
                   match r with
                   | Some v =>
                       beta + PROBCUT_MARGIN <= v /\ pv_node = false /\
                       in_check = false /\ PROBCUT_DEPTH <= depth /\
                       board_has_non_pawn (pos w) (stm (pos w)) = true
                   | None => True
                   end) w).
  { unfold probcut, cur_has_non_pawn, init_node, set_tt_move.
    apply wp_bind, wp_gets.
    destruct (negb pv_node && negb in_check && (depth >=? PROBCUT_DEPTH) &&
              board_has_non_pawn (pos w) (stm (pos w))) eqn:Hg;
      [|exact I].
    apply andb_prop in Hg as [Hg Hnp]. apply andb_prop in Hg as [Hg Hd].
    apply andb_prop in Hg as [Hpv Hc].
    apply negb_true_iff in Hpv, Hc. rewrite Z.geb_leb in Hd.
    apply Z.leb_le in Hd.
    repeat wp_step.
    eapply wp_mono; [apply probcut_loop_cuts|].
    intros [v|] _ Hv; [|exact I]. auto. }
  unfold wp in H.
  destruct (probcut rec lf depth beta in_check pv_node tt_move static_score w)
    as [[v|] w'| |]; auto.
Qed.

(** *** Standing pat in quiescence *)




(** *** The iterative deepening loop catches every longjmp *)

Lemma wp_setjmp {A} F (m : M A) (Q : exception + A -> worker -> Prop) w :
  wp F (fun e w' => Q (inl e) w') m (fun a w' => Q (inr a) w') w ->
  wp F (fun _ _ => False) (setjmp m) Q w.
Proof. unfold wp, setjmp. destruct (m w); auto. Qed.

Lemma after_root_search_returns st alpha beta score (w : worker) :
  wp True (fun _ _ => False) (after_root_search st alpha beta score)
    (fun _ _ => True) w.
Proof. unfold after_root_search. repeat wp_step; exact I. Qed.

Lemma iteration_returns lf d st (w : worker) :
  wp True (fun _ _ => False) (iteration lf d st) (fun _ _ => True) w.
Proof.
  unfold iteration. apply wp_bind, wp_setjmp.
  match goal with
  | |- wp _ _ ?m _ _ => pose proof (wp_any m w) as H; unfold wp in *;
                        destruct (m w); try exact I
  end.
  apply after_root_search_returns.
Qed.

Lemma deepening_loop_returns lf d n : forall st (w : worker),
  wp True (fun _ _ => False) (deepening_loop lf d n st) (fun _ _ => True) w.
Proof.
  induction n as [|n' IH]; intros st w; cbn [deepening_loop].
  - exact I.
  - apply wp_bind. eapply wp_mono; [apply iteration_returns|].
    intros [st'|] w' _; [apply IH|exact I].
Qed.

Lemma ponder_wait_returns lf : forall w : worker,
  wp True (fun _ _ => False) (ponder_wait lf) (fun _ _ => True) w.
Proof.
  induction lf as [|lf' IH]; intros w; cbn [ponder_wait].
  - exact I.
  - repeat first [ apply IH | wp_step ]; exact I.
Qed.

(** X11. No [longjmp] leaves [search_find_best_move]: the [setjmp] of the
    iteration catches every exception that [checkup] raises below it, and
    nothing outside it raises one. *)
Theorem search_find_best_move_catches (lf d n : nat) (w : worker) :
  match search_find_best_move lf d n w with
  | Jump _ _ => False
  | _ => True
  end.
Proof.
  assert (H : wp True (fun _ _ => False) (search_find_best_move lf d n)
                (fun _ _ => True) w).
  { unfold search_find_best_move. apply wp_bind, wp_gets, wp_bind.
    eapply wp_mono; [apply deepening_loop_returns|].
    intros _ w' _. apply ponder_wait_returns. }
  unfold wp in H. destruct (search_find_best_move lf d n w); auto.
Qed.

End MoreNodes.

(** ** The time control of the XBoard driver *)

Lemma moves_to_go_mod (fullmove mptc : Z) :
  0 < mptc -> 1 <= fullmove ->
  let r := Z.rem fullmove mptc in
  (if r =? 1 then mptc else if r =? 0 then 1 else mptc - r + 1)
  = mptc - (fullmove - 1) mod mptc.
Proof.
  intros Hm Hf. cbn zeta.
  rewrite Z.rem_mod_nonneg by lia.
  pose proof (Z.div_mod fullmove mptc ltac:(lia)) as Hdm.
  pose proof (Z.mod_pos_bound fullmove mptc Hm) as Hr.
  set (q := fullmove / mptc) in *. set (r := fullmove mod mptc) in *.
  destruct (Z.eqb_spec r 1) as [E1|N1].
  - assert ((fullmove - 1) mod mptc = 0); [|lia].
    symmetry. apply (Z.mod_unique_pos _ _ q); lia.
  - destruct (Z.eqb_spec r 0) as [E0|N0].
    + assert ((fullmove - 1) mod mptc = mptc - 1); [|lia].
      symmetry. apply (Z.mod_unique_pos _ _ (q - 1)); lia.
    + assert ((fullmove - 1) mod mptc = r - 1); [|lia].
      symmetry. apply (Z.mod_unique_pos _ _ q); lia.
Qed.

(** X12. In a tournament time control of [mps] moves per session the number
    of moves to the next time control that [update_moves_to_time_control]
    leaves before a search at move [fullmove] is [mps] minus the moves
    already played in the session, [(fullmove - 1) mod mps], so it is
    between 1 and [mps]; nothing else of the time control changes.  After
    [level] this holds from the first move on. *)
Theorem moves_to_time_control_counts_down (fullmove : Z) (tc : time_control)
  (movestogo time_left increment : Z) :
  let mps := moves_per_time_control tc in
  let tc' := update_moves_to_time_control fullmove tc in
  (time_control_type tc = TC_TOURNAMENT -> 0 < mps -> 1 < fullmove ->
   moves_to_time_control tc' = mps - (fullmove - 1) mod mps
   /\ 1 <= moves_to_time_control tc' <= mps
   /\ moves_per_time_control tc' = mps
   /\ engine_time_left tc' = engine_time_left tc
   /\ engine_time_increment tc' = engine_time_increment tc
   /\ time_control_type tc' = TC_TOURNAMENT)
  /\ (0 < movestogo -> 1 <= fullmove ->
      moves_to_time_control
        (update_moves_to_time_control fullmove
           (level_time_control movestogo time_left increment))
      = movestogo - (fullmove - 1) mod movestogo).
Proof.
  cbn zeta. split.
  - intros Htc Hm Hf. unfold update_moves_to_time_control.
    rewrite Htc. cbn [timectl_type_eqb negb].
    destruct (Z.eqb_spec fullmove 1) as [E|_]; [lia|].
    pose proof (@moves_to_go_mod fullmove _ Hm ltac:(lia)) as Hmod.
    cbn zeta in Hmod.
    pose proof (Z.mod_pos_bound (fullmove - 1) _ Hm) as Hb.
    destruct (Z.rem fullmove (moves_per_time_control tc) =? 1);
      [|destruct (Z.rem fullmove (moves_per_time_control tc) =? 0)];
      cbn [moves_to_time_control moves_per_time_control engine_time_left
           engine_time_increment time_control_type];
      repeat split; try assumption; try reflexivity; lia.
  - intros Hm Hf. unfold level_time_control, update_moves_to_time_control.
    destruct (Z.eqb_spec movestogo 0) as [E|_]; [lia|].
    cbn [negb time_control_type timectl_type_eqb moves_per_time_control].
    pose proof (@moves_to_go_mod fullmove _ Hm Hf) as Hmod. cbn zeta in Hmod.
    destruct (Z.eqb_spec fullmove 1) as [E|_].
    + subst. cbn [moves_to_time_control]. rewrite Z.sub_diag, Z.mod_0_l; lia.
    + destruct (Z.rem fullmove movestogo =? 1);
        [|destruct (Z.rem fullmove movestogo =? 0)];
        cbn [moves_to_time_control]; exact Hmod.
Qed.

(** ** Three-fold repetition *)

Section Repetition.
Variable p : game_position.

Local Abbreviation in_window :=
  (fun i => (0 <=? i) && (g_ply p - g_fifty p <=? i)).
Local Abbreviation same_key := (fun i => g_history_key p i =? g_key p).

(** The plies [idx], [idx - 2], ..., [n] of them. *)
Local Abbreviation plies_from :=
  (fun idx n => map (fun k => idx - 2 * Z.of_nat k) (seq 0 n)).

Lemma plies_from_succ idx n :
  plies_from idx (S n) = idx :: plies_from (idx - 2) n.
Proof.
  cbn [seq map]. f_equal; [lia|].
  rewrite <- seq_shift, map_map. apply map_ext. intros k. lia.
Qed.

Lemma plies_from_below idx n :
  (idx <? 0) || (idx <? g_ply p - g_fifty p) = true ->
  filter in_window (plies_from idx n) = [].
Proof.
  revert idx. induction n as [|n IH]; intros idx H; [reflexivity|].
  rewrite plies_from_succ. cbn [filter].
  assert (E : in_window idx = false).
  { apply orb_prop in H. destruct H as [H|H]; apply Z.ltb_lt in H.
    - apply andb_false_intro1. apply Z.leb_gt. exact H.
    - apply andb_false_intro2. apply Z.leb_gt. exact H. }
  rewrite E. apply IH.
  apply orb_prop in H. apply orb_true_iff.
  destruct H as [H|H]; apply Z.ltb_lt in H; [left|right];
    apply Z.ltb_lt; lia.
Qed.

Lemma repetition_loop_counts n : forall idx nreps fuel,
  nreps <= 3 -> idx < 2 * Z.of_nat n -> (n <= fuel)%nat ->
  repetition_loop p fuel idx nreps
  = Some (Z.min 3
            (nreps + Z.of_nat (Datatypes.length
               (filter same_key (filter in_window (plies_from idx n)))))).
Proof.
  induction n as [|n IH]; intros idx nreps fuel Hn Hidx Hfuel.
  - cbn [seq map filter Datatypes.length].
    destruct fuel; cbn [repetition_loop];
      replace (idx >=? 0) with false by (symmetry; rewrite Z.geb_leb;
                                         apply Z.leb_gt; lia);
      cbn [andb]; f_equal; lia.
  - rewrite plies_from_succ.
    destruct ((idx >=? 0) && (idx >=? g_ply p - g_fifty p)) eqn:Hin.
    + assert (Hw : in_window idx = true).
      { rewrite !Z.geb_leb in Hin. exact Hin. }
      cbn [filter]. rewrite Hw. cbn [filter].
      destruct fuel as [|fuel]; [lia|]. cbn [repetition_loop].
      rewrite Hin. cbn [andb].
      destruct (Z.ltb_spec nreps 3) as [Hlt|Hge].
      * rewrite IH by (try lia; destruct (same_key idx); lia).
        destruct (same_key idx); cbn [Datatypes.length]; f_equal; lia.
      * f_equal. lia.
    + assert (Hw : in_window idx = false).
      { rewrite !Z.geb_leb in Hin. exact Hin. }
      cbn [filter]. rewrite Hw.
      rewrite plies_from_below.
      * cbn [filter Datatypes.length].
        destruct fuel; cbn [repetition_loop]; rewrite Hin; cbn [andb];
          f_equal; lia.
      * rewrite !Z.geb_leb in Hin. apply andb_false_iff in Hin.
        apply orb_true_iff.
        destruct Hin as [H|H]; apply Z.leb_gt in H; [left|right];
          apply Z.ltb_lt; lia.
Qed.

End Repetition.

(** X13. [is_three_fold_repetition] terminates within [ply] turns of its
    loop and answers whether the key of the position occurred at least
    twice before among the plies [ply - 2], [ply - 4], ... that are not
    negative and not older than [ply - fifty]. *)
Theorem three_fold_repetition_counts (fuel : nat) (p : game_position) :
  (Z.to_nat (g_ply p) <= fuel)%nat ->
  is_three_fold_repetition fuel p = Some (2 <=? earlier_occurrences p)%nat.
Proof.
  intros Hfuel. unfold is_three_fold_repetition.
  rewrite (repetition_loop_counts p (n := Z.to_nat (g_ply p)))
    by (try assumption; lia).
  unfold earlier_occurrences, same_side_plies.
  set (c := Datatypes.length _).
  f_equal. rewrite Z.geb_leb.
  destruct (Nat.leb_spec 2 c); [apply Z.leb_le|apply Z.leb_gt]; lia.
Qed.

(** ** The commands of the XBoard driver *)

Lemma strncmp_eq_prefix (kw cmd : string) :
  strncmp_eq cmd kw (String.length kw) = true ->
  exists rest, cmd = (kw ++ rest)%string.
Proof.
  unfold strncmp_eq. revert cmd.
  induction kw as [|c kw IH]; intros cmd H.
  - exists cmd. reflexivity.
  - destruct cmd as [|c' cmd]; [discriminate|].
    cbn [String.length substring String.eqb] in H.
    destruct (Ascii.eqb_spec c' c) as [E|NE]; [|discriminate].
    destruct (IH cmd H) as [rest Hrest]. exists rest.
    subst. reflexivity.
Qed.

Lemma substring_none (s : string) : substring 0 0 s = ""%string.
Proof. destruct s; reflexivity. Qed.

Lemma xboard_keywords_handled :
  Forall (fun kr => forall rest,
            xboard_handle_command (fst kr ++ rest) = snd kr)
    xboard_keywords.
Proof.
  unfold xboard_keywords.
  repeat (apply Forall_cons;
          [intros rest; unfold xboard_handle_command, strncmp_eq; cbn;
           rewrite ?substring_none; reflexivity|]).
  apply Forall_nil.
Qed.

Lemma keyword_handled (kw : string) (r : handled) (cmd : string) :
  In (kw, r) xboard_keywords ->
  strncmp_eq cmd kw (String.length kw) = true ->
  xboard_handle_command cmd = r.
Proof.
  intros Hin Hcmp. destruct (strncmp_eq_prefix kw cmd Hcmp) as [rest ->].
  apply (proj1 (Forall_forall _ _) xboard_keywords_handled (kw, r) Hin).
Qed.

Ltac in_keywords :=
  unfold xboard_keywords; cbn [In];
  solve [ repeat first [ left; reflexivity | right ] ].

(** X14. The prefix tests of [xboard_handle_command] do not shadow each
    other: a command line that starts with a keyword of the protocol gets
    what that keyword stands for, whatever follows the keyword, and
    [*stop] is set exactly by the lines that start with [quit]. *)
Theorem xboard_keywords_not_shadowed :
  Forall (fun kr => forall rest,
            xboard_handle_command (fst kr ++ rest) = snd kr)
    xboard_keywords
  /\ (forall cmd,
        h_stop (xboard_handle_command cmd) = true <->
        exists rest, cmd = ("quit" ++ rest)%string).
Proof.
  split; [exact xboard_keywords_handled|].
  intros cmd. split.
  - unfold xboard_handle_command.
    repeat match goal with
           | |- context [if strncmp_eq cmd ?kw ?n then _ else _] =>
               destruct (strncmp_eq cmd kw n) eqn:?
           end; cbn [h_stop xb_run xb_ignore]; try discriminate.
    intros _. apply (strncmp_eq_prefix "quit"). assumption.
  - intros [rest ->].
    rewrite (@keyword_handled "quit" (mk_handled true true None));
      [reflexivity|in_keywords|].
    unfold strncmp_eq. cbn. rewrite substring_none. reflexivity.
Qed.

(** X15. A command that [xboard_check_input] leaves pending during a search
    is the line it read, it stops the search and it is never a ponder
    hit, and [xboard_handle_command] knows it afterwards: it runs
    [usermove], [bk], [force], [new], [setboard] or [undo], or it is
    [quit].  A ponder hit happens only on a [usermove] whose move text is
    the move pondered on, leaves nothing pending and does not stop the
    search. *)
Theorem pending_commands_are_recognised (cmd : string) (pondering : bool)
  (movestr : string) :
  let c := xboard_check_input cmd pondering movestr in
  let h := xboard_handle_command cmd in
  (forall pend, c_pending c = Some pend ->
     pend = cmd /\ c_result c = true /\ c_ponderhit c = false /\
     h_result h = true /\
     (h_stop h = true \/
      exists f, h_handler h = Some f /\
                In f [cmd_usermove; cmd_bk; cmd_force; cmd_new;
                      cmd_setboard; cmd_undo]))
  /\ (c_ponderhit c = true ->
      c_result c = false /\ c_pending c = None /\
      c_reset_pondering_on c = true /\ pondering = true /\
      strncmp_eq cmd "usermove" 8 = true /\
      after_space cmd = Some movestr).
Proof.
  cbn zeta. unfold xboard_check_input.
  repeat match goal with
         | |- context [if strncmp_eq cmd ?kw ?n then _ else _] =>
             destruct (strncmp_eq cmd kw n) eqn:?
         | |- context [if strncmp_eq cmd ?kw ?n || _ then _ else _] =>
             destruct (strncmp_eq cmd kw n) eqn:?; cbn [orb]
         end;
    try (split; [intros pend; cbn; discriminate | cbn; discriminate]).
  - rewrite (@keyword_handled "usermove" (xb_run cmd_usermove) cmd);
      [|in_keywords|assumption].
    destruct pondering; cbn [negb].
    + destruct (after_space cmd) as [iter|];
        [destruct (String.eqb_spec movestr iter)|]; cbn;
        (split; [intros pend Hp; try discriminate; injection Hp as <-
                |intros Hh; try discriminate]);
        repeat split; try reflexivity; try (subst; reflexivity);
        right; exists cmd_usermove; cbn; auto.
    + cbn. split; [intros pend Hp; injection Hp as <-|discriminate].
      repeat split. right. exists cmd_usermove. cbn. auto.
  - assert (Hdefer :
      forall kw f, In (kw, xb_run f) xboard_keywords ->
        In f [cmd_usermove; cmd_bk; cmd_force; cmd_new; cmd_setboard;
              cmd_undo] ->
        strncmp_eq cmd kw (String.length kw) = true ->
        h_result (xboard_handle_command cmd) = true /\
        (h_stop (xboard_handle_command cmd) = true \/
         exists f, h_handler (xboard_handle_command cmd) = Some f /\
                   In f [cmd_usermove; cmd_bk; cmd_force; cmd_new;
                         cmd_setboard; cmd_undo])).
    { intros kw f Hin Hf Hcmp. rewrite (keyword_handled cmd Hin Hcmp).
      split; [reflexivity|]. right. exists f. auto. }
    destruct (strncmp_eq cmd "bk" 2) eqn:Hbk;
      [|destruct (strncmp_eq cmd "force" 5) eqn:Hforce;
        [|destruct (strncmp_eq cmd "new" 3) eqn:Hnew;
          [|destruct (strncmp_eq cmd "quit" 4) eqn:Hquit;
            [|destruct (strncmp_eq cmd "setboard" 8) eqn:Hset;
              [|destruct (strncmp_eq cmd "undo" 4) eqn:Hundo]]]]];
      cbn [orb c_pending c_result c_ponderhit];
      (split; [intros pend Hp; try discriminate; injection Hp as <-
              |discriminate]);
      (split; [reflexivity|]); (split; [reflexivity|]);
      (split; [reflexivity|]).
    + apply (Hdefer "bk"%string cmd_bk); [in_keywords|cbn; tauto|assumption].
    + apply (Hdefer "force"%string cmd_force);
        [in_keywords|cbn; tauto|assumption].
    + apply (Hdefer "new"%string cmd_new); [in_keywords|cbn; tauto|assumption].
    + rewrite (@keyword_handled "quit" (mk_handled true true None) cmd);
        [|in_keywords|assumption].
      split; [reflexivity|left; reflexivity].
    + apply (Hdefer "setboard"%string cmd_setboard);
        [in_keywords|cbn; tauto|assumption].
    + apply (Hdefer "undo"%string cmd_undo);
        [in_keywords|cbn; tauto|assumption].
Qed.

(** * The tuner *)

Lemma init_workers_loop (q : Z) (workers : Z -> tuner_worker) (n : nat) :
  let st := for_loop n
              (fun iter (st : (Z -> tuner_worker) * Z) =>
                 let (ws, nextpos) := st in
                 let first := nextpos in
                 let last := first + q - 1 in
                 (upd1 ws iter (mk_tuner_worker first last), last + 1))
              (workers, 0) in
  snd st = Z.of_nat n * q /\
  forall i, fst st i = if (0 <=? i) && (i <? Z.of_nat n)
                       then mk_tuner_worker (i * q) ((i + 1) * q - 1)
                       else workers i.
Proof.
  induction n as [|n IH]; cbn zeta in *.
  - cbn [for_loop fst snd]. split; [lia|]. intros i.
    destruct (Z.leb_spec 0 i), (Z.ltb_spec i (Z.of_nat 0)); cbn [andb];
      try reflexivity; lia.
  - cbn [for_loop]. destruct (for_loop n _ _) as [ws nextpos].
    cbn [fst snd] in *. destruct IH as [Hnext Hws]. subst nextpos.
    split; [lia|]. intros i. rewrite upd1_get, Hws.
    destruct (Z.eqb_spec i (Z.of_nat n)) as [->|NE].
    + replace ((0 <=? Z.of_nat n) && (Z.of_nat n <? Z.of_nat (S n)))
        with true by (symmetry; apply andb_true_intro; split;
                      [apply Z.leb_le|apply Z.ltb_lt]; lia).
      f_equal; lia.
    + destruct (Z.leb_spec 0 i), (Z.ltb_spec i (Z.of_nat n)),
        (Z.ltb_spec i (Z.of_nat (S n))); cbn [andb]; try reflexivity; lia.
Qed.

(** X16. [init_workers] cuts the training set into [nworkerthreads]
    consecutive ranges of [size / nworkerthreads] positions each, worker
    [i] getting the positions from [i * q] to [(i + 1) * q - 1]: the
    ranges of two workers do not overlap, and a position belongs to the
    range of some worker exactly when its index is below
    [size - size % nworkerthreads], so the remainder of the division is
    handed to no worker. *)
Theorem init_workers_partition (size nworkerthreads : Z)
  (workers : Z -> tuner_worker) :
  0 <= size -> 0 < nworkerthreads ->
  let q := Z.quot size nworkerthreads in
  let ws := init_workers size nworkerthreads workers in
  (forall i, 0 <= i < nworkerthreads ->
     first_pos (ws i) = i * q /\ last_pos (ws i) = (i + 1) * q - 1)
  /\ (forall i, ~ 0 <= i < nworkerthreads -> ws i = workers i)
  /\ (forall i j k, 0 <= i < nworkerthreads -> 0 <= j < nworkerthreads ->
        first_pos (ws i) <= k <= last_pos (ws i) ->
        first_pos (ws j) <= k <= last_pos (ws j) -> i = j)
  /\ (forall k,
        (exists i, 0 <= i < nworkerthreads /\
                   first_pos (ws i) <= k <= last_pos (ws i)) <->
        0 <= k < size - Z.rem size nworkerthreads).
Proof.
  intros Hsize Hn. cbn zeta. unfold init_workers.
  pose proof (init_workers_loop (Z.quot size nworkerthreads) workers
                (Z.to_nat nworkerthreads)) as H.
  cbn zeta in H. destruct H as [_ Hws].
  set (q := Z.quot size nworkerthreads) in *.
  assert (Hq : 0 <= q) by (apply Z.quot_pos; lia).
  assert (Hsz : size - Z.rem size nworkerthreads = nworkerthreads * q).
  { pose proof (Z.quot_rem' size nworkerthreads). unfold q. lia. }
  assert (Hin : forall i, 0 <= i < nworkerthreads ->
            fst (for_loop (Z.to_nat nworkerthreads)
                   (fun iter (st : (Z -> tuner_worker) * Z) =>
                      let (ws, nextpos) := st in
                      (upd1 ws iter
                         (mk_tuner_worker nextpos (nextpos + q - 1)),
                       nextpos + q - 1 + 1)) (workers, 0)) i
            = mk_tuner_worker (i * q) ((i + 1) * q - 1)).
  { intros i Hi. rewrite Hws.
    replace ((0 <=? i) && (i <? Z.of_nat (Z.to_nat nworkerthreads)))
      with true by (symmetry; apply andb_true_intro; split;
                    [apply Z.leb_le|apply Z.ltb_lt]; lia).
    reflexivity. }
  split; [|split; [|split]].
  - intros i Hi. rewrite Hin by assumption. split; reflexivity.
  - intros i Hi. rewrite Hws.
    destruct (Z.leb_spec 0 i),
      (Z.ltb_spec i (Z.of_nat (Z.to_nat nworkerthreads)));
      cbn [andb]; try reflexivity; lia.
  - intros i j k Hi Hj. rewrite !Hin by assumption.
    cbn [first_pos last_pos]. intros Hki Hkj.
    destruct (Z.lt_trichotomy i j) as [Hlt|[Heq|Hgt]]; [|assumption|]; nia.
  - intros k. rewrite Hsz. split.
    + intros [i [Hi Hk]]. rewrite Hin in Hk by assumption.
      cbn [first_pos last_pos] in Hk. nia.
    + intros Hk.
      assert (Hqpos : 0 < q) by nia.
      exists (k / q).
      pose proof (Z.div_mod k q ltac:(lia)) as Hdm.
      pose proof (Z.mod_pos_bound k q Hqpos) as Hmb.
      assert (Hi : 0 <= k / q < nworkerthreads).
      { split; [apply Z.div_pos; lia|apply Z.div_lt_upper_bound; lia]. }
      split; [exact Hi|]. rewrite Hin by assumption.
      cbn [first_pos last_pos]. nia.
Qed.

(** * The invariants on the concrete engine *)

Lemma search_keeps_history_bounded_witness :
  match search (X := toy) 3 4 2 (-30000) 30000 true (toy_worker toy_start) with
  | Ret _ w' | Jump _ w' => history_bounded (history_table w')
  | OutOfFuel => True
  end
  /\ (0 < 2 ->
      match search_root (X := toy) 3 4 2 (-30000) 30000
              (toy_worker toy_start) with
      | Ret _ w' | Jump _ w' => history_bounded (history_table w')
      | OutOfFuel => True
      end).
Proof.
  apply (@search_keeps_history_bounded toy_position toy 3 4 2 (-30000) 30000
           true (toy_worker toy_start)).
  - cbn. lia.
  - intros s f t _. cbn. lia.
Defined.

Lemma search_leaves_root_fields_witness :
  match search (X := toy) 3 4 2 (-30000) 30000 true (toy_worker toy_start) with
  | Ret _ w' | Jump _ w' => same_root_fields (toy_worker toy_start) w'
  | OutOfFuel => True
  end
  /\ (0 < 2 ->
      match search_root (X := toy) 3 4 2 (-30000) 30000
              (toy_worker toy_start) with
      | Ret _ w' | Jump _ w' =>
          w_depth w' = 0 /\ resolving_root_fail w' = false /\ id w' = 0
      | OutOfFuel => True
      end).
Proof.
  exact (@search_leaves_root_fields toy_position toy 3 4 2 (-30000) 30000
           true (toy_worker toy_start)).
Defined.

Lemma search_keeps_pv_lengths_witness :
  match quiescence (X := toy) 3 4 2 (-30000) 30000 (toy_worker toy_start) with
  | Ret _ w' | Jump _ w' => pv_lengths_ok (pv_table w')
  | OutOfFuel => True
  end
  /\
  match search (X := toy) 3 4 2 (-30000) 30000 true (toy_worker toy_start) with
  | Ret _ w' | Jump _ w' => pv_lengths_ok (pv_table w')
  | OutOfFuel => True
  end
  /\
  (0 < 2 ->
   match search_root (X := toy) 3 4 2 (-30000) 30000
           (toy_worker toy_start) with
   | Ret _ w' | Jump _ w' => pv_lengths_ok (pv_table w')
   | OutOfFuel => True
   end).
Proof.
  apply (@search_keeps_pv_lengths toy_position toy 3 4 2 (-30000) 30000 true
           (toy_worker toy_start)).
  intros ply. cbn. lia.
Defined.

Lemma longjmp_only_when_polled_witness :
  match search (X := toy) 3 4 2 (-30000) 30000 true
          (toy_worker (toy_with_stop toy_start)) with
  | Jump e w' =>
      (e <> EXCEPTION_STOP -> Z.land (nodes w') 1023 = 0) /\
      (e = EXCEPTION_COMMAND -> id (toy_worker (toy_with_stop toy_start)) = 0)
  | _ => True
  end.
Proof.
  exact (proj1 (@longjmp_only_when_polled toy_position toy 3 4 2 (-30000)
                  30000 true (toy_worker (toy_with_stop toy_start)))).
Defined.

Lemma added_killer_is_killer_witness :
  is_killer_move (X := toy) (add_killer_move (toy_worker toy_start) 5) 5 = true.
Proof.
  exact (proj1 (@added_killer_is_killer toy_position toy
                  (toy_worker toy_start) 5) eq_refl).
Defined.

Lemma search_moves_flag_witness :
  match search_moves (X := toy) (search 3 3) 3 2 (-10) 10 false true 0 0
          (toy_worker toy_start) with
  | Ret st _ => flag_agrees (-10) 10 st
  | _ => True
  end.
Proof.
  apply (@search_moves_flag toy_position toy (search 3 3) 3 2 (-10) 10 false
           true 0 0 (toy_worker toy_start)).
  - cbn. lia.
  - lia.
Defined.

Lemma moves_to_time_control_counts_down_witness :
  moves_to_time_control (update_moves_to_time_control 45 toy_clock)
  = 40 - (45 - 1) mod 40.
Proof.
  refine (proj1 (proj1
    (@moves_to_time_control_counts_down 45 toy_clock 40 300000 0)
    eq_refl _ _)).
  - cbn. lia.
  - lia.
Defined.

Lemma three_fold_repetition_counts_witness :
  is_three_fold_repetition 8 toy_game
  = Some (2 <=? earlier_occurrences toy_game)%nat.
Proof.
  apply (@three_fold_repetition_counts 8 toy_game). cbn. lia.
Defined.

Lemma pending_commands_are_recognised_witness :
  c_pending (xboard_check_input "new" true "e2e4") = Some "new"%string /\
  ("new"%string = "new"%string /\
   c_result (xboard_check_input "new" true "e2e4") = true /\
   c_ponderhit (xboard_check_input "new" true "e2e4") = false /\
   h_result (xboard_handle_command "new") = true /\
   (h_stop (xboard_handle_command "new") = true \/
    exists f, h_handler (xboard_handle_command "new") = Some f /\
              In f [cmd_usermove; cmd_bk; cmd_force; cmd_new;
                    cmd_setboard; cmd_undo])).
Proof.
  split; [reflexivity|].
  exact (proj1 (@pending_commands_are_recognised "new" true "e2e4")
           "new"%string eq_refl).
Defined.

Lemma init_workers_partition_witness :
  (exists i, 0 <= i < 3 /\
     first_pos (init_workers 10 3 (fun _ => mk_tuner_worker 0 0) i) <= 7
     <= last_pos (init_workers 10 3 (fun _ => mk_tuner_worker 0 0) i)) <->
  0 <= 7 < 10 - Z.rem 10 3.
Proof.
  refine (proj2 (proj2 (proj2
    (@init_workers_partition 10 3 (fun _ => mk_tuner_worker 0 0) _ _))) 7).
  - lia.
  - lia.
Defined.
